(** * arc_ilp: a type-directed enumerative synthesiser for ARC-DSL programs

    Shallow embedding of the Python package [arc_ilp] (types.py,
    hypothesis.py, generator.py, evaluator.py, codegen.py, search.py) and
    proofs of the properties its specification states.

    Conventions of the embedding:
    - Python generators are modelled by the finite list of the values they
      yield, in yield order (generation is pure, so laziness is unobservable
      except through the interleaving with the clock, which the search model
      makes explicit); the recursive generator of partial hypotheses nests
      one frame per depth, so it takes the room the recursion limit of the
      interpreter leaves as a parameter, [frames], and raises
      [RecursionError] beyond it, before its first value;
    - Python dicts whose iteration order is observable ([primitives],
      [CONSTANTS], [TypeEnv.variables]) are association lists in insertion
      order; the runtime environment of the evaluator, which is only looked
      up by key, is a [gmap];
    - a function that may raise returns [result A], a sum of an exception
      and a value;
    - closed unions of the source ([Argument.kind], [Step], [Type]) are
      inductive types;
    - the search runs in a state monad over the number of clock reads and a
      trace of events; [time.time()] is an arbitrary sequence of rationals,
      the progress callback is a function that returns or raises, and the
      unbounded [while] loop is followed for as many depths as the fuel
      allows. *)

From Stdlib Require Import String Ascii List ZArith QArith Lia Lqa DecimalString DecimalNat.
From stdpp Require Import base gmap strings list.

Import ListNotations.
Local Open Scope string_scope.
Local Open Scope list_scope.
Local Open Scope nat_scope.

(* ===================================================================== *)
(** ** types.py *)
(* ===================================================================== *)

(** [class BaseType(Enum)] *)
Inductive BaseType : Set :=
  | BOOLEAN | INTEGER | INTEGER_TUPLE | GRID | CELL | OBJECT | OBJECTS
  | INDICES | INDICES_SET | INTEGER_SET | TUPLE | TUPLE_TUPLE | CONTAINER
  | CONTAINER_CONTAINER | FROZENSET | ANY.

#[global] Instance BaseType_eq_dec : EqDecision BaseType.
Proof. solve_decision. Defined.

(** [Type = Union[BaseType, CallableType]]; [CallableType] is the frozen
    dataclass with fields [input_types] (a tuple) and [output_type]. *)
#[warnings="-register-all"]
Inductive Ty : Type :=
  | Base (b : BaseType)
  | CallableType (input_types : list Ty) (output_type : Ty).

(** Python [==] on types: enum identity on base types, field-wise
    (dataclass) equality on callable types, [False] across the two. *)
Fixpoint ty_eqb (a b : Ty) {struct a} : bool :=
  match a, b with
  | Base x, Base y => bool_decide (x = y)
  | CallableType i1 o1, CallableType i2 o2 =>
      (fix tys_eqb (l1 l2 : list Ty) {struct l1} : bool :=
         match l1, l2 with
         | [], [] => true
         | x :: xs, y :: ys => ty_eqb x y && tys_eqb xs ys
         | _, _ => false
         end) i1 i2
      && ty_eqb o1 o2
  | _, _ => false
  end.

(** [isinstance(t, CallableType)] *)
Definition is_callable (t : Ty) : bool :=
  match t with CallableType _ _ => true | Base _ => false end.

(** Membership of a type in a frozenset of base types ([t in S]): a
    callable type hashes and compares unequal to every base type. *)
Definition in_base_set (t : Ty) (s : list BaseType) : bool :=
  match t with
  | Base b => bool_decide (b ∈ s)
  | CallableType _ _ => false
  end.

Definition NUMERICAL : list BaseType := [INTEGER; INTEGER_TUPLE].
Definition PATCH : list BaseType := [OBJECT; INDICES].
Definition ELEMENT : list BaseType := [OBJECT; GRID].
Definition PIECE : list BaseType := [GRID; OBJECT; INDICES].
Definition CONTAINER_TYPES : list BaseType :=
  [OBJECTS; INDICES; INTEGER_SET; TUPLE; GRID; OBJECT; CONTAINER].
Definition FROZENSET_TYPES : list BaseType :=
  [OBJECT; OBJECTS; INDICES; INDICES_SET; INTEGER_SET; FROZENSET].

(** [is_type_compatible(arg_type, param_type)], one [if] of the source per
    line, in the source's order. *)
Definition is_type_compatible (arg_type param_type : Ty) : bool :=
  if ty_eqb param_type (Base ANY) then true
  else if ty_eqb arg_type (Base ANY) then true
  else if ty_eqb arg_type param_type then true
  else if ty_eqb param_type (Base INTEGER_TUPLE) && ty_eqb arg_type (Base INTEGER)
       then false
  else if ty_eqb param_type (Base CONTAINER)
       then in_base_set arg_type CONTAINER_TYPES || ty_eqb arg_type (Base CONTAINER)
  else if ty_eqb param_type (Base CONTAINER_CONTAINER)
       then in_base_set arg_type [OBJECTS; INDICES_SET; TUPLE_TUPLE; CONTAINER_CONTAINER]
  else if ty_eqb param_type (Base FROZENSET)
       then in_base_set arg_type FROZENSET_TYPES
  else if in_base_set param_type PATCH && in_base_set arg_type PATCH then true
  else if in_base_set param_type ELEMENT && in_base_set arg_type ELEMENT then true
  else if in_base_set param_type PIECE && in_base_set arg_type PIECE then true
  else if ty_eqb param_type (Base TUPLE)
       then in_base_set arg_type [TUPLE; GRID; INTEGER_TUPLE; TUPLE_TUPLE]
  else if is_callable param_type && is_callable arg_type
       then match param_type, arg_type with
            | CallableType pi _, CallableType ai _ =>
                Nat.eqb (length pi) (length ai)
            | _, _ => false
            end
  else if is_callable param_type then is_callable arg_type
  else false.

Section TyInduction.
Variable P : Ty -> Prop.
Hypothesis HBase : forall b, P (Base b).
Hypothesis HCall :
  forall ins out, Forall P ins -> P out -> P (CallableType ins out).

(** Induction principle giving the hypothesis on every input type. *)
Fixpoint Ty_ind' (t : Ty) : P t :=
  match t with
  | Base b => HBase b
  | CallableType ins out =>
      HCall ins out
        ((fix all (l : list Ty) : Forall P l :=
            match l with
            | [] => @Stdlib.Lists.List.Forall_nil _ P
            | x :: xs => @Stdlib.Lists.List.Forall_cons _ P x xs (Ty_ind' x) (all xs)
            end) ins)
        (Ty_ind' out)
  end.
End TyInduction.

(** The list comparison nested in [ty_eqb]. *)
Definition tys_eqb : list Ty -> list Ty -> bool :=
  fix tys_eqb (l1 l2 : list Ty) {struct l1} : bool :=
    match l1, l2 with
    | [], [] => true
    | x :: xs, y :: ys => ty_eqb x y && tys_eqb xs ys
    | _, _ => false
    end.

(* ===================================================================== *)
(** ** Exceptions *)
(* ===================================================================== *)

(** The exceptions the package can meet; all are subclasses of Python's
    [Exception]. [CallError] stands for whatever a primitive of the external
    library raises. *)
Inductive exn : Type :=
  | AttributeError (name : string)
  | KeyError (key : string)
  | ValueError (msg : string)
  | TypeError (msg : string)
  | RecursionError
  | CallError (msg : string).

Inductive result (A : Type) : Type :=
  | Ok (a : A)
  | Err (e : exn).
Arguments Ok {A} a.
Arguments Err {A} e.

Definition rbind {A B} (m : result A) (k : A -> result B) : result B :=
  match m with
  | Ok a => k a
  | Err e => Err e
  end.

Declare Scope result_scope.
Delimit Scope result_scope with result.
Notation "x <- m ;; k" := (rbind m (fun x => k))
  (at level 100, m at next level, right associativity) : result_scope.

(** [try: body except Exception: handler] *)
Definition try_except {A} (body : result A) (handler : exn -> result A) : result A :=
  match body with
  | Ok a => Ok a
  | Err e => handler e
  end.

(** [[f(x) for x in l]] where [f] may raise: left to right, first failure wins. *)
Fixpoint rmap {A B} (f : A -> result B) (l : list A) : result (list B) :=
  match l with
  | [] => Ok []
  | x :: xs => (y <- f x ;; ys <- rmap f xs ;; Ok (y :: ys))%result
  end.

(* ===================================================================== *)
(** ** Insertion-ordered dictionaries *)
(* ===================================================================== *)

(** [d.get(k)] *)
Fixpoint dict_get {V} (k : string) (d : list (string * V)) : option V :=
  match d with
  | [] => None
  | (k', v) :: d' => if String.eqb k' k then Some v else dict_get k d'
  end.

(** [d[k] = v]: an existing key keeps its position, a new key goes last. *)
Fixpoint dict_set {V} (k : string) (v : V) (d : list (string * V)) : list (string * V) :=
  match d with
  | [] => [(k, v)]
  | (k', v') :: d' =>
      if String.eqb k' k then (k', v) :: d' else (k', v') :: dict_set k v d'
  end.

(* ===================================================================== *)
(** ** hypothesis.py *)
(* ===================================================================== *)

(** [Argument.kind]: ['constant'], ['variable'], ['input'], ['primitive']. *)
Inductive ArgKind : Set := constant | variable | input | primitive.

Record Argument : Set := { kind : ArgKind; value : string }.

(** [Step = Union[PrimitiveCall, CallVariable]]; the first string is the
    field [primitive], resp. [callee]. *)
Inductive Step : Set :=
  | PrimitiveCall (primitive : string) (arguments : list Argument) (output_var : string)
  | CallVariable (callee : string) (arguments : list Argument) (output_var : string).

Definition output_var (s : Step) : string :=
  match s with
  | PrimitiveCall _ _ o => o
  | CallVariable _ _ o => o
  end.

Definition arguments (s : Step) : list Argument :=
  match s with
  | PrimitiveCall _ a _ => a
  | CallVariable _ a _ => a
  end.

(** [class Hypothesis] ([Hypothesis] is a reserved word here). *)
Record Hyp : Set := { steps : list Step }.

(** [Hypothesis.depth] / [__len__] *)
Definition hyp_depth (h : Hyp) : nat := length (steps h).

(** [TypeEnv]: the dict [variables]; [TypeEnv()] holds only ['I': GRID]. *)
Record TypeEnv : Type := { variables : list (string * Ty) }.

Definition TypeEnv_new : TypeEnv := {| variables := [("I", Base GRID)] |}.

Definition env_add (env : TypeEnv) (name : string) (typ : Ty) : TypeEnv :=
  {| variables := dict_set name typ (variables env) |}.

Definition env_get (env : TypeEnv) (name : string) : option Ty :=
  dict_get name (variables env).

Definition get_callable_vars (env : TypeEnv) : list string :=
  map fst (filter (fun p => is_callable (snd p)) (variables env)).

(* ===================================================================== *)
(** ** primitives.py *)
(* ===================================================================== *)

Record PrimitiveInfo : Type := {
  name : string;
  param_names : list string;
  param_types : list Ty;
  return_type : Ty;
  is_higher_order : bool;
  returns_callable : bool
}.

(** The catalog [Dict[str, PrimitiveInfo]], in iteration order. *)
Definition Catalog : Type := list (string * PrimitiveInfo).

Definition any_to_any : Ty := CallableType [Base ANY] (Base ANY).

Definition HIGHER_ORDER_RETURNING_CALLABLE : list (string * Ty) :=
  [ ("compose", any_to_any); ("chain", any_to_any); ("fork", any_to_any);
    ("lbind", any_to_any); ("rbind", any_to_any);
    ("matcher", CallableType [Base ANY] (Base BOOLEAN));
    ("power", any_to_any) ].

Definition FUNCTION_TAKING_PRIMITIVES : list string :=
  [ "compose"; "chain"; "fork"; "lbind"; "rbind"; "matcher"; "power";
    "apply"; "mapply"; "sfilter"; "mfilter"; "argmax"; "argmin";
    "order"; "extract"; "valmax"; "valmin"; "rapply"; "papply"; "mpapply";
    "prapply" ].

(** [name in FUNCTION_TAKING_PRIMITIVES] *)
Definition str_in (s : string) (l : list string) : bool :=
  existsb (String.eqb s) l.

(** [build_type_env(hypothesis, primitives)] *)
Definition step_type (primitives : Catalog) (env : TypeEnv) (step : Step) : Ty :=
  match step with
  | PrimitiveCall p _ _ =>
      match dict_get p primitives with
      | Some prim_info =>
          match dict_get p HIGHER_ORDER_RETURNING_CALLABLE with
          | Some t => t
          | None => return_type prim_info
          end
      | None => Base ANY
      end
  | CallVariable c _ _ =>
      match env_get env c with
      | Some (CallableType _ out) => out
      | _ => Base ANY
      end
  end.

Definition build_type_env (hypothesis : Hyp) (primitives : Catalog) : TypeEnv :=
  fold_left
    (fun env step => env_add env (output_var step) (step_type primitives env step))
    (steps hypothesis) TypeEnv_new.

(** [str(n)] for a natural number. *)
Definition str_of_nat (n : nat) : string :=
  NilEmpty.string_of_uint (Nat.to_uint n).

(** [next_var_name(hypothesis)]: [f"x{len(hypothesis.steps) + 1}"] *)
Definition next_var_name (hypothesis : Hyp) : string :=
  "x" +:+ str_of_nat (length (steps hypothesis) + 1).

(* ===================================================================== *)
(** ** generator.py *)
(* ===================================================================== *)

(** The registry [CONSTANTS], in its literal order. *)
Definition CONSTANTS : list (string * Ty) :=
  [ ("T", Base BOOLEAN); ("F", Base BOOLEAN);
    ("ZERO", Base INTEGER); ("ONE", Base INTEGER); ("TWO", Base INTEGER);
    ("THREE", Base INTEGER); ("FOUR", Base INTEGER); ("FIVE", Base INTEGER);
    ("SIX", Base INTEGER); ("SEVEN", Base INTEGER); ("EIGHT", Base INTEGER);
    ("NINE", Base INTEGER); ("TEN", Base INTEGER); ("NEG_ONE", Base INTEGER);
    ("NEG_TWO", Base INTEGER);
    ("DOWN", Base INTEGER_TUPLE); ("RIGHT", Base INTEGER_TUPLE);
    ("UP", Base INTEGER_TUPLE); ("LEFT", Base INTEGER_TUPLE);
    ("ORIGIN", Base INTEGER_TUPLE); ("UNITY", Base INTEGER_TUPLE);
    ("NEG_UNITY", Base INTEGER_TUPLE); ("UP_RIGHT", Base INTEGER_TUPLE);
    ("DOWN_LEFT", Base INTEGER_TUPLE); ("ZERO_BY_TWO", Base INTEGER_TUPLE);
    ("TWO_BY_ZERO", Base INTEGER_TUPLE); ("TWO_BY_TWO", Base INTEGER_TUPLE);
    ("THREE_BY_THREE", Base INTEGER_TUPLE) ].

(** [get_possible_arguments(param_type, env, primitives, include_primitives)]:
    the four [args.append] loops, concatenated in order. *)
Definition get_possible_arguments
    (param_type : Ty) (env : TypeEnv) (primitives : Catalog)
    (include_primitives : bool) : list Argument :=
  (if is_type_compatible (Base GRID) param_type
   then [ {| kind := input; value := "I" |} ] else [])
  ++ flat_map
       (fun c => if is_type_compatible (snd c) param_type
                 then [ {| kind := constant; value := fst c |} ] else [])
       CONSTANTS
  ++ flat_map
       (fun v => if String.eqb (fst v) "I" then []
                 else if is_type_compatible (snd v) param_type
                 then [ {| kind := variable; value := fst v |} ] else [])
       (variables env)
  ++ (if include_primitives || is_callable param_type
      then flat_map
             (fun p =>
                let prim_callable :=
                  CallableType (param_types (snd p)) (return_type (snd p)) in
                if is_type_compatible prim_callable param_type
                then [ {| kind := primitive; value := fst p |} ] else [])
             primitives
      else []).

(** [itertools.product] applied to the unpacked pools: the rightmost pool
    varies fastest. *)
Fixpoint product {A} (pools : list (list A)) : list (list A) :=
  match pools with
  | [] => [[]]
  | pool :: rest =>
      flat_map (fun x => map (fun tl => x :: tl) (product rest)) pool
  end.

(** The loop filling [param_options]; [None] is the early [return] taken at
    the first parameter without any candidate. *)
Fixpoint collect_options (options_for : Ty -> list Argument) (tys : list Ty)
  : option (list (list Argument)) :=
  match tys with
  | [] => Some []
  | param_type :: tys' =>
      match options_for param_type with
      | [] => None
      | options =>
          match collect_options options_for tys' with
          | Some param_options => Some (options :: param_options)
          | None => None
          end
      end
  end.

(** The candidates [enumerate_bindings] computes for one parameter. *)
Definition binding_options (prim_info : PrimitiveInfo) (env : TypeEnv)
    (primitives : Catalog) (param_type : Ty) : list Argument :=
  let include_prims :=
    str_in (name prim_info) FUNCTION_TAKING_PRIMITIVES && is_callable param_type in
  get_possible_arguments param_type env primitives include_prims.

(** [enumerate_bindings(prim_info, env, primitives)] *)
Definition enumerate_bindings (prim_info : PrimitiveInfo) (env : TypeEnv)
    (primitives : Catalog) : list (list Argument) :=
  if Nat.eqb (length (param_types prim_info)) 0 then [[]]
  else
    match collect_options (binding_options prim_info env primitives)
            (param_types prim_info) with
    | None => []
    | Some param_options => product param_options
    end.

(** [enumerate_call_bindings(callable_type, env, primitives)], on the
    [input_types] of the callable type. *)
Definition enumerate_call_bindings (input_types : list Ty) (env : TypeEnv)
    (primitives : Catalog) : list (list Argument) :=
  if Nat.eqb (length input_types) 0 then [[]]
  else
    match collect_options
            (fun param_type => get_possible_arguments param_type env primitives false)
            input_types with
    | None => []
    | Some param_options => product param_options
    end.

(** [generate_single_step(primitives)] *)
Definition generate_single_step (primitives : Catalog) : list Hyp :=
  let env := TypeEnv_new in
  flat_map
    (fun p =>
       if negb (is_type_compatible (return_type (snd p)) (Base GRID)) then []
       else map (fun binding => {| steps := [PrimitiveCall (fst p) binding "O"] |})
                (enumerate_bindings (snd p) env primitives))
    primitives.

(** [extend_hypothesis(partial, primitives, is_final)] *)
Definition extend_hypothesis (partial : Hyp) (primitives : Catalog)
    (is_final : bool) : list Hyp :=
  let env := build_type_env partial primitives in
  let new_var := if is_final then "O" else next_var_name partial in
  flat_map
    (fun p =>
       if is_final && negb (is_type_compatible (return_type (snd p)) (Base GRID))
       then []
       else map (fun binding =>
                   {| steps := steps partial ++ [PrimitiveCall (fst p) binding new_var] |})
                (enumerate_bindings (snd p) env primitives))
    primitives
  ++ flat_map
       (fun var_name =>
          match env_get env var_name with
          | Some (CallableType ins out) =>
              if is_final && negb (is_type_compatible out (Base GRID)) then []
              else map (fun binding =>
                          {| steps := steps partial
                                        ++ [CallVariable var_name binding new_var] |})
                       (enumerate_call_bindings ins env primitives)
          | _ => []
          end)
       (get_callable_vars env).

(** [generate_partials_at_depth(depth, primitives)]. Every level of the
    recursion is a generator that stays suspended under the one consuming
    it, so the descent from [depth] to 1 keeps one frame per level on the
    stack, and Python ends it with [RecursionError], before anything is
    yielded, once the recursion limit of the interpreter is reached.
    [frames] is the number of nested recursive calls the limit leaves room
    for where the generator is consumed. For [depth <= 0] the source
    recurses on [depth - 1] without ever reaching 1, and the descent ends
    in the same way whatever the room; depths are naturals here and [0]
    stands for every such depth. *)
Fixpoint generate_partials_at_depth (frames : nat) (depth : nat)
    (primitives : Catalog) {struct frames} : result (list Hyp) :=
  if Nat.eqb depth 1 then
    let env := TypeEnv_new in
    Ok (flat_map
          (fun p => map (fun binding =>
                           {| steps := [PrimitiveCall (fst p) binding "x1"] |})
                        (enumerate_bindings (snd p) env primitives))
          primitives)
  else
    match frames with
    | 0 => Err RecursionError
    | S frames' =>
        (partials <- generate_partials_at_depth frames' (depth - 1) primitives ;;
         Ok (flat_map (fun partial => extend_hypothesis partial primitives false)
                      partials))%result
    end.

(** [generate_at_depth(depth, primitives)], with the room [frames] that its
    recursive descent has. *)
Definition generate_at_depth (frames : nat) (depth : nat) (primitives : Catalog)
  : result (list Hyp) :=
  if Nat.eqb depth 1 then Ok (generate_single_step primitives)
  else if Nat.eqb depth 2 then
    Ok (flat_map
          (fun p =>
             let env := TypeEnv_new in
             flat_map
               (fun binding =>
                  let partial := {| steps := [PrimitiveCall (fst p) binding "x1"] |} in
                  extend_hypothesis partial primitives true)
               (enumerate_bindings (snd p) env primitives))
          primitives)
  else
    (partials <- generate_partials_at_depth frames (depth - 1) primitives ;;
     Ok (flat_map (fun partial => extend_hypothesis partial primitives true)
                  partials))%result.

(** [generate_hypotheses(max_depth, primitives)]: the depths of
    [range(1, max_depth + 1)], one after the other. *)
Fixpoint generate_depths (frames : nat) (depths : list nat) (primitives : Catalog)
  : result (list Hyp) :=
  match depths with
  | [] => Ok []
  | depth :: rest =>
      (hs <- generate_at_depth frames depth primitives ;;
       hs' <- generate_depths frames rest primitives ;;
       Ok (hs ++ hs'))%result
  end.

Definition generate_hypotheses (frames : nat) (max_depth : nat)
    (primitives : Catalog) : result (list Hyp) :=
  generate_depths frames (seq 1 max_depth) primitives.

(* ===================================================================== *)
(** ** codegen.py *)
(* ===================================================================== *)

(** [format_arg(arg)]; the four kinds are all there are, so the [else]
    branch raising [ValueError] has no counterpart. *)
Definition format_arg (arg : Argument) : string :=
  match kind arg with
  | constant => value arg
  | variable => value arg
  | input => "I"
  | primitive => value arg
  end.

(** [', '.join(format_arg(a) for a in args)] *)
Definition format_args (args : list Argument) : string :=
  String.concat ", " (map format_arg args).

Definition newline : string := String (ascii_of_nat 10) EmptyString.

(** [hypothesis_to_code(hypothesis, task_id)] *)
Definition hypothesis_to_code (hypothesis : Hyp) (task_id : string) : string :=
  let lines :=
    ["def solve_" +:+ task_id +:+ "(I):"]
    ++ map (fun step =>
              match step with
              | PrimitiveCall p args o =>
                  "    " +:+ o +:+ " = " +:+ p +:+ "(" +:+ format_args args +:+ ")"
              | CallVariable c args o =>
                  "    " +:+ o +:+ " = " +:+ c +:+ "(" +:+ format_args args +:+ ")"
              end)
           (steps hypothesis)
    ++ ["    return O"] in
  String.concat newline lines.

(** [hypothesis_to_lambda(hypothesis)] *)
Definition hypothesis_to_lambda (hypothesis : Hyp) : result string :=
  if negb (Nat.eqb (length (steps hypothesis)) 1)
  then Err (ValueError "Can only convert single-step hypotheses to lambda")
  else
    match steps hypothesis with
    | PrimitiveCall p args _ :: _ =>
        Ok ("lambda I: " +:+ p +:+ "(" +:+ format_args args +:+ ")")
    | CallVariable _ _ _ :: _ =>
        Err (ValueError "Cannot convert variable call to lambda")
    | [] => Err (ValueError "Can only convert single-step hypotheses to lambda")
    end.

(* ===================================================================== *)
(** ** Effects of the search loop: the clock, the trace, non-termination *)
(* ===================================================================== *)

(** Where [time.time()] is called: when the search starts, in the timeout
    check at the head of the [for] body, and when a solution is found. *)
Inductive call_site : Set := AtStart | AtCheck | AtFound.

(** Observable events of a run, kept in chronological order. Time stamps and
    timeouts, floats in the source, are exact rationals here. *)
Inductive event : Type :=
  | EvTime (site : call_site) (t : Q)
  | EvEvaluate (h : Hyp) (passed : bool)
  | EvCallback (depth tried : nat) (elapsed : Q).

(** [ticks] counts the calls of [time.time()] made so far. *)
Record world : Type := { ticks : nat; log : list event }.

Definition world0 : world := {| ticks := 0; log := [] |}.

(** A call returns, raises, or (for the unbounded [while]) is still running
    when the fuel of the model is spent. *)
Inductive outcome (A : Type) : Type :=
  | Returns (a : A)
  | Raises (e : exn)
  | OutOfFuel.
Arguments Returns {A} a.
Arguments Raises {A} e.
Arguments OutOfFuel {A}.

Definition M (A : Type) : Type := world -> outcome A * world.

Definition ret {A} (a : A) : M A := fun w => (Returns a, w).

Definition bind {A B} (m : M A) (k : A -> M B) : M B :=
  fun w =>
    match m w with
    | (Returns a, w') => k a w'
    | (Raises e, w') => (Raises e, w')
    | (OutOfFuel, w') => (OutOfFuel, w')
    end.

Definition out_of_fuel {A} : M A := fun w => (OutOfFuel, w).

Definition emit (e : event) : M unit :=
  fun w => (Returns tt, {| ticks := ticks w; log := log w ++ [e] |}).

Definition lift_result {A} (r : result A) : M A :=
  fun w => match r with Ok a => (Returns a, w) | Err e => (Raises e, w) end.

Declare Scope io_scope.
Delimit Scope io_scope with io.
Notation "x <- m ;; k" := (bind m (fun x => k))
  (at level 100, m at next level, right associativity) : io_scope.
Notation "m ;; k" := (bind m (fun _ => k))
  (at level 100, right associativity) : io_scope.

(** Truthiness of an [Optional[float]]: [None] and zero are false. *)
Definition truthy (timeout : option Q) : bool :=
  match timeout with
  | None => false
  | Some t => negb (Qeq_bool t 0)
  end.

(** [a > b] on time values. *)
Definition Qgtb (a b : Q) : bool := negb (Qle_bool a b).

(** [@dataclass class SearchResult] *)
Record SearchResult : Type := {
  hypothesis : Hyp;
  code : string;
  depth : nat;
  hypotheses_tried : nat;
  time_elapsed : Q
}.

(** How a [for] loop over one depth ends: by a [return] of the enclosing
    function, or by exhausting the generator, with the counters it leaves. *)
Inductive loop_exit (S : Type) : Type :=
  | Return_ (r : option SearchResult)
  | Exhausted (s : S).
Arguments Return_ {S} r.
Arguments Exhausted {S} s.

(* ===================================================================== *)
(** ** evaluator.py and search.py *)
(* ===================================================================== *)

Section Engine.
(** Runtime values of the host language, compared by [==] / [!=]. *)
Context {obj : Type} `{EqDecision obj}.

(** [func( *args )]: applying a runtime value to arguments; it fails when
    the value is not callable or when the callee raises. *)
Variable call : obj -> list obj -> result obj.

(** A module namespace: [getattr(module, name)]. *)
Definition namespace : Type := string -> option obj.

Definition getattr (m : namespace) (name : string) : result obj :=
  match m name with
  | Some v => Ok v
  | None => Err (AttributeError name)
  end.

(** [env[key]] *)
Definition env_lookup (env : gmap string obj) (key : string) : result obj :=
  match env !! key with
  | Some v => Ok v
  | None => Err (KeyError key)
  end.

(** [resolve_arg(arg, env, dsl_module, constants_module)] *)
Definition resolve_arg (arg : Argument) (env : gmap string obj)
    (dsl_module constants_module : namespace) : result obj :=
  match kind arg with
  | constant => getattr constants_module (value arg)
  | variable => env_lookup env (value arg)
  | input => env_lookup env "I"
  | primitive => getattr dsl_module (value arg)
  end.

(** One iteration of the loop of [execute_hypothesis]. *)
Definition execute_step (step : Step) (env : gmap string obj)
    (dsl_module constants_module : namespace) : result (gmap string obj) :=
  match step with
  | PrimitiveCall p arguments o =>
      (func <- getattr dsl_module p ;;
       args <- rmap (fun arg => resolve_arg arg env dsl_module constants_module)
                    arguments ;;
       res <- call func args ;;
       Ok (<[o := res]> env))%result
  | CallVariable c arguments o =>
      (func <- env_lookup env c ;;
       args <- rmap (fun arg => resolve_arg arg env dsl_module constants_module)
                    arguments ;;
       res <- call func args ;;
       Ok (<[o := res]> env))%result
  end.

Fixpoint execute_steps (l : list Step) (env : gmap string obj)
    (dsl_module constants_module : namespace) : result (gmap string obj) :=
  match l with
  | [] => Ok env
  | step :: l' =>
      (env' <- execute_step step env dsl_module constants_module ;;
       execute_steps l' env' dsl_module constants_module)%result
  end.

(** [execute_hypothesis(hypothesis, input_grid, dsl_module, constants_module)] *)
Definition execute_hypothesis (hypothesis : Hyp) (input_grid : obj)
    (dsl_module constants_module : namespace) : result obj :=
  (env <- execute_steps (steps hypothesis) {[ "I" := input_grid ]}
                        dsl_module constants_module ;;
   env_lookup env "O")%result.

(** [evaluate_hypothesis(hypothesis, examples, dsl_module, constants_module)].
    The body of the [try] yields [Some false] when it executes
    [return False] and [None] when it falls through to the next example. *)
Fixpoint evaluate_hypothesis (hypothesis : Hyp) (examples : list (obj * obj))
    (dsl_module constants_module : namespace) : result bool :=
  match examples with
  | [] => Ok true
  | (input_grid, expected_output) :: rest =>
      (returned <-
         try_except
           (output <- execute_hypothesis hypothesis input_grid
                                         dsl_module constants_module ;;
            if bool_decide (output <> expected_output)
            then Ok (Some false) else Ok None)
           (fun _ => Ok (Some false)) ;;
       match returned with
       | Some b => Ok b
       | None => evaluate_hypothesis hypothesis rest dsl_module constants_module
       end)%result
  end.

(** The result of catalog extraction ([extract_primitives], which reads
    the host language's signatures by reflection) is taken as given. *)
Variable extract_primitives : namespace -> Catalog.

(** [clock k] is what the [k]-th call of [time.time()] returns. *)
Variable clock : nat -> Q.

(** The room the recursion limit leaves the generators that a search
    consumes (see [generate_partials_at_depth]). *)
Variable frames : nat.

Definition time_time (site : call_site) : M Q :=
  fun w =>
    (Returns (clock (ticks w)),
     {| ticks := S (ticks w);
        log := log w ++ [EvTime site (clock (ticks w))] |}).

(** A call of [evaluate_hypothesis] from the search loop. *)
Definition evaluate_call (h : Hyp) (examples : list (obj * obj))
    (dsl_module constants_module : namespace) : M bool :=
  (passed <- lift_result (evaluate_hypothesis h examples dsl_module constants_module) ;;
   emit (EvEvaluate h passed) ;;
   ret passed)%io.

(** [timeout and (time.time() - start_time) > timeout]: the clock is read
    only when [timeout] is truthy. *)
Definition timeout_check (timeout : option Q) (start_time : Q) : M bool :=
  match timeout with
  | Some t =>
      if truthy timeout
      then (now <- time_time AtCheck ;; ret (Qgtb (now - start_time) t))%io
      else ret false
  | None => ret false
  end.

Section Search.
Variables (task_examples : list (obj * obj)) (task_id : string)
          (dsl_module constants_module : namespace).

(** The [callback] argument of [search_with_callback]: user code, called
    as [callback(depth, total_tried, elapsed)]; it returns (the value is
    dropped) or raises. *)
Variable callback : nat -> nat -> Q -> result unit.

Variables (max_depth : option Z) (timeout : option Q).

(** The [for hypothesis in generate_at_depth(depth, primitives)] loop of
    [search] ([verbose] printing and its counter left out). *)
Fixpoint search_depth (hs : list Hyp) (depth total_tried : nat)
    (start_time : Q) : M (loop_exit nat) :=
  match hs with
  | [] => ret (Exhausted total_tried)
  | h :: hs' =>
      (expired <- timeout_check timeout start_time ;;
       if expired then ret (Return_ None)
       else
         let total_tried := total_tried + 1 in
         passed <- evaluate_call h task_examples dsl_module constants_module ;;
         if passed then
           now <- time_time AtFound ;;
           let elapsed := (now - start_time)%Q in
           let code := hypothesis_to_code h task_id in
           ret (Return_ (Some {| hypothesis := h; code := code; depth := depth;
                                 hypotheses_tried := total_tried;
                                 time_elapsed := elapsed |}))
         else search_depth hs' depth total_tried start_time)%io
  end.

(** [max_depth is None or depth <= max_depth] *)
Definition within_depth (depth : nat) : bool :=
  match max_depth with
  | None => true
  | Some m => (Z.of_nat depth <=? m)%Z
  end.

(** The [while] loop of [search]; [fuel] bounds the number of depths the
    model follows it through. *)
Fixpoint search_while (fuel : nat) (primitives : Catalog)
    (depth total_tried : nat) (start_time : Q) : M (option SearchResult) :=
  if within_depth depth then
    match fuel with
    | 0 => out_of_fuel
    | S fuel' =>
        (hs <- lift_result (generate_at_depth frames depth primitives) ;;
         exit <- search_depth hs depth total_tried start_time ;;
         match exit with
         | Return_ r => ret r
         | Exhausted total_tried' =>
             search_while fuel' primitives (depth + 1) total_tried' start_time
         end)%io
    end
  else ret None.

(** [search(task_examples, task_id, dsl_module, constants_module,
    max_depth, timeout)] *)
Definition search (fuel : nat) : M (option SearchResult) :=
  let primitives := extract_primitives dsl_module in
  (start_time <- time_time AtStart ;;
   search_while fuel primitives 1 0 start_time)%io.

(** The [for] loop of [search_with_callback]; the counters it threads
    are [total_tried] and [last_callback]. A call of [callback] leaves the
    event [EvCallback] in the trace; an exception it raises is not caught
    and ends the loop and the search. *)
Fixpoint callback_depth (hs : list Hyp) (depth total_tried : nat)
    (start_time last_callback : Q) : M (loop_exit (nat * Q)) :=
  match hs with
  | [] => ret (Exhausted (total_tried, last_callback))
  | h :: hs' =>
      (current_time <- time_time AtCheck ;;
       if truthy timeout
          && match timeout with
             | Some t => Qgtb (current_time - start_time) t
             | None => false
             end
       then ret (Return_ None)
       else
         last_callback <-
           (if Qgtb (current_time - last_callback) (1 # 2)
            then emit (EvCallback depth total_tried (current_time - start_time)) ;;
                 lift_result (callback depth total_tried
                                       (current_time - start_time)) ;;
                 ret current_time
            else ret last_callback) ;;
         let total_tried := total_tried + 1 in
         passed <- evaluate_call h task_examples dsl_module constants_module ;;
         if passed then
           let elapsed := (current_time - start_time)%Q in
           let code := hypothesis_to_code h task_id in
           ret (Return_ (Some {| hypothesis := h; code := code; depth := depth;
                                 hypotheses_tried := total_tried;
                                 time_elapsed := elapsed |}))
         else callback_depth hs' depth total_tried start_time last_callback)%io
  end.

Fixpoint callback_while (fuel : nat) (primitives : Catalog)
    (depth total_tried : nat) (start_time last_callback : Q)
  : M (option SearchResult) :=
  if within_depth depth then
    match fuel with
    | 0 => out_of_fuel
    | S fuel' =>
        (hs <- lift_result (generate_at_depth frames depth primitives) ;;
         exit <- callback_depth hs depth total_tried start_time last_callback ;;
         match exit with
         | Return_ r => ret r
         | Exhausted (total_tried', last_callback') =>
             callback_while fuel' primitives (depth + 1) total_tried'
                            start_time last_callback'
         end)%io
    end
  else ret None.

(** [search_with_callback(task_examples, task_id, dsl_module,
    constants_module, callback, max_depth, timeout)] *)
Definition search_with_callback (fuel : nat) : M (option SearchResult) :=
  let primitives := extract_primitives dsl_module in
  (start_time <- time_time AtStart ;;
   let last_callback := start_time in
   callback_while fuel primitives 1 0 start_time last_callback)%io.
End Search.
End Engine.

(* ===================================================================== *)
(** ** Further functions of the package *)
(* ===================================================================== *)

(** The values [auto()] gives the members of [BaseType]; they make the
    base types countable, as finite sets of them require. *)
Definition BaseType_to_nat (b : BaseType) : nat :=
  match b with
  | BOOLEAN => 1 | INTEGER => 2 | INTEGER_TUPLE => 3 | GRID => 4 | CELL => 5
  | OBJECT => 6 | OBJECTS => 7 | INDICES => 8 | INDICES_SET => 9
  | INTEGER_SET => 10 | TUPLE => 11 | TUPLE_TUPLE => 12 | CONTAINER => 13
  | CONTAINER_CONTAINER => 14 | FROZENSET => 15 | ANY => 16
  end.

Definition BaseType_of_nat (n : nat) : BaseType :=
  match n with
  | 1 => BOOLEAN | 2 => INTEGER | 3 => INTEGER_TUPLE | 4 => GRID | 5 => CELL
  | 6 => OBJECT | 7 => OBJECTS | 8 => INDICES | 9 => INDICES_SET
  | 10 => INTEGER_SET | 11 => TUPLE | 12 => TUPLE_TUPLE | 13 => CONTAINER
  | 14 => CONTAINER_CONTAINER | 15 => FROZENSET | _ => ANY
  end.

#[global] Instance BaseType_countable : Countable BaseType.
Proof.
  apply (inj_countable' BaseType_to_nat BaseType_of_nat). intros []; reflexivity.
Defined.

(** A [FrozenSet[BaseType]]. *)
Definition frozenset (l : list BaseType) : gset BaseType := list_to_set l.

(** [get_type_union(types)] (types.py): [None] on the empty set, the member
    of a singleton, and otherwise the representative of the first known
    union that contains the set. *)
Definition get_type_union (types : gset BaseType) : option BaseType :=
  match elements types with
  | [] => None
  | [x] => Some x
  | _ =>
      if bool_decide (types ⊆ frozenset NUMERICAL) then Some INTEGER_TUPLE
      else if bool_decide (types ⊆ frozenset PATCH) then Some OBJECT
      else if bool_decide (types ⊆ frozenset ELEMENT) then Some GRID
      else if bool_decide (types ⊆ frozenset PIECE) then Some GRID
      else if bool_decide (types ⊆ frozenset CONTAINER_TYPES) then Some CONTAINER
      else Some ANY
  end.

Section EngineMore.
Context {obj : Type} `{EqDecision obj}.
Variable call : obj -> list obj -> result obj.
Variable extract_primitives : (string -> option obj) -> Catalog.
Variable clock : nat -> Q.
Variable frames : nat.

(** [evaluate_hypothesis_partial(hypothesis, examples, dsl_module,
    constants_module)] (evaluator.py); [count_correct] is the loop that
    accumulates [correct]. *)
Fixpoint count_correct (hypothesis : Hyp) (examples : list (obj * obj))
    (dsl_module constants_module : string -> option obj) (correct : nat)
  : result nat :=
  match examples with
  | [] => Ok correct
  | (input_grid, expected_output) :: rest =>
      (correct' <-
         try_except
           (output <- execute_hypothesis call hypothesis input_grid
                                         dsl_module constants_module ;;
            if bool_decide (output = expected_output)
            then Ok (correct + 1) else Ok correct)
           (fun _ => Ok correct) ;;
       count_correct hypothesis rest dsl_module constants_module correct')%result
  end.

Definition evaluate_hypothesis_partial (hypothesis : Hyp)
    (examples : list (obj * obj))
    (dsl_module constants_module : string -> option obj) : result (nat * nat) :=
  (correct <- count_correct hypothesis examples dsl_module constants_module 0 ;;
   Ok (correct, length examples))%result.

Section Enumerate.
Variables (task_examples : list (obj * obj)) (task_id : string)
          (dsl_module constants_module : string -> option obj)
          (max_depth max_solutions : Z).

(** The inner [for] loop of [enumerate_solutions] (search.py). It gives the
    results yielded, in order, and the counters [(solutions_found,
    total_tried)] it leaves, or [None] when the generator has executed
    [return]. *)
Fixpoint enumerate_depth (hs : list Hyp) (depth solutions_found total_tried : nat)
    (start_time : Q) : M (list SearchResult * option (nat * nat)) :=
  match hs with
  | [] => ret ([], Some (solutions_found, total_tried))
  | h :: hs' =>
      (let total_tried := total_tried + 1 in
       passed <- evaluate_call call h task_examples dsl_module constants_module ;;
       if passed then
         now <- time_time clock AtFound ;;
         let elapsed := (now - start_time)%Q in
         let code := hypothesis_to_code h task_id in
         let yielded :=
           {| hypothesis := h; code := code; depth := depth;
              hypotheses_tried := total_tried; time_elapsed := elapsed |} in
         let solutions_found := solutions_found + 1 in
         if (max_solutions <=? Z.of_nat solutions_found)%Z
         then ret ([yielded], None)
         else
           more <- enumerate_depth hs' depth solutions_found total_tried start_time ;;
           ret (yielded :: fst more, snd more)
       else enumerate_depth hs' depth solutions_found total_tried start_time)%io
  end.

(** The outer loop, over [range(1, max_depth + 1)]. *)
Fixpoint enumerate_depths (depths : list nat) (primitives : Catalog)
    (solutions_found total_tried : nat) (start_time : Q) : M (list SearchResult) :=
  match depths with
  | [] => ret []
  | depth :: rest =>
      (hs <- lift_result (generate_at_depth frames depth primitives) ;;
       here <- enumerate_depth hs depth solutions_found total_tried start_time ;;
       match snd here with
       | None => ret (fst here)
       | Some (solutions_found', total_tried') =>
           later <- enumerate_depths rest primitives solutions_found' total_tried'
                                     start_time ;;
           ret (fst here ++ later)
       end)%io
  end.

(** [enumerate_solutions(task_examples, task_id, dsl_module,
    constants_module, max_depth, max_solutions)]: everything the generator
    yields to a consumer that exhausts it. *)
Definition enumerate_solutions : M (list SearchResult) :=
  let primitives := extract_primitives dsl_module in
  (start_time <- time_time clock AtStart ;;
   enumerate_depths (seq 1 (Z.to_nat max_depth)) primitives 0 0 start_time)%io.
End Enumerate.
End EngineMore.

(* ===================================================================== *)
(** ** A small primitive library, for concrete runs *)
(* ===================================================================== *)

Module Demo.
(** Runtime values: grids, integers and the library's functions by name. *)
Inductive obj : Type :=
  | Grid (g : list (list Z))
  | Int (z : Z)
  | Func (name : string).

#[global] Instance obj_eq_dec : EqDecision obj.
Proof. solve_decision. Defined.

(** [hmirror] reverses the rows, [vmirror] reverses every row, [vconcat]
    stacks two grids, [blank] ignores its argument. *)
Definition call (f : obj) (args : list obj) : result obj :=
  match f, args with
  | Func n, [Grid g] =>
      if String.eqb n "hmirror" then Ok (Grid (rev g))
      else if String.eqb n "vmirror" then Ok (Grid (map (@rev Z) g))
      else if String.eqb n "blank" then Ok (Grid [])
      else Err (CallError n)
  | Func n, [Grid a; Grid b] =>
      if String.eqb n "vconcat" then Ok (Grid (a ++ b)) else Err (CallError n)
  | Func n, _ => Err (CallError n)
  | _, _ => Err (TypeError "object is not callable")
  end.

Definition dsl_module : string -> option obj :=
  fun n => if str_in n ["blank"; "hmirror"; "vconcat"; "vmirror"]
           then Some (Func n) else None.

Definition constants_module : string -> option obj :=
  fun n => if String.eqb n "ZERO" then Some (Int 0)
           else if String.eqb n "TWO" then Some (Int 2)
           else None.

Definition grid_to_grid (n : string) : string * PrimitiveInfo :=
  (n, {| name := n; param_names := ["piece"]; param_types := [Base GRID];
         return_type := Base GRID; is_higher_order := false;
         returns_callable := false |}).

Definition vconcat_info : string * PrimitiveInfo :=
  ("vconcat",
   {| name := "vconcat"; param_names := ["a"; "b"];
      param_types := [Base GRID; Base GRID]; return_type := Base GRID;
      is_higher_order := false; returns_callable := false |}).

(** Catalogs in the name order in which extraction lists the members. *)
Definition mirrors : Catalog := [grid_to_grid "hmirror"; grid_to_grid "vmirror"].
Definition library : Catalog :=
  [grid_to_grid "hmirror"; vconcat_info; grid_to_grid "vmirror"].

Definition extract_mirrors (_ : string -> option obj) : Catalog := mirrors.
Definition extract_library (_ : string -> option obj) : Catalog := library.

Definition I_arg : Argument := {| kind := input; value := "I" |}.
Definition hmirror_I : Hyp := {| steps := [PrimitiveCall "hmirror" [I_arg] "O"] |}.
Definition vmirror_I : Hyp := {| steps := [PrimitiveCall "vmirror" [I_arg] "O"] |}.

(** The example of scenario A: [vmirror] solves it, [hmirror] does not. *)
Definition mirror_example : list (obj * obj) :=
  [ (Grid [[1; 2; 3]; [4; 5; 6]]%Z, Grid [[3; 2; 1]; [6; 5; 4]]%Z) ].

(** The example of scenario B, solved by [x1 = hmirror(I); O = vconcat(x1, I)]. *)
Definition stack_example : list (obj * obj) :=
  [ (Grid [[1; 2]; [3; 4]]%Z, Grid [[3; 4]; [1; 2]; [1; 2]; [3; 4]]%Z) ].

(** Clocks: one second per call, and a jump to 5 s at the third call. *)
Definition steady_clock (k : nat) : Q := inject_Z (Z.of_nat k).
Definition jumping_clock (k : nat) : Q :=
  match k with 0 => 0 | 1 => 1 | _ => 5 end.

(** Room for 990 nested generators, about what the default recursion
    limit of 1000 leaves a search called from a script. *)
Definition frames : nat := 990.

(** A callback that does nothing, and one that fails. *)
Definition silent (_ _ : nat) (_ : Q) : result unit := Ok tt.
Definition failing (_ _ : nat) (_ : Q) : result unit :=
  Err (CallError "callback").
End Demo.
(* ===================================================================== *)
(** ** Vocabulary of the statements *)
(* ===================================================================== *)

(** The names ["x1"; ...; "xn"]. *)
Definition var_names (n : nat) : list string :=
  map (fun i => "x" +:+ str_of_nat i) (seq 1 n).

(** The declared return type of the primitive a step calls is
    grid-compatible. *)
Definition returns_grid (primitives : Catalog) (s : Step) : Prop :=
  exists p info binding,
    s = PrimitiveCall p binding "O" /\ In (p, info) primitives /\
    is_type_compatible (return_type info) (Base GRID) = true.

(** A hypothesis solves the examples: [evaluate_hypothesis] returns [True]. *)
Definition passes {obj : Type} `{EqDecision obj}
    (call : obj -> list obj -> result obj) (examples : list (obj * obj))
    (dsl_module constants_module : string -> option obj) (h : Hyp) : bool :=
  match evaluate_hypothesis call h examples dsl_module constants_module with
  | Ok b => b
  | Err _ => false
  end.

(** How the part of a trace that follows the start of a search ends: more
    iterations may follow, the timeout check fired, or a solution was
    returned. *)
Inductive ending : Set := Open | Expired | Found.

(** Traces in which every evaluation comes right after a timeout check
    that did not fire, and nothing follows a check that fired. *)
Inductive checked (start_time t : Q) : list event -> ending -> Prop :=
  | checked_nil : checked start_time t [] Open
  | checked_expired now :
      Qgtb (now - start_time) t = true ->
      checked start_time t [EvTime AtCheck now] Expired
  | checked_failed now h evs e :
      Qgtb (now - start_time) t = false ->
      checked start_time t evs e ->
      checked start_time t (EvTime AtCheck now :: EvEvaluate h false :: evs) e
  | checked_found now h fin :
      Qgtb (now - start_time) t = false ->
      checked start_time t
        [EvTime AtCheck now; EvEvaluate h true; EvTime AtFound fin] Found.

(** The state of the world after the steps of one loop iteration. *)
Definition expired (clock : nat -> Q) (timeout : option Q) (start_time : Q)
    (w : world) : bool :=
  match timeout with
  | Some t => truthy timeout && Qgtb (clock (ticks w) - start_time) t
  | None => false
  end.

Definition after_check (clock : nat -> Q) (timeout : option Q) (w : world) : world :=
  if truthy timeout
  then {| ticks := S (ticks w); log := log w ++ [EvTime AtCheck (clock (ticks w))] |}
  else w.

Definition after_evaluate (h : Hyp) (passed : bool) (w : world) : world :=
  {| ticks := ticks w; log := log w ++ [EvEvaluate h passed] |}.

Definition after_found (clock : nat -> Q) (w : world) : world :=
  {| ticks := S (ticks w); log := log w ++ [EvTime AtFound (clock (ticks w))] |}.

(** An argument refers only to what exists where it stands: the input, a
    constant of the registry, a variable bound by an earlier step, or a
    primitive of the catalog. *)
Definition arg_in_scope (primitives : Catalog) (bound : list string)
    (a : Argument) : Prop :=
  match kind a with
  | input => True
  | constant => In (value a) (map fst CONSTANTS)
  | variable => In (value a) bound
  | primitive => In (value a) (map fst primitives)
  end.

Definition step_in_scope (primitives : Catalog) (bound : list string)
    (s : Step) : Prop :=
  match s with
  | PrimitiveCall p args _ =>
      In p (map fst primitives) /\ Forall (arg_in_scope primitives bound) args
  | CallVariable c args _ =>
      In c bound /\ Forall (arg_in_scope primitives bound) args
  end.

(** Every step is in scope of the variables bound by the steps before it. *)
Fixpoint well_scoped (primitives : Catalog) (bound : list string)
    (l : list Step) : Prop :=
  match l with
  | [] => True
  | s :: l' =>
      step_in_scope primitives bound s /\
      well_scoped primitives (bound ++ [output_var s]) l'
  end.

(** The last step is bound to ["O"] and its declared result type is
    grid-compatible: the return type of the primitive it calls, or the
    output type of the function-typed variable it calls. *)
Definition grid_final (primitives : Catalog) (h : Hyp) : Prop :=
  exists pre s,
    steps h = pre ++ [s] /\ output_var s = "O" /\
    match s with
    | PrimitiveCall p _ _ =>
        exists info, In (p, info) primitives /\
                     is_type_compatible (return_type info) (Base GRID) = true
    | CallVariable c _ _ =>
        exists ins out,
          env_get (build_type_env {| steps := pre |} primitives) c
          = Some (CallableType ins out) /\
          is_type_compatible out (Base GRID) = true
    end.

(** A step that cannot be resolved against the library and the constants:
    it calls a primitive the library lacks, or one of its arguments names a
    constant or a primitive that does not exist. *)
Definition unresolvable {obj : Type} (dsl_module constants_module : string -> option obj)
    (s : Step) : Prop :=
  (exists p args o, s = PrimitiveCall p args o /\ dsl_module p = None) \/
  (exists a, In a (arguments s) /\
             ((kind a = constant /\ constants_module (value a) = None) \/
              (kind a = primitive /\ dsl_module (value a) = None))).

(** The hypotheses a trace shows as evaluated, in order. *)
Definition evaluated (evs : list event) : list Hyp :=
  flat_map (fun e => match e with EvEvaluate h _ => [h] | _ => [] end) evs.

(** A result without its time stamp, and an outcome of a search seen that
    way. *)
Definition untimed_result (r : SearchResult) : Hyp * string * nat * nat :=
  (hypothesis r, code r, depth r, hypotheses_tried r).

Definition untimed (out : outcome (option SearchResult))
  : outcome (option (Hyp * string * nat * nat)) :=
  match out with
  | Returns r => Returns (option_map untimed_result r)
  | Raises e => Raises e
  | OutOfFuel => OutOfFuel
  end.

(** How many results [enumerate_solutions] still yields, if that many
    solutions exist, when [found] have been yielded. *)
Definition quota (max_solutions : Z) (found : nat) : nat :=
  Z.to_nat (Z.max 1 (max_solutions - Z.of_nat found)).

(** Callbacks in a trace: each reports the number of evaluations made
    before it, and an elapsed time more than half a second above the one
    reported by the previous callback ([last_elapsed]). *)
Fixpoint callbacks_ok (tried : nat) (last_elapsed : Q) (evs : list event) : Prop :=
  match evs with
  | [] => True
  | EvCallback _ n elapsed :: evs' =>
      n = tried /\ (last_elapsed + (1 # 2) < elapsed)%Q /\
      callbacks_ok tried elapsed evs'
  | EvEvaluate _ _ :: evs' => callbacks_ok (S tried) last_elapsed evs'
  | EvTime _ _ :: evs' => callbacks_ok tried last_elapsed evs'
  end.

(** An argument is type-valid for a parameter type: what it denotes has a
    declared type compatible with the parameter type. *)
Definition arg_typed (primitives : Catalog) (env : TypeEnv) (param_type : Ty)
    (a : Argument) : Prop :=
  match kind a with
  | input => is_type_compatible (Base GRID) param_type = true
  | constant =>
      exists t, In (value a, t) CONSTANTS /\ is_type_compatible t param_type = true
  | variable =>
      exists t, In (value a, t) (variables env) /\
                is_type_compatible t param_type = true
  | primitive =>
      exists info,
        In (value a, info) primitives /\
        is_type_compatible (CallableType (param_types info) (return_type info))
                           param_type = true
  end.

(** A step is type-valid in an environment: it calls a catalog primitive,
    or a variable holding a function type, with one type-valid argument per
    parameter. *)
Definition step_typed (primitives : Catalog) (env : TypeEnv) (s : Step) : Prop :=
  match s with
  | PrimitiveCall p args _ =>
      exists info,
        In (p, info) primitives /\
        Forall2 (fun a ty => arg_typed primitives env ty a) args (param_types info)
  | CallVariable c args _ =>
      exists ins out,
        env_get env c = Some (CallableType ins out) /\
        Forall2 (fun a ty => arg_typed primitives env ty a) args ins
  end.

(** Every step is type-valid in the environment derived from the steps
    before it. *)
Definition type_valid (primitives : Catalog) (l : list Step) : Prop :=
  forall pre s post,
    l = pre ++ s :: post ->
    step_typed primitives (build_type_env {| steps := pre |} primitives) s.

(* ===================================================================== *)
(** ** Facts about the type system *)
(* ===================================================================== *)

Lemma ty_eqb_callable i1 o1 i2 o2 :
  ty_eqb (CallableType i1 o1) (CallableType i2 o2) = tys_eqb i1 i2 && ty_eqb o1 o2.
Proof. reflexivity. Qed.

Lemma tys_eqb_length l1 : forall l2, tys_eqb l1 l2 = true -> length l1 = length l2.
Proof.
  induction l1 as [|x xs IH]; intros [|y ys] H; simpl in H; try discriminate; auto.
  apply andb_true_iff in H as [_ H]. simpl. f_equal. now apply IH.
Qed.

(** [ty_eqb] decides structural equality of types. *)
Lemma ty_eqb_eq a : forall b, ty_eqb a b = true <-> a = b.
Proof.
  induction a as [x | ins out IHins IHout] using Ty_ind'; intros [y | ins' out'].
  - simpl. rewrite bool_decide_eq_true. split; congruence.
  - simpl. split; [discriminate | congruence].
  - simpl. split; [discriminate | congruence].
  - rewrite ty_eqb_callable, andb_true_iff, IHout.
    assert (Hl : tys_eqb ins ins' = true <-> ins = ins').
    { clear IHout. revert ins'.
      induction IHins as [|x xs Hx _ IH]; intros [|y ys]; simpl;
        try (split; [discriminate | congruence]); [tauto |].
      rewrite andb_true_iff, Hx, IH. split; [intros [-> ->]; reflexivity | ].
      intros E; injection E; auto. }
    rewrite Hl. split; [intros [-> ->]; reflexivity | intros E; injection E; auto].
Qed.

Lemma ty_eqb_refl a : ty_eqb a a = true.
Proof. now apply ty_eqb_eq. Qed.

Lemma ty_eqb_callable_base ins out b : ty_eqb (CallableType ins out) (Base b) = false.
Proof. reflexivity. Qed.

Lemma ty_eqb_base_callable ins out b : ty_eqb (Base b) (CallableType ins out) = false.
Proof. reflexivity. Qed.

(** Rule 8 of the predicate: on two function types only arities count. *)
Lemma compatible_callable_callable ai ao pi po :
  is_type_compatible (CallableType ai ao) (CallableType pi po)
  = Nat.eqb (length pi) (length ai).
Proof.
  unfold is_type_compatible.
  rewrite !ty_eqb_callable_base. cbn [andb in_base_set is_callable].
  destruct (ty_eqb (CallableType ai ao) (CallableType pi po)) eqn:E; [|reflexivity].
  rewrite ty_eqb_callable in E. apply andb_true_iff in E as [E _].
  apply tys_eqb_length in E. symmetry. apply Nat.eqb_eq. congruence.
Qed.

(** Rule 9: a function-typed parameter rejects every base-typed argument
    other than the wildcard. *)
Lemma compatible_base_callable b pi po :
  b <> ANY -> is_type_compatible (Base b) (CallableType pi po) = false.
Proof.
  intros Hb. unfold is_type_compatible.
  rewrite !ty_eqb_callable_base, ty_eqb_base_callable.
  cbn [andb in_base_set is_callable].
  destruct (ty_eqb (Base b) (Base ANY)) eqn:E; [|reflexivity].
  apply ty_eqb_eq in E. congruence.
Qed.

(** C7. For every type [t], base or function type, the wildcard [ANY] is
    compatible with [t] on either side of the predicate:
    [is_type_compatible(ANY, t)] and [is_type_compatible(t, ANY)] hold. *)
Theorem wildcard_compatible_both_sides (t : Ty) :
  is_type_compatible (Base ANY) t = true /\ is_type_compatible t (Base ANY) = true.
Proof.
  split.
  - unfold is_type_compatible.
    destruct (ty_eqb t (Base ANY)); [reflexivity|].
    now rewrite ty_eqb_refl.
  - unfold is_type_compatible. now rewrite ty_eqb_refl.
Qed.

(** Counterexample to C6 read without exception for the wildcard: a
    function-typed parameter accepts one argument type that is not a
    function type, [ANY]. *)
Lemma callable_param_accepts_wildcard :
  is_callable (CallableType [Base ANY] (Base ANY)) = true /\
  is_callable (Base ANY) = false /\
  is_type_compatible (Base ANY) (CallableType [Base ANY] (Base ANY)) = true.
Proof. repeat split. Qed.

(** C6 (amended). For every pair of function types the predicate holds
    iff their input-type lists have equal length, whatever the element
    types; and whenever the parameter type is a function type and the
    argument type is a base type other than the wildcard, the two types are
    incompatible. *)
Theorem callable_compatibility_arity_only :
  (forall ai ao pi po,
      is_type_compatible (CallableType ai ao) (CallableType pi po) = true
      <-> length ai = length pi) /\
  (forall b pi po,
      b <> ANY -> is_type_compatible (Base b) (CallableType pi po) = false).
Proof.
  split.
  - intros. rewrite compatible_callable_callable, Nat.eqb_eq. split; congruence.
  - apply compatible_base_callable.
Qed.

(* ===================================================================== *)
(** ** Facts about binding enumeration *)
(* ===================================================================== *)

Section Product.
Context {A : Type}.

(** Membership in the product: one element of every pool, in order. *)
Lemma in_product (pools : list (list A)) :
  forall b, In b (product pools) <-> Forall2 (fun x pool => In x pool) b pools.
Proof.
  induction pools as [|pool rest IH]; intros b; simpl.
  - split.
    + intros [<- | []]. constructor.
    + intros Hb. inversion Hb. now left.
  - rewrite in_flat_map. split.
    + intros (x & Hx & Hb). apply in_map_iff in Hb as (tl & <- & Htl).
      constructor; [exact Hx | now apply IH].
    + intros Hb. inversion Hb as [|x pool' tl rest' Hx Htl]; subst.
      exists x. split; [exact Hx|]. apply in_map_iff. exists tl.
      split; [reflexivity | now apply IH].
Qed.

(** Its size is the product of the sizes of the pools. *)
Lemma length_product (pools : list (list A)) :
  length (product pools) = fold_right Nat.mul 1 (map (@length A) pools).
Proof.
  induction pools as [|pool rest IH]; simpl; [reflexivity|].
  rewrite <- IH. clear IH.
  induction pool as [|x xs IHx]; simpl; [reflexivity|].
  rewrite length_app, length_map, IHx. reflexivity.
Qed.

Lemma product_empty_pool (pools : list (list A)) :
  In [] pools -> product pools = [].
Proof.
  induction pools as [|pool rest IH]; simpl; [tauto|].
  intros [-> | Hin]; [reflexivity|].
  rewrite (IH Hin). simpl. induction pool; simpl; auto.
Qed.
End Product.

Lemma collect_options_none f tys :
  In [] (map f tys) -> collect_options f tys = None.
Proof.
  induction tys as [|t ts IH]; simpl; [tauto|].
  intros [E | Hin].
  - now rewrite E.
  - destruct (f t); [reflexivity|]. now rewrite (IH Hin).
Qed.

Lemma collect_options_some f tys :
  ~ In [] (map f tys) -> collect_options f tys = Some (map f tys).
Proof.
  induction tys as [|t ts IH]; simpl; [reflexivity|].
  intros Hn. destruct (f t) eqn:E; [tauto|].
  rewrite IH; [reflexivity | tauto].
Qed.

(** C5. For every primitive and type environment, [enumerate_bindings]
    yields exactly one empty argument tuple when the primitive has no
    parameter; yields nothing when some parameter position has no compatible
    candidate; and otherwise yields the full cartesian product of the
    per-position candidate lists: one candidate per position in every
    binding, every such choice present, as many bindings as the product of
    the list sizes. *)
Theorem enumerate_bindings_cases prim_info env primitives :
  let options :=
    map (binding_options prim_info env primitives) (param_types prim_info) in
  let bindings := enumerate_bindings prim_info env primitives in
  (param_types prim_info = [] -> bindings = [[]]) /\
  (In [] options -> bindings = []) /\
  (param_types prim_info <> [] -> ~ In [] options ->
     bindings = product options /\
     (forall b, In b bindings <-> Forall2 (fun x pool => In x pool) b options) /\
     length bindings = fold_right Nat.mul 1 (map (@length Argument) options)).
Proof.
  cbv zeta. unfold enumerate_bindings. repeat split.
  - intros ->. reflexivity.
  - intros Hin. destruct (param_types prim_info) eqn:E; [destruct Hin|].
    cbn [length Nat.eqb]. now rewrite collect_options_none.
  - destruct (param_types prim_info) eqn:E; [congruence|].
    cbn [length Nat.eqb]. now rewrite collect_options_some.
  - destruct (param_types prim_info) eqn:E; [congruence|].
    cbn [length Nat.eqb]. rewrite collect_options_some by assumption.
    apply in_product.
  - destruct (param_types prim_info) eqn:E; [congruence|].
    cbn [length Nat.eqb]. rewrite collect_options_some by assumption.
    apply in_product.
  - destruct (param_types prim_info) eqn:E; [congruence|].
    cbn [length Nat.eqb]. rewrite collect_options_some by assumption.
    apply length_product.
Qed.

(* ===================================================================== *)
(** ** Facts about the lambda renderer *)
(* ===================================================================== *)

(** C8. [hypothesis_to_lambda] succeeds exactly on the hypotheses made of a
    single [PrimitiveCall] step, for which it produces the one-expression
    text [lambda I: p(args)]; on every hypothesis with a number of steps other
    than one, and on a single [CallVariable] step, it raises [ValueError]
    instead of producing output. *)
Theorem hypothesis_to_lambda_domain (h : Hyp) :
  ((exists text, hypothesis_to_lambda h = Ok text)
   <-> (exists p args o, steps h = [PrimitiveCall p args o])) /\
  (forall p args o,
      steps h = [PrimitiveCall p args o] ->
      hypothesis_to_lambda h
      = Ok ("lambda I: " +:+ p +:+ "(" +:+ format_args args +:+ ")")) /\
  (length (steps h) <> 1 -> exists msg, hypothesis_to_lambda h = Err (ValueError msg)) /\
  (forall c args o,
      steps h = [CallVariable c args o] ->
      exists msg, hypothesis_to_lambda h = Err (ValueError msg)).
Proof.
  unfold hypothesis_to_lambda. destruct h as [[|[p a o|c a o] [|s2 rest]]]; simpl.
  all: repeat split; try congruence; try lia; try discriminate.
  all: try (intros [text Ht]; discriminate Ht).
  all: try (intros (p' & a' & o' & E); discriminate E).
  all: try (intros; eexists; reflexivity).
  intros _. now exists p, a, o.
Qed.

(* ===================================================================== *)
(** ** Facts about the generator *)
(* ===================================================================== *)

Lemma str_of_nat_inj n m : str_of_nat n = str_of_nat m -> n = m.
Proof.
  unfold str_of_nat. intros E.
  apply (f_equal NilEmpty.uint_of_string) in E.
  rewrite !NilEmpty.usu in E. injection E as E.
  now apply Unsigned.to_uint_inj.
Qed.

Lemma var_names_S n : var_names (S n) = var_names n ++ ["x" +:+ str_of_nat (S n)].
Proof. unfold var_names. now rewrite seq_S, map_app. Qed.

Lemma length_var_names n : length (var_names n) = n.
Proof. unfold var_names. now rewrite length_map, length_seq. Qed.

Lemma NoDup_var_names n : List.NoDup (var_names n ++ ["O"]).
Proof.
  apply Stdlib.Lists.List.NoDup_app.
  - unfold var_names. apply NoDup_map_NoDup_ForallPairs; [|apply seq_NoDup].
    intros i j _ _ E. injection E as E. now apply str_of_nat_inj.
  - repeat constructor. intros [].
  - intros x Hx [E | []]. subst x. unfold var_names in Hx.
    apply in_map_iff in Hx as (i & E & _). discriminate E.
Qed.

(** A step appended by [extend_hypothesis] is bound to the chosen name. *)
Lemma extend_hypothesis_shape partial primitives is_final h :
  In h (extend_hypothesis partial primitives is_final) ->
  exists step,
    steps h = steps partial ++ [step] /\
    output_var step = if is_final then "O" else next_var_name partial.
Proof.
  unfold extend_hypothesis. intros Hin. apply in_app_or in Hin as [Hin | Hin].
  - apply in_flat_map in Hin as ([p info] & _ & Hin).
    destruct (is_final && negb _); [destruct Hin|].
    apply in_map_iff in Hin as (binding & <- & _). eexists. split; reflexivity.
  - apply in_flat_map in Hin as (v & _ & Hin).
    destruct (env_get _ v) as [[b | ins out]|]; try destruct Hin.
    destruct (is_final && negb _); [destruct Hin|].
    apply in_map_iff in Hin as (binding & <- & _). eexists. split; reflexivity.
Qed.

Lemma flat_map_flat_map {A B C} (f : B -> list C) (g : A -> list B) l :
  flat_map f (flat_map g l) = flat_map (fun x => flat_map f (g x)) l.
Proof.
  induction l as [|x l IH]; simpl; [reflexivity|].
  now rewrite flat_map_app, IH.
Qed.

Lemma flat_map_map {A B C} (f : B -> list C) (g : A -> B) l :
  flat_map f (map g l) = flat_map (fun x => f (g x)) l.
Proof. induction l as [|x l IH]; simpl; [reflexivity | now rewrite IH]. Qed.

(** The recursion of [generate_partials_at_depth], one level at a time. *)
Lemma generate_partials_one frames primitives :
  generate_partials_at_depth frames 1 primitives
  = Ok (flat_map
          (fun p => map (fun binding =>
                           {| steps := [PrimitiveCall (fst p) binding "x1"] |})
                        (enumerate_bindings (snd p) TypeEnv_new primitives))
          primitives).
Proof. destruct frames; reflexivity. Qed.

Lemma generate_partials_step frames d primitives :
  generate_partials_at_depth (S frames) (S (S d)) primitives
  = (partials <- generate_partials_at_depth frames (S d) primitives ;;
     Ok (flat_map (fun partial => extend_hypothesis partial primitives false)
                  partials))%result.
Proof. reflexivity. Qed.

(** From depth 0 the descent never reaches depth 1. *)
Lemma generate_partials_zero frames primitives :
  generate_partials_at_depth frames 0 primitives = Err RecursionError.
Proof.
  induction frames as [|frames IH]; [reflexivity|].
  cbn [generate_partials_at_depth Nat.eqb Nat.sub]. now rewrite IH.
Qed.

(** The partial hypotheses of a depth are generated exactly when the
    depth is positive and the descent to depth 1 fits in the room. *)
Lemma generate_partials_defined frames :
  forall depth primitives,
    (exists hs, generate_partials_at_depth frames depth primitives = Ok hs)
    <-> 1 <= depth <= frames + 1.
Proof.
  induction frames as [|frames IH]; intros [|[|d]] primitives.
  - split; [intros [hs Hgen]; discriminate Hgen | lia].
  - split; [lia | intros _; eexists; reflexivity].
  - split; [intros [hs Hgen]; discriminate Hgen | lia].
  - rewrite generate_partials_zero. split; [intros [hs Hgen]; discriminate Hgen | lia].
  - split; [lia | intros _; eexists; reflexivity].
  - rewrite generate_partials_step. split.
    + intros [hs Hgen].
      destruct (generate_partials_at_depth frames (S d) primitives) as [partials|] eqn:E;
        [|discriminate Hgen].
      assert (1 <= S d <= frames + 1) by (apply (proj1 (IH (S d) primitives)); eauto).
      lia.
    + intros Hd. destruct (proj2 (IH (S d) primitives)) as [partials ->]; [lia|].
      eexists. reflexivity.
Qed.

(** Induction over the partial hypotheses the generator yields: those of
    depth 1 are single calls bound to ["x1"], those of a larger depth extend
    a partial hypothesis one step shorter. *)
Lemma generate_partials_induction primitives (P : nat -> Hyp -> Prop) :
  (forall p info binding,
      In (p, info) primitives ->
      In binding (enumerate_bindings info TypeEnv_new primitives) ->
      P 1 {| steps := [PrimitiveCall p binding "x1"] |}) ->
  (forall d partial h,
      P (S d) partial ->
      In h (extend_hypothesis partial primitives false) ->
      P (S (S d)) h) ->
  forall frames depth hs h,
    generate_partials_at_depth frames depth primitives = Ok hs -> In h hs ->
    P depth h.
Proof.
  intros Hone Hstep.
  assert (Hbase : forall frames hs h,
             generate_partials_at_depth frames 1 primitives = Ok hs -> In h hs ->
             P 1 h).
  { intros frames hs h Hgen Hin. rewrite generate_partials_one in Hgen.
    injection Hgen as <-. apply in_flat_map in Hin as ([p info] & Hp & Hin).
    apply in_map_iff in Hin as (binding & <- & Hb). eapply Hone; eassumption. }
  induction frames as [|frames IH]; intros [|[|d]] hs h Hgen Hin.
  - discriminate Hgen.
  - eapply Hbase; eassumption.
  - discriminate Hgen.
  - rewrite generate_partials_zero in Hgen. discriminate Hgen.
  - eapply Hbase; eassumption.
  - rewrite generate_partials_step in Hgen.
    destruct (generate_partials_at_depth frames (S d) primitives) as [partials|] eqn:E;
      [|discriminate Hgen].
    injection Hgen as <-. apply in_flat_map in Hin as (partial & Hp & Hin).
    eapply Hstep; [eapply IH; eassumption | exact Hin].
Qed.

(** Partial hypotheses of depth [d] bind ["x1"], ..., ["xd"], in order. *)
Lemma generate_partials_names frames depth primitives hs h :
  generate_partials_at_depth frames depth primitives = Ok hs -> In h hs ->
  map output_var (steps h) = var_names depth.
Proof.
  apply (generate_partials_induction primitives
           (fun d h => map output_var (steps h) = var_names d)).
  - reflexivity.
  - intros d partial h' Hnames Hin.
    apply extend_hypothesis_shape in Hin as (step & Hsteps & Hout).
    assert (Hlen : length (steps partial) + 1 = S (S d)).
    { apply (f_equal (@length string)) in Hnames.
      rewrite length_map, length_var_names in Hnames. lia. }
    rewrite Hsteps, map_app, Hnames, (var_names_S (S d)).
    cbn [map]. rewrite Hout. unfold next_var_name. now rewrite Hlen.
Qed.

Lemma generate_single_step_shape primitives h :
  In h (generate_single_step primitives) ->
  exists step, steps h = [step] /\ returns_grid primitives step.
Proof.
  unfold generate_single_step. intros Hin.
  apply in_flat_map in Hin as ([p info] & Hp & Hin). simpl in Hin.
  destruct (is_type_compatible (return_type info) (Base GRID)) eqn:E;
    [|destruct Hin].
  apply in_map_iff in Hin as (binding & <- & _).
  eexists. split; [reflexivity|]. now exists p, info, binding.
Qed.

(** The final step added on top of a partial hypothesis. *)
Lemma final_extension_names partial primitives h n :
  map output_var (steps partial) = var_names n ->
  In h (extend_hypothesis partial primitives true) ->
  map output_var (steps h) = var_names n ++ ["O"].
Proof.
  intros Hn Hin. apply extend_hypothesis_shape in Hin as (step & -> & Hout).
  rewrite map_app, Hn. simpl. now rewrite Hout.
Qed.

Lemma generate_at_depth_zero frames primitives :
  generate_at_depth frames 0 primitives = Err RecursionError.
Proof.
  unfold generate_at_depth. cbn [Nat.eqb Nat.sub].
  now rewrite generate_partials_zero.
Qed.

(** From depth 2 on, complete hypotheses are the final extensions of the
    partial hypotheses one step shorter. *)
Lemma generate_at_depth_general frames d primitives :
  2 <= d ->
  generate_at_depth frames d primitives
  = (partials <- generate_partials_at_depth frames (d - 1) primitives ;;
     Ok (flat_map (fun partial => extend_hypothesis partial primitives true)
                  partials))%result.
Proof.
  intros Hd. destruct d as [|[|[|d]]]; [lia | lia | | reflexivity].
  unfold generate_at_depth. cbn [Nat.eqb Nat.sub].
  rewrite generate_partials_one. cbn [rbind].
  f_equal. rewrite flat_map_flat_map. apply flat_map_ext. intros p.
  now rewrite flat_map_map.
Qed.

(** A depth is generated exactly when it is positive and the descent of
    its partial hypotheses fits in the room. *)
Lemma generate_at_depth_defined frames depth primitives :
  (exists hs, generate_at_depth frames depth primitives = Ok hs)
  <-> 1 <= depth <= frames + 2.
Proof.
  destruct depth as [|[|depth]].
  - rewrite generate_at_depth_zero. split; [intros [hs Hgen]; discriminate Hgen | lia].
  - split; [lia | intros _; eexists; reflexivity].
  - rewrite generate_at_depth_general by lia.
    replace (S (S depth) - 1) with (S depth) by lia.
    pose proof (generate_partials_defined frames (S depth) primitives) as Hdef.
    split.
    + intros [hs Hgen].
      destruct (generate_partials_at_depth frames (S depth) primitives)
        as [partials|] eqn:E; [|discriminate Hgen].
      assert (1 <= S depth <= frames + 1) by (apply (proj1 Hdef); eauto). lia.
    + intros Hd. destruct (proj2 Hdef) as [partials ->]; [lia|].
      eexists. reflexivity.
Qed.

(** The generator fails in one way only. *)
Lemma generate_partials_error frames :
  forall depth primitives e,
    generate_partials_at_depth frames depth primitives = Err e -> e = RecursionError.
Proof.
  induction frames as [|frames IH]; intros [|[|d]] primitives e Hgen;
    try (injection Hgen as <-; reflexivity); try discriminate Hgen.
  - rewrite generate_partials_zero in Hgen. now injection Hgen as <-.
  - rewrite generate_partials_step in Hgen.
    destruct (generate_partials_at_depth frames (S d) primitives) as [partials|e']
      eqn:E; [discriminate Hgen|].
    injection Hgen as <-. eapply IH, E.
Qed.

Lemma generate_at_depth_error frames depth primitives e :
  generate_at_depth frames depth primitives = Err e -> e = RecursionError.
Proof.
  unfold generate_at_depth.
  destruct (Nat.eqb depth 1); [discriminate|].
  destruct (Nat.eqb depth 2); [discriminate|].
  destruct (generate_partials_at_depth frames (depth - 1) primitives) as [partials|e']
    eqn:E; [discriminate|].
  intros [= <-]. eapply generate_partials_error, E.
Qed.

(** Beyond the room the generator raises. *)
Lemma generate_at_depth_overflow frames depth primitives :
  frames + 2 < depth -> generate_at_depth frames depth primitives = Err RecursionError.
Proof.
  intros Hd.
  destruct (generate_at_depth frames depth primitives) as [hs|e] eqn:Hgen.
  - assert (1 <= depth <= frames + 2)
      by (apply (proj1 (generate_at_depth_defined frames depth primitives)); eauto).
    lia.
  - f_equal. eapply generate_at_depth_error, Hgen.
Qed.

(** A depth that is generated has all shallower depths generated. *)
Lemma generate_at_depth_below frames d a primitives hs :
  generate_at_depth frames d primitives = Ok hs ->
  1 <= a <= d ->
  exists hs', generate_at_depth frames a primitives = Ok hs'.
Proof.
  intros Hgen Ha. apply (proj2 (generate_at_depth_defined _ _ _)).
  assert (1 <= d <= frames + 2)
    by (apply (proj1 (generate_at_depth_defined frames d primitives)); eauto).
  lia.
Qed.

(** The names bound by the hypotheses of a depth. *)
Lemma generate_at_depth_names frames depth primitives hs :
  generate_at_depth frames depth primitives = Ok hs ->
  forall h, In h hs ->
    map output_var (steps h) = var_names (depth - 1) ++ ["O"] /\
    (depth = 1 -> exists step, steps h = [step] /\ returns_grid primitives step).
Proof.
  intros Hgen h Hin. destruct depth as [|[|depth]].
  - rewrite generate_at_depth_zero in Hgen. discriminate Hgen.
  - injection Hgen as <-.
    apply generate_single_step_shape in Hin as (step & Hs & Hg).
    split; [|intros _; now exists step].
    rewrite Hs. destruct Hg as (p & info & b & -> & _). reflexivity.
  - split; [|intros; lia].
    rewrite generate_at_depth_general in Hgen by lia.
    replace (S (S depth) - 1) with (S depth) in * by lia.
    destruct (generate_partials_at_depth frames (S depth) primitives)
      as [partials|] eqn:E; [|discriminate Hgen].
    injection Hgen as <-. apply in_flat_map in Hin as (partial & Hpartial & Hin).
    eapply final_extension_names; [|exact Hin].
    eapply generate_partials_names; eassumption.
Qed.

Lemma generate_at_depth_length frames depth primitives hs h :
  generate_at_depth frames depth primitives = Ok hs -> In h hs ->
  length (steps h) = depth.
Proof.
  intros Hgen Hin. destruct (generate_at_depth_names _ _ _ _ Hgen h Hin) as [Hnames _].
  assert (1 <= depth).
  { destruct depth; [|lia]. rewrite generate_at_depth_zero in Hgen. discriminate Hgen. }
  apply (f_equal (@length string)) in Hnames.
  rewrite length_map, length_app, length_var_names in Hnames. simpl in Hnames. lia.
Qed.

(** C4. Every hypothesis the generator yields at depth [d] has exactly
    [d] steps, whose output variables are "x1", ..., "x{d-1}" in order of
    position followed by the terminal name "O" on the final step, no name
    being used twice; for [d = 1] the single step is a call, bound to "O",
    of a catalog primitive whose return type is grid-compatible. *)
Theorem generate_at_depth_shape frames depth primitives hs h :
  generate_at_depth frames depth primitives = Ok hs ->
  In h hs ->
  length (steps h) = depth /\
  map output_var (steps h) = var_names (depth - 1) ++ ["O"] /\
  List.NoDup (map output_var (steps h)) /\
  (depth = 1 -> exists step, steps h = [step] /\ returns_grid primitives step).
Proof.
  intros Hgen Hin.
  destruct (generate_at_depth_names _ _ _ _ Hgen h Hin) as [Hnames Hone].
  split; [eapply generate_at_depth_length; eassumption|].
  split; [exact Hnames|]. split; [|exact Hone].
  rewrite Hnames. apply NoDup_var_names.
Qed.

(* ===================================================================== *)
(** ** Facts about the evaluator *)
(* ===================================================================== *)

Section EvaluatorFacts.
Context {obj : Type} `{EqDecision obj}.
Variable call : obj -> list obj -> result obj.
Variables dsl_module constants_module : string -> option obj.

Local Abbreviation execute h i :=
  (execute_hypothesis call h i dsl_module constants_module).
Local Abbreviation evaluate h ex :=
  (evaluate_hypothesis call h ex dsl_module constants_module).

Lemma evaluate_cons h i e rest :
  evaluate h ((i, e) :: rest)
  = match execute h i with
    | Ok out => if bool_decide (out = e) then evaluate h rest else Ok false
    | Err _ => Ok false
    end.
Proof.
  cbn [evaluate_hypothesis]. unfold try_except, rbind.
  destruct (execute h i) as [out | err]; [|reflexivity].
  destruct (decide (out = e)) as [-> | Hne].
  - rewrite bool_decide_eq_false_2 by (intros Hn; now apply Hn).
    rewrite bool_decide_eq_true_2 by reflexivity. reflexivity.
  - rewrite bool_decide_eq_true_2 by assumption.
    rewrite bool_decide_eq_false_2 by congruence. reflexivity.
Qed.

(** [evaluate_hypothesis] never raises, and accepts exactly when every
    pair executes to its expected output. *)
Lemma evaluate_returns h examples :
  exists b,
    evaluate h examples = Ok b /\
    (b = true <-> forall i e, In (i, e) examples -> execute h i = Ok e).
Proof.
  induction examples as [|[i e] rest (b & Hb & Hiff)].
  - exists true. split; [reflexivity|]. split; [intros _ i e []|reflexivity].
  - rewrite evaluate_cons.
    assert (Hfalse : forall b', (exists x, execute h i = x /\ x <> Ok e) ->
              b' = false ->
              (b' = true <-> forall i0 e0, In (i0, e0) ((i, e) :: rest) ->
                                           execute h i0 = Ok e0)).
    { intros b' (x & Hx & Hne) ->. split; [discriminate|].
      intros Hall. exfalso. apply Hne. rewrite <- Hx. apply Hall. now left. }
    destruct (execute h i) as [out | err] eqn:Hex.
    + case_bool_decide as Hout.
      * subst out. exists b. split; [exact Hb|]. rewrite Hiff. split.
        -- intros Hall i' e' [E | Hin]; [congruence | now apply Hall].
        -- intros Hall i' e' Hin. apply Hall. now right.
      * exists false. split; [reflexivity|]. apply Hfalse; [|reflexivity].
        eexists. split; [reflexivity | congruence].
    + exists false. split; [reflexivity|]. apply Hfalse; [|reflexivity].
      eexists. split; [reflexivity | discriminate].
Qed.

Lemma evaluate_passes h examples :
  evaluate h examples = Ok (passes call examples dsl_module constants_module h).
Proof.
  unfold passes. destruct (evaluate_returns h examples) as (b & -> & _).
  reflexivity.
Qed.

(** C2. For every hypothesis, example list, library and constants
    binding, [evaluate_hypothesis] returns a boolean and never raises; the
    boolean is true if and only if for every (input, expected) pair
    execution succeeds and produces a value equal to the expected one; in
    particular an execution failure on any pair makes the result false
    instead of reaching the caller. *)
Theorem evaluate_hypothesis_iff h examples :
  exists b,
    evaluate_hypothesis call h examples dsl_module constants_module = Ok b /\
    (b = true <->
     forall i e, In (i, e) examples ->
                 execute_hypothesis call h i dsl_module constants_module = Ok e) /\
    (forall i e err,
        In (i, e) examples ->
        execute_hypothesis call h i dsl_module constants_module = Err err ->
        b = false).
Proof.
  destruct (evaluate_returns h examples) as (b & Hb & Hiff).
  exists b. repeat split; try apply Hiff; try exact Hb.
  intros i e err Hin Herr. destruct b; [|reflexivity].
  assert (Hok : execute h i = Ok e) by now apply Hiff.
  congruence.
Qed.
End EvaluatorFacts.

(* ===================================================================== *)
(** ** Facts about the search loop *)
(* ===================================================================== *)

Lemma generate_depths_app frames l1 l2 primitives :
  generate_depths frames (l1 ++ l2) primitives
  = (a <- generate_depths frames l1 primitives ;;
     b <- generate_depths frames l2 primitives ;;
     Ok (a ++ b))%result.
Proof.
  induction l1 as [|d l1 IH]; simpl.
  - destruct (generate_depths frames l2 primitives); reflexivity.
  - destruct (generate_at_depth frames d primitives) as [hs|]; simpl; [|reflexivity].
    rewrite IH. destruct (generate_depths frames l1 primitives) as [a|]; simpl; [|reflexivity].
    destruct (generate_depths frames l2 primitives) as [b|]; simpl; [|reflexivity].
    now rewrite app_assoc.
Qed.

(** The enumeration up to depth [d] is the one up to [d - 1] followed by
    the hypotheses of depth [d]. *)
Lemma generate_hypotheses_S frames d primitives before hs :
  generate_hypotheses frames d primitives = Ok before ->
  generate_at_depth frames (S d) primitives = Ok hs ->
  generate_hypotheses frames (S d) primitives = Ok (before ++ hs).
Proof.
  unfold generate_hypotheses. intros Hb Hhs.
  rewrite seq_S, generate_depths_app, Hb. simpl. rewrite Hhs. simpl.
  now rewrite app_nil_r.
Qed.

(** A trace that can continue, followed by a checked trace, is checked. *)
Lemma checked_app start_time t evs1 :
  checked start_time t evs1 Open ->
  forall evs2 e, checked start_time t evs2 e -> checked start_time t (evs1 ++ evs2) e.
Proof.
  intros H1. remember Open as o eqn:Eo.
  induction H1 as [| | now h evs e Hnow H1 IH |]; intros evs2 e2 H2;
    try discriminate Eo.
  - exact H2.
  - simpl. apply checked_failed; [exact Hnow | now apply IH].
Qed.

(** In a checked trace every evaluation directly follows a timeout check
    that did not fire. *)
Lemma checked_evaluate start_time t evs e :
  checked start_time t evs e ->
  forall pre h b post,
    evs = pre ++ EvEvaluate h b :: post ->
    exists pre' now,
      pre = pre' ++ [EvTime AtCheck now] /\ Qgtb (now - start_time) t = false.
Proof.
  induction 1 as [| now Hnow | now h0 evs e Hnow Hc IH | now h0 fin Hnow];
    intros pre h b post E.
  - destruct pre; discriminate E.
  - destruct pre as [|x [|y pre]]; discriminate E.
  - destruct pre as [|x [|y pre]]; try discriminate E.
    + injection E as Ex _ _ _. subst x. now exists [], now.
    + injection E as Ex Ey E. subst x y.
      destruct (IH _ _ _ _ E) as (pre' & now' & -> & Hn).
      now exists (EvTime AtCheck now :: EvEvaluate h0 false :: pre'), now'.
  - destruct pre as [|x [|y [|z pre]]]; try discriminate E.
    + injection E as Ex _ _ _. subst x. now exists [], now.
    + destruct pre; discriminate E.
Qed.

(** In a checked trace a timeout check that fired is the last event. *)
Lemma checked_fired start_time t evs e :
  checked start_time t evs e ->
  forall pre now post,
    evs = pre ++ EvTime AtCheck now :: post ->
    Qgtb (now - start_time) t = true ->
    post = [] /\ e = Expired.
Proof.
  induction 1 as [| now0 Hnow | now0 h0 evs e Hnow Hc IH | now0 h0 fin Hnow];
    intros pre now post E Hfired.
  - destruct pre; discriminate E.
  - destruct pre as [|x pre].
    + injection E as _ Ep. now subst post.
    + destruct pre; discriminate E.
  - destruct pre as [|x [|y pre]]; try discriminate E.
    + injection E as En _. congruence.
    + injection E as _ _ E. now apply (IH _ _ _ E).
  - destruct pre as [|x [|y [|z pre]]]; try discriminate E.
    + injection E as En _. congruence.
    + destruct pre; discriminate E.
Qed.

Section SearchFacts.
Context {obj : Type} `{EqDecision obj}.
Variable call : obj -> list obj -> result obj.
Variable extract_primitives : (string -> option obj) -> Catalog.
Variable clock : nat -> Q.
Variable frames : nat.
Variables (task_examples : list (obj * obj)) (task_id : string).
Variables dsl_module constants_module : string -> option obj.
Variable callback : nat -> nat -> Q -> result unit.
Variable max_depth : option Z.

Local Abbreviation solves :=
  (passes call task_examples dsl_module constants_module).
Local Abbreviation loop timeout :=
  (search_depth call clock task_examples task_id dsl_module constants_module
                timeout).
Local Abbreviation while timeout :=
  (search_while call clock frames task_examples task_id dsl_module constants_module
                max_depth timeout).

Lemma timeout_check_run timeout start_time w :
  timeout_check clock timeout start_time w
  = (Returns (expired clock timeout start_time w), after_check clock timeout w).
Proof.
  unfold timeout_check, expired, after_check.
  destruct timeout as [t|]; [|reflexivity].
  destruct (truthy (Some t)); reflexivity.
Qed.

Lemma evaluate_call_run h w :
  evaluate_call call h task_examples dsl_module constants_module w
  = (Returns (solves h), after_evaluate h (solves h) w).
Proof.
  unfold evaluate_call, bind, lift_result. now rewrite evaluate_passes.
Qed.

(** One iteration of the [for] loop of [search]. *)
Lemma search_depth_cons timeout h hs d total start_time w :
  loop timeout (h :: hs) d total start_time w
  = if expired clock timeout start_time w
    then (Returns (Return_ None), after_check clock timeout w)
    else
      let w1 := after_evaluate h (solves h) (after_check clock timeout w) in
      if solves h then
        (Returns (Return_ (Some {| hypothesis := h;
                                   code := hypothesis_to_code h task_id;
                                   depth := d;
                                   hypotheses_tried := total + 1;
                                   time_elapsed := clock (ticks w1) - start_time |})),
         after_found clock w1)
      else loop timeout hs d (total + 1) start_time w1.
Proof.
  cbn [search_depth]. unfold bind at 1. rewrite timeout_check_run.
  destruct (expired clock timeout start_time w); [reflexivity|].
  unfold bind at 1. rewrite evaluate_call_run.
  destruct (solves h); reflexivity.
Qed.

(** What the loop over one depth can end with. *)
Lemma search_depth_exit timeout d start_time hs :
  forall total w out w',
    loop timeout hs d total start_time w = (out, w') ->
    match out with
    | Returns (Exhausted total') =>
        total' = total + length hs /\ Forall (fun h => solves h = false) hs
    | Returns (Return_ None) => truthy timeout = true
    | Returns (Return_ (Some r)) =>
        exists pre post,
          hs = pre ++ hypothesis r :: post /\
          Forall (fun h => solves h = false) pre /\
          solves (hypothesis r) = true /\
          depth r = d /\
          hypotheses_tried r = total + length pre + 1 /\
          code r = hypothesis_to_code (hypothesis r) task_id
    | Raises _ | OutOfFuel => False
    end.
Proof.
  induction hs as [|h hs IH]; intros total w out w' Hrun.
  - injection Hrun as <- <-. simpl. split; [lia | constructor].
  - rewrite search_depth_cons in Hrun.
    destruct (expired clock timeout start_time w) eqn:Hexp.
    { injection Hrun as <- <-. unfold expired in Hexp.
      destruct timeout; [|discriminate].
      now apply andb_true_iff in Hexp as [-> _]. }
    cbv zeta in Hrun. destruct (solves h) eqn:Hh.
    + injection Hrun as <- <-. exists [], hs. simpl.
      repeat split; [constructor | exact Hh | lia].
    + specialize (IH _ _ _ _ Hrun).
      destruct out as [[[r|] | total'] | |]; try exact IH.
      * destruct IH as (pre & post & -> & Hpre & Hr & Hd & Ht & Hc).
        exists (h :: pre), post. simpl.
        repeat split; try assumption; [now constructor | lia].
      * destruct IH as [-> Hall]. simpl. split; [lia | now constructor].
Qed.
(** One turn of the [while] loop of [search]. *)
Lemma search_while_S timeout fuel primitives d total start_time w :
  while timeout (S fuel) primitives d total start_time w
  = if within_depth max_depth d then
      match generate_at_depth frames d primitives with
      | Err e => (Raises e, w)
      | Ok hs =>
          match loop timeout hs d total start_time w with
          | (Returns (Return_ r), w1) => (Returns r, w1)
          | (Returns (Exhausted total'), w1) =>
              while timeout fuel primitives (d + 1) total' start_time w1
          | (Raises e, w1) => (Raises e, w1)
          | (OutOfFuel, w1) => (OutOfFuel, w1)
          end
      end
    else (Returns None, w).
Proof.
  cbn [search_while]. destruct (within_depth max_depth d); [|reflexivity].
  unfold bind, lift_result.
  destruct (generate_at_depth frames d primitives) as [hs|e]; [|reflexivity].
  destruct (loop timeout hs d total start_time w) as [[[r|total']|e|] w1];
    reflexivity.
Qed.

Lemma search_while_0 timeout primitives d total start_time w :
  while timeout 0 primitives d total start_time w
  = if within_depth max_depth d then (OutOfFuel, w) else (Returns None, w).
Proof. cbn [search_while]. now destruct (within_depth max_depth d). Qed.

(** Invariant of the [while] loop: everything generated so far failed. *)
Lemma search_while_found timeout primitives start_time fuel :
  forall d total w r w' before,
    while timeout fuel primitives (S d) total start_time w
    = (Returns (Some r), w') ->
    generate_hypotheses frames d primitives = Ok before ->
    Forall (fun h => solves h = false) before ->
    total = length before ->
    (forall j hs h, 1 <= j <= d -> generate_at_depth frames j primitives = Ok hs ->
                    In h hs -> solves h = false) ->
    exists bef aft,
      generate_hypotheses frames (depth r) primitives = Ok (bef ++ hypothesis r :: aft) /\
      Forall (fun h => solves h = false) bef /\
      solves (hypothesis r) = true /\
      hypotheses_tried r = length bef + 1 /\
      (forall j hs h, 1 <= j < depth r -> generate_at_depth frames j primitives = Ok hs ->
                      In h hs -> solves h = false) /\
      (exists hs, generate_at_depth frames (depth r) primitives = Ok hs /\
                  In (hypothesis r) hs) /\
      within_depth max_depth (depth r) = true /\
      code r = hypothesis_to_code (hypothesis r) task_id.
Proof.
  induction fuel as [|fuel IH]; intros d total w r w' before Hrun Hgen Hfail Htot Hshallow.
  - rewrite search_while_0 in Hrun.
    destruct (within_depth max_depth (S d)); discriminate Hrun.
  - rewrite search_while_S in Hrun.
    destruct (within_depth max_depth (S d)) eqn:Hwithin; [|discriminate Hrun].
    destruct (generate_at_depth frames (S d) primitives) as [hs|e] eqn:Hhs;
      [|discriminate Hrun].
    destruct (loop timeout hs (S d) total start_time w) as [out w1] eqn:Hloop.
    pose proof (search_depth_exit _ _ _ _ _ _ _ _ Hloop) as Hexit.
    pose proof (generate_hypotheses_S _ _ _ _ _ Hgen Hhs) as Hnext.
    destruct out as [[[r'|] | total'] | |]; try discriminate Hrun.
    + injection Hrun as -> ->.
      destruct Hexit as (pre & post & Hsplit & Hpre & Hr & Hd & Ht & Hc).
      exists (before ++ pre), post. rewrite Hd.
      repeat split; try assumption.
      * rewrite Hnext, Hsplit. now rewrite <- app_assoc.
      * apply Forall_app. now split.
      * rewrite length_app. lia.
      * intros j hs' h' Hj. apply Hshallow. lia.
      * exists hs. split; [exact Hhs|]. rewrite Hsplit.
        apply in_or_app. right. now left.
    + destruct Hexit as [-> Hall].
      replace (S d + 1) with (S (S d)) in Hrun by lia.
      apply (IH _ _ _ _ _ (before ++ hs) Hrun Hnext).
      * apply Forall_app. now split.
      * rewrite length_app. lia.
      * intros j hs' h' Hj Hj' Hin.
        destruct (decide (j = S d)) as [-> | Hne].
        -- rewrite Hhs in Hj'. injection Hj' as <-.
           rewrite Forall_forall in Hall. apply Hall.
           now apply list_elem_of_In.
        -- apply (Hshallow j hs' h'); [lia | assumption | assumption].
Qed.

(** C1. For every example set, catalog and depth/timeout budget, if
    [search] returns a [SearchResult] then its hypothesis is the first one,
    in the enumeration order of [generate_hypotheses] (depth 1, then depth
    2, ...), that passes all examples: every hypothesis enumerated before it
    fails, [hypotheses_tried] is its position, and its number of steps is
    the reported depth; in particular no hypothesis of a strictly smaller
    depth passes all examples. *)
Theorem search_returns_first_passing timeout fuel w r w' :
  search call extract_primitives clock frames task_examples task_id dsl_module
         constants_module max_depth timeout fuel w = (Returns (Some r), w') ->
  let primitives := extract_primitives dsl_module in
  let fails h := passes call task_examples dsl_module constants_module h = false in
  exists before after,
    generate_hypotheses frames (depth r) primitives
    = Ok (before ++ hypothesis r :: after) /\
    Forall fails before /\
    passes call task_examples dsl_module constants_module (hypothesis r) = true /\
    hypotheses_tried r = length before + 1 /\
    length (steps (hypothesis r)) = depth r /\
    (forall j hs h, 1 <= j < depth r -> generate_at_depth frames j primitives = Ok hs ->
                    In h hs -> fails h).
Proof.
  intros Hrun primitives fails. subst primitives fails.
  unfold search, bind in Hrun. cbn [time_time] in Hrun.
  eapply (search_while_found _ _ _ _ 0 0 _ _ _ []) in Hrun;
    [| reflexivity | constructor | reflexivity | intros; lia].
  destruct Hrun as (bef & aft & Hgen & Hbef & Hr & Ht & Hsh & (hs & Hhs & Hin) & Hw & _).
  exists bef, aft. repeat split; try assumption.
  eapply generate_at_depth_length; eassumption.
Qed.
(** When every depth within the ceiling is generated, the loop itself
    never raises. *)
Lemma search_while_total timeout primitives start_time m fuel :
  max_depth = Some m ->
  (forall d, 1 <= d -> (Z.of_nat d <= m)%Z ->
             exists hs, generate_at_depth frames d primitives = Ok hs) ->
  forall d total w,
    1 <= d -> Z.to_nat m + 1 - d <= fuel ->
    exists r w', while timeout fuel primitives d total start_time w = (Returns r, w').
Proof.
  intros Hm Hgen. induction fuel as [|fuel IH]; intros d total w Hd Hfuel.
  - rewrite search_while_0. unfold within_depth. rewrite Hm.
    destruct (Z.leb_spec (Z.of_nat d) m); [lia | eauto].
  - rewrite search_while_S.
    destruct (within_depth max_depth d) eqn:Hw; [|eauto].
    destruct (Hgen d Hd) as [hs ->].
    { unfold within_depth in Hw. rewrite Hm in Hw. now apply Z.leb_le. }
    destruct (loop timeout hs d total start_time w) as [out w1] eqn:Hloop.
    pose proof (search_depth_exit _ _ _ _ _ _ _ _ Hloop) as Hexit.
    destruct out as [[r | total'] | |]; try contradiction; [eauto|].
    apply IH; lia.
Qed.

(** With a depth ceiling [m] that the generator reaches, the search
    returns once the fuel covers the [m] depths. *)
Lemma search_terminates timeout m fuel w :
  max_depth = Some m ->
  ((1 <= m)%Z ->
   exists hs,
     generate_at_depth frames (Z.to_nat m) (extract_primitives dsl_module) = Ok hs) ->
  Z.to_nat m <= fuel ->
  exists r w',
    search call extract_primitives clock frames task_examples task_id dsl_module
           constants_module max_depth timeout fuel w = (Returns r, w').
Proof.
  intros Hm Hgen Hfuel. unfold search, bind. cbn [time_time].
  eapply search_while_total; [exact Hm | | lia | lia].
  intros d Hd Hle. destruct Hgen as [hs Hhs]; [lia|].
  eapply generate_at_depth_below; [exact Hhs | lia].
Qed.

(** With a nonzero timeout the loop over one depth leaves a checked
    trace. *)
Lemma search_depth_checked t d start_time hs :
  truthy (Some t) = true ->
  forall total w out w',
    loop (Some t) hs d total start_time w = (out, w') ->
    exists evs e,
      log w' = log w ++ evs /\
      checked start_time t evs e /\
      match e with
      | Open => exists n, out = Returns (Exhausted n)
      | Expired => out = Returns (Return_ None)
      | Found => exists r, out = Returns (Return_ (Some r))
      end.
Proof.
  intros Ht. induction hs as [|h hs IH]; intros total w out w' Hrun.
  - injection Hrun as <- <-. exists [], Open.
    rewrite app_nil_r. repeat split; [constructor | eauto].
  - rewrite search_depth_cons in Hrun. unfold expired, after_check in Hrun.
    rewrite Ht in Hrun. cbn [andb] in Hrun.
    destruct (Qgtb (clock (ticks w) - start_time) t) eqn:Hnow.
    { injection Hrun as <- <-. eexists _, Expired. cbn [log].
      repeat split. now apply checked_expired. }
    cbv zeta in Hrun. destruct (solves h).
    + injection Hrun as <- <-. eexists _, Found. cbn [log after_found after_evaluate].
      rewrite <- !app_assoc. cbn [app].
      repeat split; [now apply checked_found | eauto].
    + destruct (IH _ _ _ _ Hrun) as (evs & e & Hlog & Hc & He).
      eexists _, e. rewrite Hlog. cbn [log after_evaluate].
      rewrite <- !app_assoc. cbn [app].
      repeat split; [apply checked_failed; eassumption | exact He].
Qed.

Lemma search_while_checked t primitives start_time fuel :
  truthy (Some t) = true ->
  forall d total w out w',
    while (Some t) fuel primitives d total start_time w = (out, w') ->
    exists evs e,
      log w' = log w ++ evs /\
      checked start_time t evs e /\
      (e = Expired -> out = Returns None).
Proof.
  intros Ht.
  assert (Hstop : forall (out : outcome (option SearchResult)) w,
             exists evs e, log w = log w ++ evs /\ checked start_time t evs e /\
                           (e = Expired -> out = Returns None)).
  { intros out w. exists [], Open. rewrite app_nil_r.
    repeat split; [constructor | discriminate]. }
  induction fuel as [|fuel IH]; intros d total w out w' Hrun.
  - rewrite search_while_0 in Hrun.
    destruct (within_depth max_depth d); injection Hrun as <- <-; apply Hstop.
  - rewrite search_while_S in Hrun.
    destruct (within_depth max_depth d); [|injection Hrun as <- <-; apply Hstop].
    destruct (generate_at_depth frames d primitives) as [hs|err];
      [|injection Hrun as <- <-; apply Hstop].
    destruct (loop (Some t) hs d total start_time w) as [out1 w1] eqn:Hloop.
    destruct (search_depth_checked _ _ _ _ Ht _ _ _ _ Hloop)
      as (evs1 & e1 & Hlog1 & Hc1 & He1).
    destruct out1 as [[r | total'] | err |].
    + injection Hrun as <- <-. exists evs1, e1. repeat split; try assumption.
      intros ->. now injection He1 as ->.
    + destruct e1; [| discriminate He1 | destruct He1 as [r Hr]; discriminate Hr].
      destruct (IH _ _ _ _ _ Hrun) as (evs2 & e2 & Hlog2 & Hc2 & He2).
      exists (evs1 ++ evs2), e2. rewrite Hlog2, Hlog1, app_assoc.
      repeat split; [now apply checked_app | exact He2].
    + destruct e1; [destruct He1 as [n Hn]; discriminate Hn | discriminate He1
                   | destruct He1 as [r Hr]; discriminate Hr].
    + destruct e1; [destruct He1 as [n Hn]; discriminate Hn | discriminate He1
                   | destruct He1 as [r Hr]; discriminate Hr].
Qed.

Lemma truthy_nonzero t : ~ (t == 0)%Q -> truthy (Some t) = true.
Proof.
  intros Ht. unfold truthy. destruct (Qeq_bool t 0) eqn:E; [|reflexivity].
  now apply Qeq_bool_eq in E.
Qed.

Lemma truthy_zero t : (t == 0)%Q -> truthy (Some t) = false.
Proof. intros Ht. unfold truthy. now rewrite (Qeq_eq_bool _ _ Ht). Qed.

(** X28. When a nonzero timeout [t] is supplied to [search], the elapsed
    time is checked against it before each hypothesis is evaluated: in the
    trace that follows the start of the search every evaluation comes
    directly after a check that found the elapsed time not above [t], and a
    check that finds it above [t] is the last event of the run, which then
    returns [None] without evaluating the hypothesis in front of which the
    check stood, or any later one. *)
Theorem search_timeout_checked_between_hypotheses t fuel w out w' :
  ~ (t == 0)%Q ->
  search call extract_primitives clock frames task_examples task_id dsl_module
         constants_module max_depth (Some t) fuel w = (out, w') ->
  let start_time := clock (ticks w) in
  exists evs,
    log w' = log w ++ EvTime AtStart start_time :: evs /\
    (forall pre h b post,
        evs = pre ++ EvEvaluate h b :: post ->
        exists pre' now,
          pre = pre' ++ [EvTime AtCheck now] /\
          Qgtb (now - start_time) t = false) /\
    (forall pre now post,
        evs = pre ++ EvTime AtCheck now :: post ->
        Qgtb (now - start_time) t = true ->
        post = [] /\ out = Returns None).
Proof.
  intros Hnz Hrun start_time. apply truthy_nonzero in Hnz.
  unfold search, bind in Hrun. cbn [time_time] in Hrun. fold start_time in Hrun.
  destruct (search_while_checked _ _ _ _ Hnz _ _ _ _ _ Hrun)
    as (evs & e & Hlog & Hc & He).
  exists evs. cbn [log] in Hlog. rewrite <- app_assoc in Hlog. cbn [app] in Hlog.
  split; [exact Hlog|]. split.
  - intros pre h b post E. eapply checked_evaluate; eassumption.
  - intros pre now post E Hfired.
    destruct (checked_fired _ _ _ _ Hc _ _ _ E Hfired) as [-> ->]. auto.
Qed.

(** A zero timeout is falsy: the loops run as without a timeout. *)
Lemma search_depth_falsy timeout d start_time hs :
  truthy timeout = false ->
  forall total w,
    loop timeout hs d total start_time w = loop None hs d total start_time w.
Proof.
  intros Ht. induction hs as [|h hs IH]; intros total w; [reflexivity|].
  rewrite !search_depth_cons.
  assert (Hexp : expired clock timeout start_time w = false).
  { unfold expired. destruct timeout; [now rewrite Ht | reflexivity]. }
  rewrite Hexp. unfold after_check. rewrite Ht. cbn [expired truthy]. cbv zeta.
  destruct (solves h); [reflexivity | apply IH].
Qed.

Lemma search_while_falsy timeout primitives start_time fuel :
  truthy timeout = false ->
  forall d total w,
    while timeout fuel primitives d total start_time w
    = while None fuel primitives d total start_time w.
Proof.
  intros Ht. induction fuel as [|fuel IH]; intros d total w.
  - now rewrite !search_while_0.
  - rewrite !search_while_S.
    destruct (within_depth max_depth d); [|reflexivity].
    destruct (generate_at_depth frames d primitives) as [hs|]; [|reflexivity].
    rewrite (search_depth_falsy _ _ _ _ Ht).
    destruct (loop None hs d total start_time w) as [[[r|total']| |] w1];
      try reflexivity.
    apply IH.
Qed.

Local Abbreviation cb_loop timeout :=
  (callback_depth call clock task_examples task_id dsl_module constants_module
                  callback timeout).
Local Abbreviation cb_while timeout :=
  (callback_while call clock frames task_examples task_id dsl_module
                  constants_module callback max_depth timeout).

(** One iteration of the [for] loop of [search_with_callback]. *)
Lemma callback_depth_cons timeout h hs d total start_time last w :
  cb_loop timeout (h :: hs) d total start_time last w
  = let now := clock (ticks w) in
    let w0 := {| ticks := S (ticks w); log := log w ++ [EvTime AtCheck now] |} in
    if truthy timeout
       && match timeout with
          | Some t => Qgtb (now - start_time) t
          | None => false
          end
    then (Returns (Return_ None), w0)
    else
      let fire := Qgtb (now - last) (1 # 2) in
      let w1 :=
        if fire
        then {| ticks := ticks w0;
                log := log w0 ++ [EvCallback d total (now - start_time)] |}
        else w0 in
      match (if fire then callback d total (now - start_time) else Ok tt) with
      | Err e => (Raises e, w1)
      | Ok _ =>
          let w2 := after_evaluate h (solves h) w1 in
          if solves h then
            (Returns (Return_ (Some {| hypothesis := h;
                                       code := hypothesis_to_code h task_id;
                                       depth := d;
                                       hypotheses_tried := total + 1;
                                       time_elapsed := now - start_time |})),
             w2)
          else cb_loop timeout hs d (total + 1) start_time
                       (if fire then now else last) w2
      end.
Proof.
  cbn [callback_depth]. unfold bind at 1. cbn [time_time]. cbv zeta.
  destruct (truthy timeout && _); [reflexivity|].
  unfold bind at 1.
  destruct (Qgtb (clock (ticks w) - last) (1 # 2)).
  - unfold bind at 1. cbn [emit]. unfold bind at 1, lift_result.
    destruct (callback d total (clock (ticks w) - start_time)) as [[]|e];
      [|reflexivity].
    unfold ret at 1. unfold bind at 1.
    rewrite evaluate_call_run. destruct (solves h); reflexivity.
  - unfold ret at 1. unfold bind at 1.
    rewrite evaluate_call_run. destruct (solves h); reflexivity.
Qed.

Lemma callback_depth_falsy timeout d start_time hs :
  truthy timeout = false ->
  forall total last w,
    cb_loop timeout hs d total start_time last w
    = cb_loop None hs d total start_time last w.
Proof.
  intros Ht. induction hs as [|h hs IH]; intros total last w; [reflexivity|].
  rewrite !callback_depth_cons. cbv zeta. rewrite Ht. cbn [truthy andb].
  destruct (if Qgtb _ _ then callback _ _ _ else Ok tt); [|reflexivity].
  destruct (solves h); [reflexivity | apply IH].
Qed.

Lemma callback_while_falsy timeout primitives start_time fuel :
  truthy timeout = false ->
  forall d total last w,
    cb_while timeout fuel primitives d total start_time last w
    = cb_while None fuel primitives d total start_time last w.
Proof.
  intros Ht. induction fuel as [|fuel IH]; intros d total last w; [reflexivity|].
  cbn [callback_while]. destruct (within_depth max_depth d); [|reflexivity].
  unfold bind at 1 3. destruct (lift_result _ w) as [[hs|e|] w1]; try reflexivity.
  unfold bind. rewrite (callback_depth_falsy _ _ _ _ Ht).
  destruct (cb_loop None hs d total start_time last w1)
    as [[[r|[total' last']]| |] w2]; try reflexivity.
  apply IH.
Qed.

(** C9. A timeout equal to 0 passed to [search] or to
    [search_with_callback] disables the timeout check: on every clock and
    from every state the run returns the same result, reads the clock as
    often and leaves the same trace as the run without a timeout, instead
    of returning [None] at the first check. *)
Theorem zero_timeout_is_no_timeout t fuel w :
  (t == 0)%Q ->
  search call extract_primitives clock frames task_examples task_id dsl_module
         constants_module max_depth (Some t) fuel w
  = search call extract_primitives clock frames task_examples task_id dsl_module
           constants_module max_depth None fuel w /\
  search_with_callback call extract_primitives clock frames task_examples task_id
    dsl_module constants_module callback max_depth (Some t) fuel w
  = search_with_callback call extract_primitives clock frames task_examples task_id
      dsl_module constants_module callback max_depth None fuel w.
Proof.
  intros Ht. apply truthy_zero in Ht. split.
  - unfold search, bind. cbn [time_time]. now apply search_while_falsy.
  - unfold search_with_callback, bind. cbn [time_time].
    now apply callback_while_falsy.
Qed.
Lemma within_depth_le d d' :
  within_depth max_depth d = true -> d' <= d -> within_depth max_depth d' = true.
Proof.
  unfold within_depth. destruct max_depth as [m|]; [|reflexivity].
  rewrite !Z.leb_le. lia.
Qed.

(** If the first hypothesis the generator yields passes and the check in
    front of it does not fire, it is what the loop returns. *)
Lemma search_while_first timeout start_time h rest primitives n :
  forall a fuel total w,
    generate_depths frames (seq a n) primitives = Ok (h :: rest) ->
    within_depth max_depth (a + n - 1) = true ->
    n <= fuel ->
    expired clock timeout start_time w = false ->
    solves h = true ->
    exists r w',
      while timeout fuel primitives a total start_time w = (Returns (Some r), w') /\
      hypothesis r = h /\ hypotheses_tried r = total + 1.
Proof.
  induction n as [|n IH]; intros a fuel total w Hgen Hwithin Hfuel Hexp Hh.
  - discriminate Hgen.
  - destruct fuel as [|fuel]; [lia|].
    cbn [seq generate_depths] in Hgen. rewrite search_while_S.
    rewrite (within_depth_le _ a Hwithin) by lia.
    destruct (generate_at_depth frames a primitives) as [hs|]; [|discriminate Hgen].
    cbn [rbind] in Hgen.
    destruct (generate_depths frames (seq (S a) n) primitives) as [hs'|] eqn:Hrest;
      [|discriminate Hgen].
    cbn [rbind] in Hgen. injection Hgen as Hgen.
    destruct hs as [|h0 tl].
    + cbn [search_depth]. unfold ret at 1. cbn [app] in Hgen. subst hs'.
      replace (a + 1) with (S a) by lia.
      apply IH; try assumption; [|lia].
      now replace (S a + n - 1) with (a + S n - 1) by lia.
    + cbn [app] in Hgen. injection Hgen as -> _.
      rewrite search_depth_cons, Hexp. cbv zeta. rewrite Hh.
      eexists _, _. split; [reflexivity|]. split; reflexivity.
Qed.
End SearchFacts.

(** C10 (amended). For every hypothesis, library and constants binding,
    [evaluate_hypothesis] applied to an empty example list returns true;
    consequently a search given zero examples returns the first hypothesis
    the generator produces, as its first attempt, provided that hypothesis is
    generated within the depth budget and that a nonzero timeout, if one is
    supplied, is not exceeded at the check made in front of it. *)
Theorem zero_examples_accept_first {obj : Type} `{EqDecision obj}
    (call : obj -> list obj -> result obj)
    (extract_primitives : (string -> option obj) -> Catalog) (clock : nat -> Q)
    (frames : nat)
    (task_id : string) (dsl_module constants_module : string -> option obj)
    (max_depth : option Z) (timeout : option Q) :
  (forall h, evaluate_hypothesis call h [] dsl_module constants_module = Ok true) /\
  (forall fuel w d h rest,
      generate_hypotheses frames d (extract_primitives dsl_module) = Ok (h :: rest) ->
      within_depth max_depth d = true ->
      d <= fuel ->
      (forall t, timeout = Some t -> ~ (t == 0)%Q ->
                 Qgtb (clock (S (ticks w)) - clock (ticks w)) t = false) ->
      exists r w',
        search call extract_primitives clock frames [] task_id dsl_module constants_module
               max_depth timeout fuel w = (Returns (Some r), w') /\
        hypothesis r = h /\ hypotheses_tried r = 1).
Proof.
  split; [reflexivity|].
  intros fuel w d h rest Hgen Hwithin Hfuel Htime.
  unfold search, bind. cbn [time_time].
  eapply (search_while_first call clock frames [] task_id dsl_module constants_module
            max_depth timeout _ h rest _ d 1 fuel 0); try eassumption.
  - now replace (1 + d - 1) with d by lia.
  - unfold expired. cbn [ticks]. destruct timeout as [t|]; [|reflexivity].
    unfold truthy. destruct (Qeq_bool t 0) eqn:E; [reflexivity|].
    cbn [negb andb]. apply (Htime t eq_refl). now apply Qeq_bool_neq.
  - reflexivity.
Qed.

(* ===================================================================== *)
(** ** Concrete runs *)
(* ===================================================================== *)

(** C3, at the input where the code departs from it: a timeout of 0 s is
    supplied to [search], on a clock that advances one second per reading;
    the run makes no timeout check in front of either evaluation, and it
    returns a result although the elapsed time, 1 s, is above the timeout. *)
Lemma zero_timeout_is_never_checked :
  exists r w,
    search Demo.call Demo.extract_mirrors Demo.steady_clock Demo.frames
           Demo.mirror_example "t" Demo.dsl_module Demo.constants_module
           (Some 1%Z) (Some 0%Q) 1 world0
    = (Returns (Some r), w) /\
    log w = [EvTime AtStart 0; EvEvaluate Demo.hmirror_I false;
             EvEvaluate Demo.vmirror_I true; EvTime AtFound 1] /\
    Qgtb (time_elapsed r) 0 = true.
Proof. eexists _, _. vm_compute. repeat split. Qed.

(** Counterexample to C10 read for every timeout: the generator does
    produce a first hypothesis, but the timeout fires at the first check and
    the search over zero examples returns [None]. *)
Lemma zero_examples_search_times_out :
  generate_hypotheses Demo.frames 1 Demo.mirrors
  = Ok [Demo.hmirror_I; Demo.vmirror_I] /\
  fst (search Demo.call Demo.extract_mirrors Demo.jumping_clock Demo.frames [] "t"
              Demo.dsl_module Demo.constants_module (Some 1%Z) (Some (1 # 2)%Q)
              1 world0)
  = Returns None.
Proof. split; vm_compute; reflexivity. Qed.

(** Scenario B: the two-step program is found at depth 2. *)
Example scenario_B_found_at_depth_2 :
  exists r w,
    search Demo.call Demo.extract_library Demo.steady_clock Demo.frames
           Demo.stack_example "b" Demo.dsl_module Demo.constants_module
           (Some 2%Z) None 2 world0
    = (Returns (Some r), w) /\
    depth r = 2 /\
    steps (hypothesis r)
    = [PrimitiveCall "hmirror" [Demo.I_arg] "x1";
       PrimitiveCall "vconcat" [{| kind := variable; value := "x1" |}; Demo.I_arg] "O"].
Proof. eexists _, _. vm_compute. repeat split. Qed.

(** Scenario D: the same example searched with [max_depth = 1] has no
    result. *)
Example scenario_D_depth_budget :
  fst (search Demo.call Demo.extract_library Demo.steady_clock Demo.frames
              Demo.stack_example "b" Demo.dsl_module Demo.constants_module
              (Some 1%Z) None 1 world0)
  = Returns None.
Proof. vm_compute. reflexivity. Qed.

(** Scenario A: [vmirror] is found at depth 1, after [hmirror] failed. *)
Lemma search_first_passing_witness :
  exists r w',
    search Demo.call Demo.extract_mirrors Demo.steady_clock Demo.frames
           Demo.mirror_example "t" Demo.dsl_module Demo.constants_module
           (Some 1%Z) (Some 10%Q) 1 world0
    = (Returns (Some r), w') /\
    hypothesis r = Demo.vmirror_I /\
    exists before after,
      generate_hypotheses Demo.frames (depth r) (Demo.extract_mirrors Demo.dsl_module)
      = Ok (before ++ hypothesis r :: after) /\
      Forall (fun h => passes Demo.call Demo.mirror_example Demo.dsl_module
                              Demo.constants_module h = false) before /\
      passes Demo.call Demo.mirror_example Demo.dsl_module Demo.constants_module
             (hypothesis r) = true /\
      hypotheses_tried r = length before + 1 /\
      length (steps (hypothesis r)) = depth r /\
      (forall j hs h, 1 <= j < depth r ->
                      generate_at_depth Demo.frames j
                        (Demo.extract_mirrors Demo.dsl_module) = Ok hs ->
                      In h hs ->
                      passes Demo.call Demo.mirror_example Demo.dsl_module
                             Demo.constants_module h = false).
Proof.
  eexists _, _. split; [vm_compute; reflexivity|]. split; [reflexivity|].
  eapply (search_returns_first_passing Demo.call Demo.extract_mirrors
            Demo.steady_clock Demo.frames Demo.mirror_example "t" Demo.dsl_module
            Demo.constants_module (Some 1%Z) (Some 10%Q) 1 world0).
  vm_compute. reflexivity.
Defined.

(** Scenario E: with a timeout of 2 s and a clock that jumps to 5 s before
    the second hypothesis, the check in front of [vmirror], which passes,
    fires, and the search returns [None]. *)
Lemma search_timeout_witness :
  ~ (2 == 0)%Q /\
  passes Demo.call Demo.mirror_example Demo.dsl_module Demo.constants_module
         Demo.vmirror_I = true /\
  fst (search Demo.call Demo.extract_mirrors Demo.jumping_clock Demo.frames
              Demo.mirror_example "t" Demo.dsl_module Demo.constants_module
              (Some 1%Z) (Some 2%Q) 1 world0)
  = Returns None.
Proof.
  assert (Hnz : ~ (2 == 0)%Q) by discriminate.
  split; [exact Hnz|]. split; [reflexivity|].
  destruct (search Demo.call Demo.extract_mirrors Demo.jumping_clock Demo.frames
              Demo.mirror_example "t" Demo.dsl_module Demo.constants_module
              (Some 1%Z) (Some 2%Q) 1 world0) as [out w'] eqn:Hrun.
  destruct (search_timeout_checked_between_hypotheses _ _ _ _ _ _ _ _ _ _ _ _ _ _
              Hnz Hrun) as (evs & Hlog & _ & Hfired).
  assert (Hw : w' = snd (search Demo.call Demo.extract_mirrors Demo.jumping_clock
                           Demo.frames Demo.mirror_example "t" Demo.dsl_module
                           Demo.constants_module (Some 1%Z) (Some 2%Q) 1 world0))
    by now rewrite Hrun.
  vm_compute in Hw. subst w'. vm_compute in Hlog. injection Hlog as <-.
  apply (Hfired [EvTime AtCheck 1; EvEvaluate Demo.hmirror_I false] 5%Q []);
    reflexivity.
Defined.

(** The 48 hypotheses of three steps over the two mirrors. *)
Lemma generate_at_depth_witness :
  exists hs,
    generate_at_depth Demo.frames 3 Demo.mirrors = Ok hs /\
    length hs = 48 /\
    forall h, In h hs ->
      length (steps h) = 3 /\
      map output_var (steps h) = var_names (3 - 1) ++ ["O"] /\
      List.NoDup (map output_var (steps h)) /\
      (3 = 1 -> exists step, steps h = [step] /\ returns_grid Demo.mirrors step).
Proof.
  eexists. split; [vm_compute; reflexivity|]. split; [reflexivity|].
  intros h. apply (generate_at_depth_shape Demo.frames 3 Demo.mirrors).
  vm_compute. reflexivity.
Defined.

Lemma zero_timeout_witness :
  (0 == 0)%Q /\
  search Demo.call Demo.extract_mirrors Demo.jumping_clock Demo.frames
         Demo.mirror_example "t" Demo.dsl_module Demo.constants_module
         (Some 1%Z) (Some 0%Q) 1 world0
  = search Demo.call Demo.extract_mirrors Demo.jumping_clock Demo.frames
           Demo.mirror_example "t" Demo.dsl_module Demo.constants_module
           (Some 1%Z) None 1 world0.
Proof.
  split; [reflexivity|].
  apply (zero_timeout_is_no_timeout Demo.call Demo.extract_mirrors
           Demo.jumping_clock Demo.frames Demo.mirror_example "t" Demo.dsl_module
           Demo.constants_module Demo.silent (Some 1%Z) 0%Q 1 world0).
  reflexivity.
Defined.

Lemma zero_examples_witness :
  exists r w',
    search Demo.call Demo.extract_mirrors Demo.steady_clock Demo.frames [] "t"
           Demo.dsl_module Demo.constants_module (Some 1%Z) (Some 10%Q) 1 world0
    = (Returns (Some r), w') /\
    hypothesis r = Demo.hmirror_I /\ hypotheses_tried r = 1.
Proof.
  apply (proj2 (zero_examples_accept_first Demo.call Demo.extract_mirrors
                  Demo.steady_clock Demo.frames "t" Demo.dsl_module
                  Demo.constants_module (Some 1%Z) (Some 10%Q))
               1 world0 1 Demo.hmirror_I [Demo.vmirror_I]).
  - reflexivity.
  - reflexivity.
  - lia.
  - intros t [= <-] _. reflexivity.
Defined.

(** [vconcat] over the input alone has the single binding [(I, I)]. *)
Lemma enumerate_bindings_witness :
  enumerate_bindings (snd Demo.vconcat_info) TypeEnv_new Demo.library
  = [[Demo.I_arg; Demo.I_arg]].
Proof.
  destruct (enumerate_bindings_cases (snd Demo.vconcat_info) TypeEnv_new Demo.library)
    as (_ & _ & Hfull).
  destruct Hfull as (-> & _).
  - discriminate.
  - vm_compute. intros [E | [E | []]]; discriminate E.
  - reflexivity.
Defined.

Lemma hypothesis_to_lambda_witness :
  hypothesis_to_lambda Demo.vmirror_I = Ok "lambda I: vmirror(I)".
Proof.
  destruct (hypothesis_to_lambda_domain Demo.vmirror_I) as (_ & Hok & _).
  now rewrite (Hok _ _ _ eq_refl).
Defined.

(** The evaluator on scenario A: [vmirror] is accepted; [hmirror] and a
    call of an undefined primitive are rejected without an exception. *)
Lemma evaluate_hypothesis_witness :
  evaluate_hypothesis Demo.call Demo.vmirror_I Demo.mirror_example
                      Demo.dsl_module Demo.constants_module = Ok true /\
  evaluate_hypothesis Demo.call Demo.hmirror_I Demo.mirror_example
                      Demo.dsl_module Demo.constants_module = Ok false /\
  evaluate_hypothesis Demo.call {| steps := [PrimitiveCall "nothing" [] "O"] |}
                      Demo.mirror_example Demo.dsl_module Demo.constants_module
  = Ok false.
Proof.
  split; [|split].
  - destruct (evaluate_hypothesis_iff Demo.call Demo.dsl_module
                Demo.constants_module Demo.vmirror_I Demo.mirror_example)
      as (b & -> & Hiff & _).
    f_equal. apply Hiff. intros i e [[= <- <-] | []]. reflexivity.
  - reflexivity.
  - destruct (evaluate_hypothesis_iff Demo.call Demo.dsl_module
                Demo.constants_module {| steps := [PrimitiveCall "nothing" [] "O"] |}
                Demo.mirror_example) as (b & -> & _ & Hfail).
    f_equal. eapply Hfail; [now left | reflexivity].
Defined.

(** The compatibility test of the package's own test suite, and a base
    type offered to a function-typed parameter. *)
Lemma callable_compatibility_witness :
  is_type_compatible (CallableType [Base GRID] (Base GRID))
                     (CallableType [Base ANY] (Base ANY)) = true /\
  is_type_compatible (Base GRID) (CallableType [Base ANY] (Base ANY)) = false.
Proof.
  destruct callable_compatibility_arity_only as [Harity Hbase]. split.
  - now apply Harity.
  - now apply Hbase.
Defined.

(* ===================================================================== *)
(** ** Further properties: the type system *)
(* ===================================================================== *)

(** X1. What may end a program: a type is compatible with a [GRID]
    parameter exactly when it is the wildcard, [GRID], [OBJECT] or [INDICES];
    no other base type and no function type is. *)
Theorem grid_compatible_types (t : Ty) :
  is_type_compatible t (Base GRID) = true
  <-> t = Base ANY \/ t = Base GRID \/ t = Base OBJECT \/ t = Base INDICES.
Proof.
  destruct t as [b | ins out].
  - destruct b; vm_compute; split; intros Hc; try discriminate Hc; auto;
      destruct Hc as [Hc | [Hc | [Hc | Hc]]]; discriminate Hc.
  - split; [intros Hc; discriminate Hc|].
    intros [Hc | [Hc | [Hc | Hc]]]; discriminate Hc.
Qed.

(** X2. A function-typed argument is accepted only by the wildcard
    parameter and by function-typed parameters of the same arity; every
    other base-typed parameter rejects it. *)
Theorem callable_argument_compatibility ai ao (p : Ty) :
  is_type_compatible (CallableType ai ao) p = true
  <-> p = Base ANY \/
      exists pi po, p = CallableType pi po /\ length pi = length ai.
Proof.
  destruct p as [b | pi po].
  - destruct b; cbn; split; intros Hc; try discriminate Hc; auto;
      destruct Hc as [Hc | (pi & po & Hc & _)]; discriminate Hc.
  - rewrite compatible_callable_callable, Nat.eqb_eq. split.
    + intros Hl. right. now exists pi, po.
    + intros [Hc | (pi' & po' & Hc & Hl)]; [discriminate Hc|].
      now injection Hc as -> ->.
Qed.

Lemma compatible_diag (t : Ty) : is_type_compatible t t = true.
Proof.
  unfold is_type_compatible.
  destruct (ty_eqb t (Base ANY)); [reflexivity|].
  now rewrite ty_eqb_refl.
Qed.

(** X3. Compatibility is reflexive: every type, base or function type, of
    whatever nesting, is compatible with itself. *)
Theorem compatible_refl (t : Ty) : is_type_compatible t t = true.
Proof. apply compatible_diag. Qed.

Lemma elem_of_frozenset (b : BaseType) l : b ∈ frozenset l <-> In b l.
Proof. unfold frozenset. rewrite elem_of_list_to_set. apply list_elem_of_In. Qed.

(** A set with two or more members inside a two-member set is that set. *)
Lemma two_members_fill (types : gset BaseType) a b x y rest :
  elements types = x :: y :: rest ->
  types ⊆ frozenset [a; b] ->
  types = frozenset [a; b].
Proof.
  intros Hel Hsub.
  assert (Hx : x ∈ types) by (apply elem_of_elements; rewrite Hel; left).
  assert (Hy : y ∈ types)
    by (apply elem_of_elements; rewrite Hel; right; left).
  assert (Hxy : x <> y).
  { pose proof (NoDup_elements types) as Hnd. rewrite Hel in Hnd.
    inversion Hnd as [|? ? Hnin _]; subst. intros ->. apply Hnin. left. }
  pose proof (Hsub _ Hx) as Hx'. pose proof (Hsub _ Hy) as Hy'.
  apply elem_of_frozenset in Hx', Hy'. simpl in Hx', Hy'.
  apply set_eq. intros z. split; [apply Hsub|].
  intros Hz%elem_of_frozenset. simpl in Hz.
  destruct Hx' as [<- | [<- | []]], Hy' as [<- | [<- | []]],
    Hz as [<- | [<- | []]]; congruence || assumption.
Qed.

(** X4. [get_type_union] returns [None] exactly on the empty set. On every
    other set except [{INTEGER, INTEGER_TUPLE}] its result is a common
    supertype: each member is compatible with it as a parameter type. On
    [{INTEGER, INTEGER_TUPLE}] it returns [INTEGER_TUPLE], with which
    [INTEGER] is not compatible. *)
Theorem get_type_union_supertype (types : gset BaseType) :
  (get_type_union types = None <-> types = ∅) /\
  (forall u,
      get_type_union types = Some u ->
      types <> frozenset NUMERICAL ->
      forall t, t ∈ types -> is_type_compatible (Base t) (Base u) = true) /\
  (get_type_union (frozenset NUMERICAL) = Some INTEGER_TUPLE /\
   is_type_compatible (Base INTEGER) (Base INTEGER_TUPLE) = false).
Proof.
  split; [|split].
  - unfold get_type_union. destruct (elements types) as [|x [|y rest]] eqn:Hel.
    + split; [intros _; now apply elements_empty_inv, leibniz_equiv in Hel|reflexivity].
    + split; [discriminate|]. intros ->. rewrite elements_empty in Hel. discriminate Hel.
    + split.
      * repeat case_bool_decide; discriminate.
      * intros ->. rewrite elements_empty in Hel. discriminate Hel.
  - intros u Hu Hnum t Ht. unfold get_type_union in Hu.
    destruct (elements types) as [|x [|y rest]] eqn:Hel; [discriminate Hu | |].
    + injection Hu as <-. apply elem_of_elements in Ht. rewrite Hel in Ht.
      apply list_elem_of_In in Ht as [<- | []]. apply compatible_diag.
    + assert (Hin : forall l, types ⊆ frozenset l -> In t l).
      { intros l Hsub. apply elem_of_frozenset, Hsub, Ht. }
      repeat case_bool_decide; injection Hu as <-.
      * exfalso. apply Hnum. eapply two_members_fill; eassumption.
      * match goal with Hs : types ⊆ frozenset PATCH |- _ =>
          apply Hin in Hs; simpl in Hs end.
        intuition (subst; reflexivity).
      * match goal with Hs : types ⊆ frozenset ELEMENT |- _ =>
          apply Hin in Hs; simpl in Hs end.
        intuition (subst; reflexivity).
      * match goal with Hs : types ⊆ frozenset PIECE |- _ =>
          apply Hin in Hs; simpl in Hs end.
        intuition (subst; reflexivity).
      * match goal with Hs : types ⊆ frozenset CONTAINER_TYPES |- _ =>
          apply Hin in Hs; simpl in Hs end.
        intuition (subst; reflexivity).
      * reflexivity.
  - split; vm_compute; reflexivity.
Qed.

(** The union of [{GRID, INDICES}] is [GRID], which accepts [INDICES]. *)
Lemma get_type_union_witness :
  get_type_union (frozenset [GRID; INDICES]) = Some GRID /\
  is_type_compatible (Base INDICES) (Base GRID) = true.
Proof.
  assert (Hu : get_type_union (frozenset [GRID; INDICES]) = Some GRID)
    by (vm_compute; reflexivity).
  split; [exact Hu|].
  destruct (get_type_union_supertype (frozenset [GRID; INDICES])) as (_ & Hsup & _).
  apply (Hsup GRID Hu).
  - intros E. apply (f_equal elements) in E. vm_compute in E. discriminate E.
  - apply elem_of_frozenset. right. now left.
Defined.

(* ===================================================================== *)
(** ** Further properties: type environments *)
(* ===================================================================== *)

Section Dict.
Context {V : Type}.
Implicit Types (d : list (string * V)) (k : string) (v : V).

Lemma dict_get_set_eq d k v : dict_get k (dict_set k v d) = Some v.
Proof.
  induction d as [|[k' v'] d IH]; simpl.
  - now rewrite String.eqb_refl.
  - destruct (String.eqb k' k) eqn:E; simpl; rewrite E; [reflexivity | exact IH].
Qed.

Lemma dict_get_set_ne d k k' v :
  k <> k' -> dict_get k' (dict_set k v d) = dict_get k' d.
Proof.
  intros Hne. induction d as [|[k0 v0] d IH]; simpl.
  - destruct (String.eqb_spec k k'); [contradiction | reflexivity].
  - destruct (String.eqb_spec k0 k) as [-> | Hk]; simpl.
    + destruct (String.eqb_spec k k'); [contradiction | reflexivity].
    + destruct (String.eqb k0 k'); [reflexivity | exact IH].
Qed.

Lemma dict_set_keys_present d k v :
  In k (map fst d) -> map fst (dict_set k v d) = map fst d.
Proof.
  induction d as [|[k0 v0] d IH]; simpl; [tauto|].
  intros Hin. destruct (String.eqb_spec k0 k) as [-> | Hk]; simpl; [reflexivity|].
  f_equal. apply IH. destruct Hin; [contradiction | assumption].
Qed.

Lemma dict_set_keys_fresh d k v :
  ~ In k (map fst d) -> map fst (dict_set k v d) = map fst d ++ [k].
Proof.
  induction d as [|[k0 v0] d IH]; simpl; [reflexivity|].
  intros Hin. destruct (String.eqb_spec k0 k) as [-> | Hk]; simpl; [tauto|].
  f_equal. apply IH. tauto.
Qed.

Lemma dict_get_is_Some d k : (exists v, dict_get k d = Some v) <-> In k (map fst d).
Proof.
  induction d as [|[k0 v0] d IH]; simpl.
  - split; [intros [v Hv]; discriminate Hv | tauto].
  - destruct (String.eqb_spec k0 k) as [-> | Hk].
    + split; [now left | intros _; now exists v0].
    + rewrite IH. split; [now right | intros [E | Hin]; [contradiction | exact Hin]].
Qed.

Lemma dict_get_In d k v : dict_get k d = Some v -> In (k, v) d.
Proof.
  induction d as [|[k0 v0] d IH]; simpl; [discriminate|].
  destruct (String.eqb_spec k0 k) as [-> | Hk].
  - intros [= ->]. now left.
  - intros Hg. right. now apply IH.
Qed.
End Dict.

(** X5. [TypeEnv.add] followed by [TypeEnv.get]: the added name reads back
    the added type, every other name reads as before, and the iteration order
    of the variables is kept: a rebound name keeps its position, a new name
    goes last. *)
Theorem env_add_get (env : TypeEnv) (n : string) (t : Ty) :
  env_get (env_add env n t) n = Some t /\
  (forall m, m <> n -> env_get (env_add env n t) m = env_get env m) /\
  (In n (map fst (variables env)) ->
   map fst (variables (env_add env n t)) = map fst (variables env)) /\
  (~ In n (map fst (variables env)) ->
   map fst (variables (env_add env n t)) = map fst (variables env) ++ [n]).
Proof.
  unfold env_get, env_add. cbn [variables]. repeat split.
  - apply dict_get_set_eq.
  - intros m Hm. apply dict_get_set_ne. congruence.
  - apply dict_set_keys_present.
  - apply dict_set_keys_fresh.
Qed.

Lemma env_add_get_witness :
  map fst (variables (env_add (env_add TypeEnv_new "x1" (Base OBJECT)) "I" (Base ANY)))
  = ["I"; "x1"].
Proof.
  destruct (env_add_get TypeEnv_new "x1" (Base OBJECT)) as (_ & _ & _ & Hfresh).
  destruct (env_add_get (env_add TypeEnv_new "x1" (Base OBJECT)) "I" (Base ANY))
    as (_ & _ & Hpresent & _).
  rewrite Hpresent, Hfresh.
  - reflexivity.
  - simpl. intros [E | []]. discriminate E.
  - rewrite Hfresh; [now left | simpl; intros [E | []]; discriminate E].
Defined.

(** The names bound after replaying some steps from an environment. *)
Lemma replay_bound primitives l :
  forall env name,
    (exists t, env_get
                 (fold_left (fun env step =>
                               env_add env (output_var step)
                                       (step_type primitives env step)) l env)
                 name = Some t)
    <-> (exists t, env_get env name = Some t) \/ In name (map output_var l).
Proof.
  induction l as [|s l IH]; intros env name; cbn [fold_left map In].
  - tauto.
  - rewrite IH. destruct (String.eqb_spec (output_var s) name) as [E | Hne].
    + subst name. split; [tauto|]. intros _. left. unfold env_get, env_add.
      cbn [variables]. rewrite dict_get_set_eq. eauto.
    + unfold env_get at 1, env_add. cbn [variables].
      rewrite dict_get_set_ne by assumption. fold (env_get env name). tauto.
Qed.

Lemma replay_keeps primitives l :
  forall env name,
    ~ In name (map output_var l) ->
    env_get (fold_left (fun env step =>
                          env_add env (output_var step)
                                  (step_type primitives env step)) l env) name
    = env_get env name.
Proof.
  induction l as [|s l IH]; intros env name Hnin; cbn [fold_left map In] in *;
    [reflexivity|].
  rewrite IH by tauto. unfold env_get, env_add. cbn [variables].
  apply dict_get_set_ne. tauto.
Qed.

Lemma build_type_env_bound h primitives name :
  (exists t, env_get (build_type_env h primitives) name = Some t)
  <-> name = "I" \/ In name (map output_var (steps h)).
Proof.
  unfold build_type_env. rewrite replay_bound.
  assert (Hnew : (exists t, env_get TypeEnv_new name = Some t) <-> name = "I").
  { unfold env_get, TypeEnv_new. cbn [variables dict_get].
    destruct (String.eqb_spec "I" name) as [<- | Hne].
    - split; eauto.
    - split; [intros [t Ht]; discriminate Ht | congruence]. }
  now rewrite Hnew.
Qed.

Lemma build_type_env_input h primitives :
  ~ In "I" (map output_var (steps h)) ->
  env_get (build_type_env h primitives) "I" = Some (Base GRID).
Proof. intros Hnin. unfold build_type_env. now rewrite replay_keeps. Qed.

(** X6. The environment [build_type_env] derives from a hypothesis binds
    exactly the input name ["I"] and the output variables of its steps, for
    any hypothesis and catalog; and the input keeps the type [GRID] unless
    some step is itself bound to ["I"]. *)
Theorem build_type_env_domain (h : Hyp) (primitives : Catalog) :
  (forall name,
      (exists t, env_get (build_type_env h primitives) name = Some t)
      <-> name = "I" \/ In name (map output_var (steps h))) /\
  (~ In "I" (map output_var (steps h)) ->
   env_get (build_type_env h primitives) "I" = Some (Base GRID)).
Proof.
  split; [intros name; apply build_type_env_bound | apply build_type_env_input].
Qed.

Lemma build_type_env_witness :
  env_get (build_type_env Demo.vmirror_I Demo.mirrors) "I" = Some (Base GRID).
Proof.
  apply (proj2 (build_type_env_domain Demo.vmirror_I Demo.mirrors)).
  simpl. intros [E | []]. discriminate E.
Defined.

(* ===================================================================== *)
(** ** Further properties: the generator *)
(* ===================================================================== *)

Lemma in_singleton_if {A} (c : bool) (x a : A) :
  In a (if c then [x] else []) <-> c = true /\ a = x.
Proof.
  destruct c; simpl; [|intuition discriminate].
  split; [intros [<- | []]; auto | intros [_ ->]; now left].
Qed.

Lemma in_get_possible_arguments param_type env primitives include_primitives a :
  In a (get_possible_arguments param_type env primitives include_primitives)
  <-> match kind a with
      | input =>
          value a = "I" /\ is_type_compatible (Base GRID) param_type = true
      | constant =>
          exists t, In (value a, t) CONSTANTS /\
                    is_type_compatible t param_type = true
      | variable =>
          value a <> "I" /\
          exists t, In (value a, t) (variables env) /\
                    is_type_compatible t param_type = true
      | primitive =>
          (include_primitives = true \/ is_callable param_type = true) /\
          exists info,
            In (value a, info) primitives /\
            is_type_compatible
              (CallableType (param_types info) (return_type info)) param_type = true
      end.
Proof.
  unfold get_possible_arguments. rewrite !in_app_iff, in_singleton_if, !in_flat_map.
  destruct a as [k v]. cbn [kind value]. split.
  - intros [[Hc E] | [([c t] & Hin & Ha) | [([x t] & Hin & Ha) | Hp]]].
    + injection E as -> ->. now split.
    + cbn [fst snd] in Ha. apply in_singleton_if in Ha as [Hc E].
      injection E as -> ->. now exists t.
    + cbn [fst snd] in Ha. destruct (String.eqb_spec x "I") as [-> | Hx];
        [destruct Ha|].
      apply in_singleton_if in Ha as [Hc E]. injection E as -> ->.
      split; [exact Hx | now exists t].
    + destruct (include_primitives || is_callable param_type) eqn:Hinc;
        [|destruct Hp].
      apply in_flat_map in Hp as ([p info] & Hin & Ha). cbn [fst snd] in Ha.
      apply in_singleton_if in Ha as [Hc E]. injection E as -> ->.
      apply orb_true_iff in Hinc. split; [exact Hinc | now exists info].
  - destruct k.
    + intros (t & Hin & Hc). right. left. exists (v, t). split; [exact Hin|].
      cbn [fst snd]. now apply in_singleton_if.
    + intros (Hv & t & Hin & Hc). right. right. left. exists (v, t).
      split; [exact Hin|]. cbn [fst snd].
      destruct (String.eqb_spec v "I"); [contradiction|]. now apply in_singleton_if.
    + intros [-> Hc]. left. now split.
    + intros (Hinc & info & Hin & Hc). right. right. right.
      apply orb_true_iff in Hinc. rewrite Hinc. apply in_flat_map.
      exists (v, info). split; [exact Hin|]. cbn [fst snd]. now apply in_singleton_if.
Qed.

(** X7. The candidates [get_possible_arguments] offers for a parameter
    are exactly: the input when [GRID] is compatible with the parameter
    type; the constants of the registry, the variables of the environment
    other than ["I"], each when its type is compatible; and, only if
    primitives are allowed or the parameter is function-typed, the catalog
    primitives whose signature, read as a function type, is compatible. *)
Theorem get_possible_arguments_spec param_type env primitives include_primitives a :
  In a (get_possible_arguments param_type env primitives include_primitives)
  <-> match kind a with
      | input =>
          value a = "I" /\ is_type_compatible (Base GRID) param_type = true
      | constant =>
          exists t, In (value a, t) CONSTANTS /\
                    is_type_compatible t param_type = true
      | variable =>
          value a <> "I" /\
          exists t, In (value a, t) (variables env) /\
                    is_type_compatible t param_type = true
      | primitive =>
          (include_primitives = true \/ is_callable param_type = true) /\
          exists info,
            In (value a, info) primitives /\
            is_type_compatible
              (CallableType (param_types info) (return_type info)) param_type = true
      end.
Proof. apply in_get_possible_arguments. Qed.

Lemma collect_options_inv f tys options :
  collect_options f tys = Some options -> options = map f tys /\ ~ In [] options.
Proof.
  revert options. induction tys as [|t ts IH]; intros options; simpl.
  - intros [= <-]. now split.
  - destruct (f t) as [|a l] eqn:E; [discriminate|].
    destruct (collect_options f ts) as [o|]; [|discriminate].
    intros [= <-]. destruct (IH o eq_refl) as [-> Hn]. split; [reflexivity|].
    intros [E' | Hin]; [discriminate E' | contradiction].
Qed.

Lemma collect_options_none_inv f tys :
  collect_options f tys = None -> In [] (map f tys).
Proof.
  induction tys as [|t ts IH]; simpl; [discriminate|].
  destruct (f t) as [|a l]; [now left|].
  destruct (collect_options f ts); [discriminate|]. intros _. right. now apply IH.
Qed.

Lemma Forall2_in_map (f : Ty -> list Argument) tys :
  forall b,
    Forall2 (fun x pool => In x pool) b (map f tys)
    <-> Forall2 (fun a ty => In a (f ty)) b tys.
Proof.
  induction tys as [|t ts IH]; intros b; simpl.
  - split; intros HF; inversion HF; constructor.
  - split; intros HF; inversion HF; subst; constructor; try assumption;
      now apply IH.
Qed.

(** A product over candidate lists, with the early exits of the source
    taken into account. *)
Lemma in_bindings f tys b :
  In b (if Nat.eqb (length tys) 0 then [[]]
        else match collect_options f tys with
             | None => []
             | Some param_options => product param_options
             end)
  <-> Forall2 (fun a ty => In a (f ty)) b tys.
Proof.
  rewrite <- Forall2_in_map, <- in_product.
  destruct tys as [|t ts]; [reflexivity|]. cbn [length Nat.eqb].
  destruct (collect_options f (t :: ts)) as [o|] eqn:E.
  - now apply collect_options_inv in E as [-> _].
  - apply collect_options_none_inv in E. now rewrite product_empty_pool.
Qed.

Lemma in_enumerate_bindings info env primitives b :
  In b (enumerate_bindings info env primitives)
  <-> Forall2 (fun a ty => In a (binding_options info env primitives ty))
              b (param_types info).
Proof. apply in_bindings. Qed.

(** X8. The bindings [enumerate_call_bindings] yields for calling a
    function-typed variable are exactly the argument tuples that give each
    input type, in order, one of its candidates, primitives never being
    offered unless the input is itself function-typed; in particular every
    binding has as many arguments as the function type has inputs. *)
Theorem enumerate_call_bindings_spec input_types env primitives b :
  (In b (enumerate_call_bindings input_types env primitives)
   <-> Forall2 (fun a ty => In a (get_possible_arguments ty env primitives false))
               b input_types) /\
  (In b (enumerate_call_bindings input_types env primitives) ->
   length b = length input_types).
Proof.
  assert (Hiff := in_bindings
                    (fun ty => get_possible_arguments ty env primitives false)
                    input_types b).
  split; [exact Hiff|].
  intros Hin. apply Hiff in Hin. now apply Forall2_length in Hin.
Qed.

Lemma enumerate_call_bindings_witness :
  length [Demo.I_arg] = length [Base GRID].
Proof.
  apply (proj2 (enumerate_call_bindings_spec [Base GRID] TypeEnv_new Demo.mirrors
                  [Demo.I_arg])).
  vm_compute. now left.
Defined.

(** X9. The special case the generator makes of depth 2 yields the same
    sequence as the general scheme used from depth 3 on: at every depth
    [d >= 2], [generate_at_depth] is the concatenation, over the partial
    hypotheses of depth [d - 1] in order, of their final extensions. *)
Theorem depth_two_follows_general_scheme frames d primitives :
  2 <= d ->
  generate_at_depth frames d primitives
  = (partials <- generate_partials_at_depth frames (d - 1) primitives ;;
     Ok (flat_map (fun partial => extend_hypothesis partial primitives true)
                  partials))%result.
Proof. apply generate_at_depth_general. Qed.

Lemma depth_two_witness :
  generate_at_depth Demo.frames 2 Demo.library
  = (partials <- generate_partials_at_depth Demo.frames (2 - 1) Demo.library ;;
     Ok (flat_map (fun partial => extend_hypothesis partial Demo.library true)
                  partials))%result.
Proof.
  apply (depth_two_follows_general_scheme Demo.frames 2 Demo.library). lia.
Defined.

(** What a step added by [extend_hypothesis] is made of. *)
Lemma extend_hypothesis_inv partial primitives is_final h :
  In h (extend_hypothesis partial primitives is_final) ->
  let env := build_type_env partial primitives in
  let new_var := if is_final then "O" else next_var_name partial in
  (exists p info binding,
      In (p, info) primitives /\
      (is_final = true ->
       is_type_compatible (return_type info) (Base GRID) = true) /\
      In binding (enumerate_bindings info env primitives) /\
      steps h = steps partial ++ [PrimitiveCall p binding new_var]) \/
  (exists c ins out binding,
      env_get env c = Some (CallableType ins out) /\
      (is_final = true -> is_type_compatible out (Base GRID) = true) /\
      In binding (enumerate_call_bindings ins env primitives) /\
      steps h = steps partial ++ [CallVariable c binding new_var]).
Proof.
  unfold extend_hypothesis. intros Hin. cbv zeta.
  apply in_app_or in Hin as [Hin | Hin].
  - left. apply in_flat_map in Hin as ([p info] & Hp & Hin). cbn [fst snd] in Hin.
    destruct is_final; cbn [andb] in Hin.
    + destruct (is_type_compatible (return_type info) (Base GRID)) eqn:Hc;
        [|destruct Hin].
      apply in_map_iff in Hin as (binding & <- & Hb). now exists p, info, binding.
    + apply in_map_iff in Hin as (binding & <- & Hb). exists p, info, binding.
      repeat split; try assumption. discriminate.
  - right. apply in_flat_map in Hin as (c & _ & Hin).
    destruct (env_get _ c) as [[bt | ins out]|] eqn:Hc; try destruct Hin.
    destruct is_final; cbn [andb] in Hin.
    + destruct (is_type_compatible out (Base GRID)) eqn:Hg; [|destruct Hin].
      apply in_map_iff in Hin as (binding & <- & Hb). now exists c, ins, out, binding.
    + apply in_map_iff in Hin as (binding & <- & Hb). exists c, ins, out, binding.
      repeat split; try assumption. discriminate.
Qed.

Lemma final_extension_grid partial primitives h :
  In h (extend_hypothesis partial primitives true) -> grid_final primitives h.
Proof.
  intros Hin. apply extend_hypothesis_inv in Hin. cbv zeta in Hin.
  destruct Hin as [(p & info & b & Hp & Hc & _ & Hs)
                  | (c & ins & out & b & Hc & Hg & _ & Hs)].
  - exists (steps partial), (PrimitiveCall p b "O"). repeat split; try assumption.
    exists info. auto.
  - exists (steps partial), (CallVariable c b "O"). repeat split; try assumption.
    exists ins, out. destruct partial as [l]. auto.
Qed.

(** X10. At every depth [d >= 1], each hypothesis the generator yields
    ends in a step bound to ["O"] whose declared result type is
    grid-compatible: the return type the catalog gives the primitive it
    calls or, for a call of a function-typed variable, the output type that
    variable has in the environment of the preceding steps. *)
Theorem generated_hypotheses_end_in_grid frames d primitives hs h :
  generate_at_depth frames d primitives = Ok hs -> In h hs -> grid_final primitives h.
Proof.
  intros Hgen Hin. destruct d as [|[|d]].
  - rewrite generate_at_depth_zero in Hgen. discriminate Hgen.
  - injection Hgen as <-.
    apply generate_single_step_shape in Hin as (s & Hs & p & info & b & -> & Hp & Hc).
    exists [], (PrimitiveCall p b "O"). repeat split; [exact Hs|]. now exists info.
  - rewrite generate_at_depth_general in Hgen by lia.
    destruct (generate_partials_at_depth frames _ primitives) as [partials|];
      [|discriminate Hgen].
    injection Hgen as <-. apply in_flat_map in Hin as (partial & _ & Hin).
    eapply final_extension_grid, Hin.
Qed.

Lemma generated_end_in_grid_witness : grid_final Demo.mirrors Demo.vmirror_I.
Proof.
  apply (generated_hypotheses_end_in_grid Demo.frames 1 Demo.mirrors
           [Demo.hmirror_I; Demo.vmirror_I] Demo.vmirror_I eq_refl).
  right. now left.
Defined.

Lemma not_I_var_names n : ~ In "I" (var_names n).
Proof.
  unfold var_names. intros Hin. apply in_map_iff in Hin as (i & E & _).
  discriminate E.
Qed.

Lemma well_scoped_snoc primitives l s :
  forall bound,
    well_scoped primitives bound (l ++ [s])
    <-> well_scoped primitives bound l /\
        step_in_scope primitives (bound ++ map output_var l) s.
Proof.
  induction l as [|x l IH]; intros bound; cbn [app well_scoped map].
  - rewrite app_nil_r. tauto.
  - rewrite IH, <- app_assoc. cbn [app]. tauto.
Qed.

(** Candidates computed in the environment of a hypothesis refer to the
    variables its steps bind. *)
Lemma candidates_in_scope primitives partial param_type include_primitives a :
  ~ In "I" (map output_var (steps partial)) ->
  In a (get_possible_arguments param_type (build_type_env partial primitives)
                               primitives include_primitives) ->
  arg_in_scope primitives (map output_var (steps partial)) a.
Proof.
  intros HI Hin. apply in_get_possible_arguments in Hin. unfold arg_in_scope.
  destruct (kind a).
  - destruct Hin as (t & Hin & _). apply in_map_iff. now exists (value a, t).
  - destruct Hin as (Hne & t & Hin & _).
    assert (Hkey : In (value a) (map fst (variables (build_type_env partial primitives)))).
    { apply in_map_iff. now exists (value a, t). }
    apply dict_get_is_Some, build_type_env_bound in Hkey. tauto.
  - exact I.
  - destruct Hin as (_ & info & Hin & _). apply in_map_iff. now exists (value a, info).
Qed.

Lemma Forall2_in_Forall {A B} (P : A -> Prop) (f : B -> list A) b tys :
  (forall ty a, In a (f ty) -> P a) ->
  Forall2 (fun a ty => In a (f ty)) b tys -> Forall P b.
Proof. intros HP HF. induction HF; constructor; eauto. Qed.

Lemma primitive_step_in_scope primitives partial p info binding o :
  ~ In "I" (map output_var (steps partial)) ->
  In (p, info) primitives ->
  In binding (enumerate_bindings info (build_type_env partial primitives) primitives) ->
  step_in_scope primitives (map output_var (steps partial))
                (PrimitiveCall p binding o).
Proof.
  intros HI Hp Hb. split.
  - apply in_map_iff. now exists (p, info).
  - apply in_enumerate_bindings in Hb.
    eapply Forall2_in_Forall; [|exact Hb].
    intros ty a. unfold binding_options. now apply candidates_in_scope.
Qed.

Lemma extension_well_scoped primitives partial is_final h :
  well_scoped primitives [] (steps partial) ->
  ~ In "I" (map output_var (steps partial)) ->
  In h (extend_hypothesis partial primitives is_final) ->
  well_scoped primitives [] (steps h).
Proof.
  intros Hws HI Hin. apply extend_hypothesis_inv in Hin. cbv zeta in Hin.
  destruct Hin as [(p & info & b & Hp & _ & Hb & ->)
                  | (c & ins & out & b & Hc & _ & Hb & ->)];
    apply well_scoped_snoc; (split; [exact Hws|]); cbn [app].
  - eapply primitive_step_in_scope; eassumption.
  - split.
    + assert (Hbound : exists t, env_get (build_type_env partial primitives) c = Some t)
        by eauto.
      apply build_type_env_bound in Hbound as [-> | Hbound]; [|exact Hbound].
      rewrite build_type_env_input in Hc by assumption. discriminate Hc.
    + apply in_bindings in Hb. eapply Forall2_in_Forall; [|exact Hb].
      intros ty a. now apply candidates_in_scope.
Qed.

Lemma first_step_well_scoped primitives p info binding o :
  In (p, info) primitives ->
  In binding (enumerate_bindings info TypeEnv_new primitives) ->
  well_scoped primitives [] [PrimitiveCall p binding o].
Proof.
  intros Hp Hb. split; [|exact I].
  apply (primitive_step_in_scope primitives {| steps := [] |} p info binding o);
    [intros [] | exact Hp | exact Hb].
Qed.

Lemma partials_well_scoped primitives frames d hs h :
  generate_partials_at_depth frames d primitives = Ok hs -> In h hs ->
  well_scoped primitives [] (steps h).
Proof.
  intros Hgen Hin.
  enough (map output_var (steps h) = var_names d /\
          well_scoped primitives [] (steps h)) by tauto.
  revert frames d hs h Hgen Hin.
  apply (generate_partials_induction primitives
           (fun d h => map output_var (steps h) = var_names d /\
                       well_scoped primitives [] (steps h))).
  - intros p info binding Hp Hb. split; [reflexivity|].
    eapply first_step_well_scoped; eassumption.
  - intros d partial h [Hnames Hws] Hin. split.
    + apply extend_hypothesis_shape in Hin as (step & Hsteps & Hout).
      assert (Hlen : length (steps partial) + 1 = S (S d)).
      { apply (f_equal (@length string)) in Hnames.
        rewrite length_map, length_var_names in Hnames. lia. }
      rewrite Hsteps, map_app, Hnames, (var_names_S (S d)).
      cbn [map]. rewrite Hout. unfold next_var_name. now rewrite Hlen.
    + eapply extension_well_scoped; [exact Hws | | exact Hin].
      rewrite Hnames. apply not_I_var_names.
Qed.

(** X11. No generated hypothesis uses a name before it is defined: at
    every depth, each step of each hypothesis calls a primitive of the
    catalog or a variable bound by an earlier step, and each of its arguments
    is the input, a constant of the registry, a primitive of the catalog, or
    a variable bound by an earlier step. *)
Theorem generated_hypotheses_well_scoped frames d primitives hs h :
  generate_at_depth frames d primitives = Ok hs -> In h hs ->
  well_scoped primitives [] (steps h).
Proof.
  intros Hgen Hin. destruct d as [|[|d]].
  - rewrite generate_at_depth_zero in Hgen. discriminate Hgen.
  - injection Hgen as <-. unfold generate_single_step in Hin.
    apply in_flat_map in Hin as ([p info] & Hp & Hin). cbn [fst snd] in Hin.
    destruct (negb _); [destruct Hin|].
    apply in_map_iff in Hin as (binding & <- & Hb).
    eapply first_step_well_scoped; eassumption.
  - rewrite generate_at_depth_general in Hgen by lia.
    replace (S (S d) - 1) with (S d) in Hgen by lia.
    destruct (generate_partials_at_depth frames (S d) primitives) as [partials|] eqn:E;
      [|discriminate Hgen].
    injection Hgen as <-. apply in_flat_map in Hin as (partial & Hp & Hin).
    eapply extension_well_scoped; [eapply partials_well_scoped; eauto | | exact Hin].
    rewrite (generate_partials_names _ _ _ _ _ E Hp). apply not_I_var_names.
Qed.

Lemma generated_well_scoped_witness :
  exists hs,
    generate_at_depth Demo.frames 2 Demo.library = Ok hs /\
    forall h, In h hs -> well_scoped Demo.library [] (steps h).
Proof.
  eexists. split; [reflexivity|]. intros h.
  apply (generated_hypotheses_well_scoped Demo.frames 2 Demo.library). reflexivity.
Defined.

(** What an enumeration over a list of depths contains. *)
Lemma generate_depths_lengths frames depths primitives :
  forall l,
    generate_depths frames depths primitives = Ok l ->
    forall h, In h l -> In (length (steps h)) depths.
Proof.
  induction depths as [|d depths IH]; intros l Hgen h Hin.
  - injection Hgen as <-. destruct Hin.
  - cbn [generate_depths] in Hgen.
    destruct (generate_at_depth frames d primitives) as [hs|] eqn:Hhs;
      [|discriminate Hgen].
    cbn [rbind] in Hgen.
    destruct (generate_depths frames depths primitives) as [later|];
      [|discriminate Hgen].
    cbn [rbind] in Hgen. injection Hgen as <-.
    apply in_app_or in Hin as [Hin | Hin].
    + left. symmetry. eapply generate_at_depth_length; eassumption.
    + right. eapply IH; [reflexivity | exact Hin].
Qed.

(** An enumeration that is generated splits at every smaller depth. *)
Lemma generate_hypotheses_split frames d d' primitives l' :
  d <= d' ->
  generate_hypotheses frames d' primitives = Ok l' ->
  exists l more,
    generate_hypotheses frames d primitives = Ok l /\
    generate_depths frames (seq (S d) (d' - d)) primitives = Ok more /\
    l' = l ++ more.
Proof.
  intros Hd Hgen. unfold generate_hypotheses in *.
  replace (seq 1 d') with (seq 1 d ++ seq (S d) (d' - d)) in Hgen.
  - rewrite generate_depths_app in Hgen.
    destruct (generate_depths frames (seq 1 d) primitives) as [l|];
      [|discriminate Hgen].
    cbn [rbind] in Hgen.
    destruct (generate_depths frames (seq (S d) (d' - d)) primitives) as [more|];
      [|discriminate Hgen].
    injection Hgen as <-. now exists l, more.
  - rewrite <- seq_app. f_equal. lia.
Qed.

(** X12. Iterative deepening only appends: whenever the enumeration up to
    a depth [d'] is generated, so is the enumeration up to every smaller
    depth [d], and it is a prefix of the former; the prefix holds the
    hypotheses of 1 to [d] steps, the rest those of [d + 1] to [d'] steps. *)
Theorem generate_hypotheses_prefix frames d d' primitives l' :
  d <= d' ->
  generate_hypotheses frames d' primitives = Ok l' ->
  exists l more,
    generate_hypotheses frames d primitives = Ok l /\
    l' = l ++ more /\
    (forall h, In h l -> 1 <= length (steps h) <= d) /\
    (forall h, In h more -> d < length (steps h) <= d').
Proof.
  intros Hd Hgen.
  destruct (generate_hypotheses_split _ _ _ _ _ Hd Hgen)
    as (l & more & Hl & Hmore & ->).
  exists l, more. split; [exact Hl|]. split; [reflexivity|]. split.
  - intros h Hin. apply (generate_depths_lengths _ _ _ _ Hl), in_seq in Hin. lia.
  - intros h Hin. apply (generate_depths_lengths _ _ _ _ Hmore), in_seq in Hin. lia.
Qed.

(** Over the two mirrors the enumeration up to depth 2 starts with the two
    hypotheses of depth 1. *)
Lemma generate_hypotheses_prefix_witness :
  exists more,
    generate_hypotheses Demo.frames 2 Demo.mirrors
    = Ok ([Demo.hmirror_I; Demo.vmirror_I] ++ more) /\
    forall h, In h more -> 1 < length (steps h) <= 2.
Proof.
  destruct (generate_hypotheses Demo.frames 2 Demo.mirrors) as [l'|] eqn:Hgen;
    [|vm_compute in Hgen; discriminate Hgen].
  destruct (generate_hypotheses_prefix Demo.frames 1 2 Demo.mirrors l'
              ltac:(lia) Hgen) as (l & more & Hl & -> & _ & Hmore).
  vm_compute in Hl. injection Hl as <-. now exists more.
Defined.

(* ===================================================================== *)
(** ** Further properties: the evaluator *)
(* ===================================================================== *)

Section EvaluatorMore.
Context {obj : Type} `{EqDecision obj}.
Variable call : obj -> list obj -> result obj.
Variables dsl_module constants_module : string -> option obj.

Local Abbreviation solves ex := (passes call ex dsl_module constants_module).

Lemma passes_iff examples h :
  solves examples h = true
  <-> forall i e, In (i, e) examples ->
                  execute_hypothesis call h i dsl_module constants_module = Ok e.
Proof.
  unfold passes.
  destruct (evaluate_returns call dsl_module constants_module h examples)
    as (b & -> & Hiff).
  exact Hiff.
Qed.

Lemma passes_app ex1 ex2 h :
  solves (ex1 ++ ex2) h = solves ex1 h && solves ex2 h.
Proof.
  apply Bool.eq_iff_eq_true. rewrite andb_true_iff, !passes_iff. split.
  - intros Hall. split; intros i e Hin; apply Hall, in_or_app; tauto.
  - intros [H1 H2] i e Hin. apply in_app_or in Hin as [Hin | Hin]; auto.
Qed.

Lemma passes_one i e h :
  solves [(i, e)] h
  = match execute_hypothesis call h i dsl_module constants_module with
    | Ok out => bool_decide (out = e)
    | Err _ => false
    end.
Proof.
  unfold passes. rewrite evaluate_cons. cbn [evaluate_hypothesis].
  destruct (execute_hypothesis call h i dsl_module constants_module);
    [|reflexivity].
  now case_bool_decide.
Qed.

(** X13. The verdict of [evaluate_hypothesis] on a concatenation of
    example lists is the conjunction of the verdicts on the parts, so adding
    examples can only turn acceptance into rejection; and the verdict depends
    only on which pairs occur, not on their order or repetition. *)
Theorem evaluate_examples_conjunction h ex1 ex2 :
  evaluate_hypothesis call h (ex1 ++ ex2) dsl_module constants_module
  = Ok (passes call ex1 dsl_module constants_module h
        && passes call ex2 dsl_module constants_module h) /\
  (forall ex ex',
      (forall pair, In pair ex <-> In pair ex') ->
      evaluate_hypothesis call h ex dsl_module constants_module
      = evaluate_hypothesis call h ex' dsl_module constants_module).
Proof.
  split.
  - now rewrite evaluate_passes, passes_app.
  - intros ex ex' Hsame. rewrite !evaluate_passes. f_equal.
    apply Bool.eq_iff_eq_true. rewrite !passes_iff.
    split; intros Hall i e Hin; apply Hall, Hsame, Hin.
Qed.

Lemma count_correct_filter h examples :
  forall correct,
    count_correct call h examples dsl_module constants_module correct
    = Ok (correct + length (List.filter (fun ex => solves [ex] h) examples)).
Proof.
  induction examples as [|[i e] rest IH]; intros correct; cbn [count_correct List.filter].
  - now rewrite Nat.add_0_r.
  - rewrite passes_one. unfold try_except, rbind at 2.
    destruct (execute_hypothesis call h i dsl_module constants_module) as [out|].
    + case_bool_decide; cbn [rbind]; rewrite IH; cbn [length]; f_equal; lia.
    + cbn [rbind]. now rewrite IH.
Qed.

(** X14. [evaluate_hypothesis_partial] never raises and returns the pair
    of the number of examples the hypothesis solves individually and the
    number of examples; the first is at most the second, and they are equal
    exactly when [evaluate_hypothesis] accepts the hypothesis. *)
Theorem evaluate_hypothesis_partial_counts h examples :
  let correct :=
    length (List.filter (fun ex => passes call [ex] dsl_module constants_module h)
                   examples) in
  evaluate_hypothesis_partial call h examples dsl_module constants_module
  = Ok (correct, length examples) /\
  correct <= length examples /\
  (correct = length examples
   <-> evaluate_hypothesis call h examples dsl_module constants_module = Ok true).
Proof.
  cbv zeta. split; [|split].
  - unfold evaluate_hypothesis_partial. now rewrite count_correct_filter.
  - apply List.filter_length_le.
  - rewrite evaluate_passes.
    induction examples as [|ex rest IH]; cbn [List.filter length].
    + split; reflexivity.
    + change (ex :: rest) with ([ex] ++ rest). rewrite passes_app.
      pose proof (List.filter_length_le (fun ex => solves [ex] h) rest) as Hle.
      destruct (solves [ex] h); cbn [length andb].
      * rewrite <- IH. split; [intros E; now injection E | intros ->; reflexivity].
      * split; [lia | discriminate].
Qed.
End EvaluatorMore.

Section ExecutionFacts.
Context {obj : Type} `{EqDecision obj}.
Variable call : obj -> list obj -> result obj.
Variables dsl_module constants_module : string -> option obj.

Lemma execute_steps_app l1 l2 (env : gmap string obj) :
  execute_steps call (l1 ++ l2) env dsl_module constants_module
  = (env' <- execute_steps call l1 env dsl_module constants_module ;;
     execute_steps call l2 env' dsl_module constants_module)%result.
Proof.
  revert env. induction l1 as [|s l1 IH]; intros env; cbn [app execute_steps rbind].
  - reflexivity.
  - destruct (execute_step call s env dsl_module constants_module) as [env'|];
      cbn [rbind]; [apply IH | reflexivity].
Qed.

(** A step that succeeds only adds the binding of its output variable. *)
Lemma execute_step_binds s (env env' : gmap string obj) :
  execute_step call s env dsl_module constants_module = Ok env' ->
  exists v, env' = <[output_var s := v]> env.
Proof.
  destruct s as [p args o | c args o]; cbn [execute_step output_var]; unfold rbind;
    repeat match goal with
           | |- context [match ?x with Ok _ => _ | Err _ => _ end] =>
               destruct x; try discriminate
           end;
    intros [= <-]; eauto.
Qed.

Lemma execute_steps_keeps l :
  forall (env env' : gmap string obj) name,
    execute_steps call l env dsl_module constants_module = Ok env' ->
    ~ In name (map output_var l) ->
    env' !! name = env !! name.
Proof.
  induction l as [|s l IH]; intros env env' name Hrun Hnin; cbn in Hrun.
  - now injection Hrun as <-.
  - destruct (execute_step call s env dsl_module constants_module) as [env1|] eqn:Hs;
      [|discriminate Hrun].
    cbn [rbind] in Hrun. cbn [map In] in Hnin.
    rewrite (IH _ _ _ Hrun) by tauto.
    apply execute_step_binds in Hs as [v ->].
    apply lookup_insert_ne. tauto.
Qed.

(** X15. [execute_hypothesis] can only succeed on a hypothesis one of
    whose steps is bound to ["O"]: on the empty hypothesis, and on any
    hypothesis that binds no step to ["O"], it raises, the error being
    [KeyError] on ["O"] when all steps themselves succeed. *)
Theorem execute_requires_output_step h (input_grid : obj) :
  (forall v,
      execute_hypothesis call h input_grid dsl_module constants_module = Ok v ->
      In "O" (map output_var (steps h))) /\
  (steps h = [] ->
   execute_hypothesis call h input_grid dsl_module constants_module
   = Err (KeyError "O")) /\
  (forall env,
      ~ In "O" (map output_var (steps h)) ->
      execute_steps call (steps h) {[ "I" := input_grid ]} dsl_module constants_module
      = Ok env ->
      execute_hypothesis call h input_grid dsl_module constants_module
      = Err (KeyError "O")).
Proof.
  assert (Hmiss : forall env,
             ~ In "O" (map output_var (steps h)) ->
             execute_steps call (steps h) {[ "I" := input_grid ]}
                           dsl_module constants_module = Ok env ->
             execute_hypothesis call h input_grid dsl_module constants_module
             = Err (KeyError "O")).
  { intros env Hnin Hrun. unfold execute_hypothesis. rewrite Hrun. cbn [rbind].
    unfold env_lookup. rewrite (execute_steps_keeps _ _ _ _ Hrun Hnin).
    now rewrite lookup_singleton_ne. }
  split; [|split].
  - intros v Hv.
    destruct (in_dec string_dec "O" (map output_var (steps h))) as [Hin | Hnin];
      [exact Hin|].
    unfold execute_hypothesis in Hv.
    destruct (execute_steps call (steps h) {[ "I" := input_grid ]}
                            dsl_module constants_module) as [env|] eqn:Hrun;
      [|discriminate Hv].
    pose proof (Hmiss env Hnin eq_refl) as Herr.
    unfold execute_hypothesis in Herr. rewrite Hrun in Herr. cbn [rbind] in Hv, Herr.
    congruence.
  - intros Hnil. apply (Hmiss {[ "I" := input_grid ]}); rewrite Hnil; [intros [] | reflexivity].
  - exact Hmiss.
Qed.

(** X16. For a hypothesis whose last step is bound to ["O"], execution
    succeeds with the value [v] exactly when the steps before the last
    succeed and the last step, run in the environment they leave, binds
    ["O"] to [v]: the result is the value the final step computes. *)
Theorem execute_returns_final_step h pre s (input_grid v : obj) :
  steps h = pre ++ [s] ->
  output_var s = "O" ->
  execute_hypothesis call h input_grid dsl_module constants_module = Ok v
  <-> exists env,
        execute_steps call pre {[ "I" := input_grid ]} dsl_module constants_module
        = Ok env /\
        execute_step call s env dsl_module constants_module
        = Ok (<[ "O" := v ]> env).
Proof.
  intros Hsteps Hout. unfold execute_hypothesis.
  rewrite Hsteps, execute_steps_app.
  destruct (execute_steps call pre {[ "I" := input_grid ]}
                          dsl_module constants_module) as [env|];
    cbn [rbind execute_steps].
  - destruct (execute_step call s env dsl_module constants_module) as [env'|] eqn:Hs;
      cbn [rbind].
    + destruct (execute_step_binds _ _ _ Hs) as [v' ->]. rewrite Hout in *.
      unfold env_lookup. rewrite lookup_insert_eq. split.
      * intros [= ->]. exists env. now split.
      * intros (env0 & [= <-] & E). f_equal.
        rewrite Hs in E. injection E as E.
        apply (f_equal (fun m : gmap string obj => m !! "O")) in E.
        rewrite !lookup_insert_eq in E. congruence.
    + split; [discriminate | intros (env0 & [= <-] & E); congruence].
  - split; [discriminate | intros (env0 & E & _); discriminate E].
Qed.

Lemma rmap_fails {A B} (f : A -> result B) l a :
  In a l -> (exists e, f a = Err e) -> exists e, rmap f l = Err e.
Proof.
  intros Hin [e He]. induction l as [|x l IH]; [destruct Hin|].
  cbn [rmap rbind]. destruct Hin as [-> | Hin].
  - rewrite He. eauto.
  - destruct (f x); [|eauto]. destruct (IH Hin) as [e' ->]. eauto.
Qed.

Lemma unresolvable_step_fails s (env : gmap string obj) :
  unresolvable dsl_module constants_module s ->
  exists e, execute_step call s env dsl_module constants_module = Err e.
Proof.
  intros [(p & args & o & -> & Hp) | (a & Hin & Ha)].
  - cbn [execute_step]. unfold getattr. rewrite Hp. cbn. eauto.
  - assert (Hargs : exists e,
               rmap (fun arg => resolve_arg arg env dsl_module constants_module)
                    (arguments s) = Err e).
    { apply (rmap_fails _ _ a Hin). unfold resolve_arg, getattr.
      destruct Ha as [[-> ->] | [-> ->]]; eauto. }
    destruct Hargs as [e He].
    destruct s as [p args o | c args o]; cbn [execute_step arguments] in *.
    + destruct (getattr dsl_module p); cbn [rbind]; [|eauto]. rewrite He. cbn. eauto.
    + destruct (env_lookup env c); cbn [rbind]; [|eauto]. rewrite He. cbn. eauto.
Qed.

Lemma unresolvable_steps_fail l s :
  In s l -> unresolvable dsl_module constants_module s ->
  forall env : gmap string obj,
    exists e, execute_steps call l env dsl_module constants_module = Err e.
Proof.
  intros Hin Hbad. induction l as [|x l IH]; intros env; [destruct Hin|].
  cbn [execute_steps]. destruct Hin as [-> | Hin].
  - destruct (unresolvable_step_fails s env Hbad) as [e ->]. cbn. eauto.
  - destruct (execute_step call x env dsl_module constants_module); cbn [rbind];
      [apply (IH Hin) | eauto].
Qed.

(** X17. A hypothesis with a step that calls a primitive missing from the
    library, or passes a constant or a primitive that does not exist, fails
    on every input, wherever that step stands and whatever the other steps
    do; [evaluate_hypothesis] therefore rejects it on every nonempty example
    list. *)
Theorem unresolvable_hypothesis_rejected h s examples :
  In s (steps h) ->
  unresolvable dsl_module constants_module s ->
  (forall input_grid,
      exists e,
        execute_hypothesis call h input_grid dsl_module constants_module = Err e) /\
  (examples <> [] ->
   evaluate_hypothesis call h examples dsl_module constants_module = Ok false).
Proof.
  intros Hin Hbad.
  assert (Hfail : forall input_grid, exists e,
             execute_hypothesis call h input_grid dsl_module constants_module = Err e).
  { intros input_grid. unfold execute_hypothesis.
    destruct (unresolvable_steps_fail _ _ Hin Hbad {[ "I" := input_grid ]}) as [e ->].
    cbn. eauto. }
  split; [exact Hfail|].
  destruct examples as [|[i e] rest]; [congruence|]. intros _.
  rewrite evaluate_cons. now destruct (Hfail i) as [err ->].
Qed.
End ExecutionFacts.

Lemma execute_requires_output_witness :
  execute_hypothesis Demo.call {| steps := [PrimitiveCall "hmirror" [Demo.I_arg] "x1"] |}
                     (Demo.Grid []) Demo.dsl_module Demo.constants_module
  = Err (KeyError "O").
Proof.
  eapply (proj2 (proj2 (execute_requires_output_step Demo.call Demo.dsl_module
                          Demo.constants_module _ _))).
  - simpl. intros [E | []]. discriminate E.
  - reflexivity.
Defined.

Lemma execute_final_step_witness :
  execute_hypothesis Demo.call Demo.vmirror_I (Demo.Grid [[1; 2]]%Z)
                     Demo.dsl_module Demo.constants_module
  = Ok (Demo.Grid [[2; 1]]%Z).
Proof.
  apply (execute_returns_final_step Demo.call Demo.dsl_module Demo.constants_module
           Demo.vmirror_I [] (PrimitiveCall "vmirror" [Demo.I_arg] "O")
           (Demo.Grid [[1; 2]]%Z) (Demo.Grid [[2; 1]]%Z) eq_refl eq_refl).
  eexists. split; reflexivity.
Defined.

Lemma unresolvable_hypothesis_witness :
  evaluate_hypothesis Demo.call
    {| steps := [PrimitiveCall "hmirror" [Demo.I_arg] "x1";
                 PrimitiveCall "vmirror" [{| kind := constant; value := "SEVEN" |}] "O"] |}
    Demo.mirror_example Demo.dsl_module Demo.constants_module
  = Ok false.
Proof.
  eapply (proj2 (unresolvable_hypothesis_rejected Demo.call Demo.dsl_module
                   Demo.constants_module _
                   (PrimitiveCall "vmirror" [{| kind := constant; value := "SEVEN" |}] "O")
                   Demo.mirror_example _ _)).
  discriminate.
  Unshelve.
  - right. now left.
  - right. eexists. split; [now left|]. left. split; reflexivity.
Defined.

(* ===================================================================== *)
(** ** Further properties: the search loops *)
(* ===================================================================== *)

Lemma evaluated_app evs1 evs2 : evaluated (evs1 ++ evs2) = evaluated evs1 ++ evaluated evs2.
Proof. unfold evaluated. apply flat_map_app. Qed.

Section SearchMore.
Context {obj : Type} `{EqDecision obj}.
Variable call : obj -> list obj -> result obj.
Variable extract_primitives : (string -> option obj) -> Catalog.
Variable clock : nat -> Q.
Variable frames : nat.
Variables (task_examples : list (obj * obj)) (task_id : string).
Variables dsl_module constants_module : string -> option obj.
Variable max_depth : option Z.

Local Abbreviation solves :=
  (passes call task_examples dsl_module constants_module).
Local Abbreviation loop timeout :=
  (search_depth call clock task_examples task_id dsl_module constants_module
                timeout).
Local Abbreviation while timeout :=
  (search_while call clock frames task_examples task_id dsl_module constants_module
                max_depth timeout).

(** The loop over one depth evaluates a prefix of its hypotheses, in
    order, and all of them when it falls through. *)
Lemma search_depth_evaluates timeout d start_time hs :
  forall total w out w',
    loop timeout hs d total start_time w = (out, w') ->
    exists evs rest,
      log w' = log w ++ evs /\
      hs = evaluated evs ++ rest /\
      (forall n, out = Returns (Exhausted n) -> rest = []) /\
      (forall r, out = Returns (Return_ (Some r)) ->
                 hypotheses_tried r = total + length (evaluated evs)).
Proof.
  induction hs as [|h hs IH]; intros total w out w' Hrun.
  - injection Hrun as <- <-. exists [], []. rewrite app_nil_r.
    split; [reflexivity|]. split; [reflexivity|]. split; [reflexivity|].
    intros r Hr. discriminate Hr.
  - rewrite search_depth_cons in Hrun.
    destruct (expired clock timeout start_time w).
    { injection Hrun as <- <-. unfold after_check.
      destruct (truthy timeout); cbn [log].
      - eexists _, (h :: hs). split; [reflexivity|]. split; [reflexivity|].
        split; intros x Hx; discriminate Hx.
      - exists [], (h :: hs). rewrite app_nil_r. split; [reflexivity|].
        split; [reflexivity|]. split; intros x Hx; discriminate Hx. }
    cbv zeta in Hrun.
    assert (Hlog : exists evs0,
               log (after_evaluate h (solves h) (after_check clock timeout w))
               = log w ++ evs0 /\ evaluated evs0 = [h]).
    { unfold after_check, after_evaluate. destruct (truthy timeout); cbn [log].
      - rewrite <- app_assoc. eexists. split; reflexivity.
      - eexists. split; reflexivity. }
    destruct Hlog as (evs0 & Hlog0 & Hev0).
    destruct (solves h).
    + injection Hrun as <- <-. cbn [log after_found]. rewrite Hlog0, <- app_assoc.
      eexists _, hs. split; [reflexivity|]. rewrite evaluated_app, Hev0.
      split; [reflexivity|]. split; [intros n Hn; discriminate Hn|].
      intros r [= <-]. cbn [hypotheses_tried length app evaluated flat_map]. lia.
    + destruct (IH _ _ _ _ Hrun) as (evs & rest & Hlog & Hhs & Hex & Ht).
      rewrite Hlog0, <- app_assoc in Hlog.
      exists (evs0 ++ evs), rest. split; [exact Hlog|].
      rewrite evaluated_app, Hev0. cbn [app]. split; [now rewrite Hhs|].
      split; [exact Hex|].
      intros r Hr. rewrite (Ht r Hr). cbn [length]. lia.
Qed.

Lemma search_while_evaluates timeout primitives start_time fuel :
  forall d total w out w' done,
    while timeout fuel primitives (S d) total start_time w = (out, w') ->
    generate_hypotheses frames d primitives = Ok done ->
    total = length done ->
    exists evs d' rest,
      log w' = log w ++ evs /\
      generate_hypotheses frames d' primitives = Ok (done ++ evaluated evs ++ rest) /\
      (forall r, out = Returns (Some r) ->
                 hypotheses_tried r = length (done ++ evaluated evs)).
Proof.
  assert (Hstop : forall d (w : world) (out : outcome (option SearchResult)) done,
             generate_hypotheses frames d primitives = Ok done ->
             (forall r, out <> Returns (Some r)) ->
             exists evs d' rest,
               log w = log w ++ evs /\
               generate_hypotheses frames d' primitives = Ok (done ++ evaluated evs ++ rest) /\
               (forall r, out = Returns (Some r) ->
                          hypotheses_tried r = length (done ++ evaluated evs))).
  { intros d w out done Hdone Hout. exists [], d, []. rewrite !app_nil_r.
    split; [reflexivity|]. split; [exact Hdone|].
    intros r Hr. now destruct (Hout r). }
  induction fuel as [|fuel IH]; intros d total w out w' done Hrun Hdone Htot.
  - rewrite search_while_0 in Hrun.
    destruct (within_depth max_depth (S d)); injection Hrun as <- <-;
      apply (Hstop d); auto; discriminate.
  - rewrite search_while_S in Hrun.
    destruct (within_depth max_depth (S d));
      [|injection Hrun as <- <-; apply (Hstop d); auto; discriminate].
    destruct (generate_at_depth frames (S d) primitives) as [hs|err] eqn:Hhs;
      [|injection Hrun as <- <-; apply (Hstop d); auto; discriminate].
    pose proof (generate_hypotheses_S _ _ _ _ _ Hdone Hhs) as Hnext.
    destruct (loop timeout hs (S d) total start_time w) as [out1 w1] eqn:Hloop.
    destruct (search_depth_evaluates _ _ _ _ _ _ _ _ Hloop)
      as (evs1 & rest1 & Hlog1 & Hsplit & Hex & Ht).
    destruct out1 as [[r | total'] | err |].
    + injection Hrun as <- <-. exists evs1, (S d), rest1.
      split; [exact Hlog1|]. split; [now rewrite Hnext, Hsplit|].
      intros r' [= ->]. rewrite (Ht r' eq_refl), length_app. lia.
    + rewrite (Hex _ eq_refl), app_nil_r in Hsplit.
      pose proof Hloop as Hexit. apply search_depth_exit in Hexit as [-> _].
      replace (S d + 1) with (S (S d)) in Hrun by lia.
      destruct (IH _ _ _ _ _ (done ++ hs) Hrun Hnext) as (evs2 & d' & rest & Hlog2 & Hgen & Ht2).
      { rewrite length_app. lia. }
      exists (evs1 ++ evs2), d', rest. rewrite Hlog2, Hlog1, app_assoc.
      split; [reflexivity|]. rewrite evaluated_app, <- Hsplit.
      rewrite <- !app_assoc in *. split; [exact Hgen | exact Ht2].
    + injection Hrun as <- <-. exists evs1, (S d), rest1.
      split; [exact Hlog1|]. split; [now rewrite Hnext, Hsplit | discriminate].
    + injection Hrun as <- <-. exists evs1, (S d), rest1.
      split; [exact Hlog1|]. split; [now rewrite Hnext, Hsplit | discriminate].
Qed.

(** X18. Whatever budget is set and however the run ends (a result, no
    result, a timeout, or still running), the hypotheses [search] has
    evaluated are, in order and each exactly once, an initial segment of the
    enumeration of [generate_hypotheses]: none is skipped or retried; and when
    a result is returned, [hypotheses_tried] is the number of evaluations
    made. *)
Theorem search_evaluates_enumeration_prefix timeout fuel w out w' :
  search call extract_primitives clock frames task_examples task_id dsl_module
         constants_module max_depth timeout fuel w = (out, w') ->
  exists evs d rest,
    log w' = log w ++ evs /\
    generate_hypotheses frames d (extract_primitives dsl_module)
    = Ok (evaluated evs ++ rest) /\
    (forall r, out = Returns (Some r) ->
               hypotheses_tried r = length (evaluated evs)).
Proof.
  intros Hrun. unfold search, bind in Hrun. cbn [time_time] in Hrun.
  destruct (search_while_evaluates _ _ _ _ 0 0 _ _ _ [] Hrun eq_refl eq_refl)
    as (evs & d & rest & Hlog & Hgen & Ht).
  cbn [log] in Hlog. rewrite <- app_assoc in Hlog.
  eexists _, d, rest. split; [exact Hlog|].
  rewrite evaluated_app. split; [exact Hgen | exact Ht].
Qed.
(** Without a timeout the loop over one depth returns a result exactly
    when one of its hypotheses passes. *)
Lemma search_depth_untimed_exit timeout d start_time hs total w :
  truthy timeout = false ->
  (exists r w', loop timeout hs d total start_time w = (Returns (Return_ (Some r)), w') /\
                depth r = d) \/
  (exists w', loop timeout hs d total start_time w
              = (Returns (Exhausted (total + length hs)), w') /\
              Forall (fun h => solves h = false) hs).
Proof.
  intros Ht.
  destruct (loop timeout hs d total start_time w) as [out w'] eqn:Hloop.
  pose proof Hloop as Hexit. apply search_depth_exit in Hexit.
  destruct out as [[[r|] | total'] | |]; try contradiction.
  - left. exists r, w'. split; [reflexivity|].
    now destruct Hexit as (_ & _ & _ & _ & _ & Hd & _).
  - congruence.
  - right. exists w'. destruct Hexit as [-> Hall]. now split.
Qed.

Lemma search_while_complete timeout primitives start_time d hs h :
  truthy timeout = false ->
  generate_at_depth frames d primitives = Ok hs -> In h hs -> solves h = true ->
  within_depth max_depth d = true ->
  forall fuel a total w,
    1 <= a <= d -> d - a < fuel ->
    exists r w',
      while timeout fuel primitives a total start_time w = (Returns (Some r), w') /\
      depth r <= d.
Proof.
  intros Ht Hhs Hin Hh Hwithin.
  induction fuel as [|fuel IH]; intros a total w Ha Hfuel; [lia|].
  rewrite search_while_S. rewrite (within_depth_le _ _ a Hwithin) by lia.
  destruct (generate_at_depth_below frames d a primitives hs Hhs) as [hs_a Hgen];
    [lia|].
  rewrite Hgen.
  destruct (search_depth_untimed_exit timeout a start_time hs_a total w Ht)
    as [(r & w' & -> & Hd) | (w' & -> & Hall)].
  - exists r, w'. split; [reflexivity | lia].
  - destruct (decide (a = d)) as [-> | Hne].
    + rewrite Hhs in Hgen. injection Hgen as <-.
      rewrite Forall_forall in Hall. apply list_elem_of_In, Hall in Hin. congruence.
    + apply IH; lia.
Qed.

(** X19. Completeness without a timeout: if some hypothesis generated at
    a depth within the depth budget passes all examples and the timeout is
    absent or zero, [search] returns a result, of that depth or a smaller
    one, however the clock behaves. *)
Theorem search_finds_existing_solution timeout fuel w d hs h :
  truthy timeout = false ->
  generate_at_depth frames d (extract_primitives dsl_module) = Ok hs ->
  In h hs ->
  passes call task_examples dsl_module constants_module h = true ->
  within_depth max_depth d = true ->
  d <= fuel ->
  exists r w',
    search call extract_primitives clock frames task_examples task_id dsl_module
           constants_module max_depth timeout fuel w = (Returns (Some r), w') /\
    depth r <= d.
Proof.
  intros Ht Hhs Hin Hh Hwithin Hfuel. unfold search, bind. cbn [time_time].
  assert (Hd : 1 <= d).
  { destruct d; [|lia]. rewrite generate_at_depth_zero in Hhs. discriminate Hhs. }
  eapply search_while_complete; eauto; lia.
Qed.

(** X20. With a depth ceiling [m] whose deepest level the generator
    reaches within the recursion limit, [search] always returns, a result or
    [None], and does not raise, whatever the catalog, the examples, the
    timeout and the clock: the shallower depths are then generated too, and
    what goes wrong in an evaluation stays in the evaluator. *)
Theorem search_with_ceiling_returns timeout m fuel w :
  max_depth = Some m ->
  ((1 <= m)%Z ->
   exists hs,
     generate_at_depth frames (Z.to_nat m) (extract_primitives dsl_module) = Ok hs) ->
  Z.to_nat m <= fuel ->
  exists r w',
    search call extract_primitives clock frames task_examples task_id dsl_module
           constants_module max_depth timeout fuel w = (Returns r, w').
Proof. intros Hm Hgen Hfuel. now apply (search_terminates _ _ _ _ _ _ _ _ _ _ m). Qed.

(** Without a timeout and without a solution the [while] loop goes on
    until the generator runs into the recursion limit. *)
Lemma search_while_overflows timeout primitives start_time :
  truthy timeout = false ->
  within_depth max_depth (frames + 3) = true ->
  (forall d hs h, generate_at_depth frames d primitives = Ok hs -> In h hs ->
                  solves h = false) ->
  forall fuel a total w,
    1 <= a <= frames + 3 -> frames + 3 - a < fuel ->
    fst (while timeout fuel primitives a total start_time w) = Raises RecursionError.
Proof.
  intros Ht Hwithin Hnone.
  induction fuel as [|fuel IH]; intros a total w Ha Hfuel; [lia|].
  rewrite search_while_S, (within_depth_le _ _ a Hwithin) by lia.
  destruct (decide (a = frames + 3)) as [-> | Hne].
  - rewrite generate_at_depth_overflow by lia. reflexivity.
  - destruct (proj2 (generate_at_depth_defined frames a primitives)) as [hs Hgen];
      [lia|].
    rewrite Hgen.
    destruct (search_depth_untimed_exit timeout a start_time hs total w Ht)
      as [(r & w' & Hrun & _) | (w' & -> & _)].
    + apply search_depth_exit in Hrun as (pre & post & Hsplit & _ & Hr & _).
      rewrite (Hnone a hs (hypothesis r)) in Hr; [discriminate Hr | exact Hgen|].
      rewrite Hsplit. apply in_or_app. right. now left.
    + apply IH; lia.
Qed.

(** X21. A search that no timeout stops and whose depth ceiling, if it has
    one, lies beyond the recursion limit never returns when no generated
    hypothesis passes: it exhausts the depths the generator reaches, one
    after the other, and ends with the [RecursionError] that the generator
    raises at the first depth it does not reach. *)
Theorem search_without_solution_overflows timeout fuel w :
  truthy timeout = false ->
  within_depth max_depth (frames + 3) = true ->
  (forall d hs h,
      generate_at_depth frames d (extract_primitives dsl_module) = Ok hs -> In h hs ->
      passes call task_examples dsl_module constants_module h = false) ->
  frames + 3 <= fuel ->
  fst (search call extract_primitives clock frames task_examples task_id dsl_module
              constants_module max_depth timeout fuel w)
  = Raises RecursionError.
Proof.
  intros Ht Hwithin Hnone Hfuel. unfold search, bind. cbn [time_time].
  destruct (while timeout fuel (extract_primitives dsl_module) 1 0 _ _)
    as [out w'] eqn:Hrun.
  pose proof (search_while_overflows timeout (extract_primitives dsl_module)
                (clock (ticks w)) Ht Hwithin Hnone fuel 1 0
                {| ticks := S (ticks w);
                   log := log w ++ [EvTime AtStart (clock (ticks w))] |}) as Hd.
  rewrite Hrun in Hd. cbn [fst] in Hd.
  specialize (Hd ltac:(lia) ltac:(lia)). now subst out.
Qed.

(** X22. With a depth ceiling below 1, [search] returns [None] at once:
    it reads the clock once and evaluates nothing, whatever the fuel. *)
Theorem search_with_no_depth_returns_none timeout m fuel w :
  max_depth = Some m ->
  (m < 1)%Z ->
  search call extract_primitives clock frames task_examples task_id dsl_module
         constants_module max_depth timeout fuel w
  = (Returns None,
     {| ticks := S (ticks w);
        log := log w ++ [EvTime AtStart (clock (ticks w))] |}).
Proof.
  intros Hm Hlt. unfold search, bind. cbn [time_time].
  assert (Hw : within_depth max_depth 1 = false).
  { unfold within_depth. rewrite Hm. apply Z.leb_gt. lia. }
  destruct fuel; [rewrite search_while_0 | rewrite search_while_S]; now rewrite Hw.
Qed.
End SearchMore.

Lemma search_finds_solution_witness :
  exists r w',
    search Demo.call Demo.extract_library Demo.steady_clock Demo.frames
           Demo.stack_example "b" Demo.dsl_module Demo.constants_module
           None None 2 world0
    = (Returns (Some r), w') /\
    depth r <= 2.
Proof.
  eapply (search_finds_existing_solution Demo.call Demo.extract_library
            Demo.steady_clock Demo.frames Demo.stack_example "b" Demo.dsl_module
            Demo.constants_module None None 2 world0 2 _
            {| steps := [PrimitiveCall "hmirror" [Demo.I_arg] "x1";
                         PrimitiveCall "vconcat"
                           [{| kind := variable; value := "x1" |}; Demo.I_arg] "O"] |}).
  - reflexivity.
  - reflexivity.
  - vm_compute. do 4 right. now left.
  - reflexivity.
  - reflexivity.
  - lia.
Defined.

Lemma search_with_ceiling_witness :
  exists r w',
    search Demo.call Demo.extract_library Demo.steady_clock Demo.frames
           Demo.stack_example "b" Demo.dsl_module Demo.constants_module
           (Some 3%Z) None 3 world0
    = (Returns r, w').
Proof.
  apply (search_with_ceiling_returns Demo.call Demo.extract_library
           Demo.steady_clock Demo.frames Demo.stack_example "b" Demo.dsl_module
           Demo.constants_module (Some 3%Z) None 3%Z 3 world0).
  - reflexivity.
  - intros _. eexists. vm_compute. reflexivity.
  - lia.
Defined.

(** No composition of mirrors turns a grid into one with other cells: on
    an interpreter with room for a single nested generator the search
    exhausts depths 1 to 3 and raises at depth 4. *)
Lemma search_without_solution_witness :
  fst (search Demo.call Demo.extract_mirrors Demo.steady_clock 1
              [(Demo.Grid [[1; 2]]%Z, Demo.Grid [[9]]%Z)] "t"
              Demo.dsl_module Demo.constants_module None None 4 world0)
  = Raises RecursionError.
Proof.
  apply (search_without_solution_overflows Demo.call Demo.extract_mirrors
           Demo.steady_clock 1 [(Demo.Grid [[1; 2]]%Z, Demo.Grid [[9]]%Z)] "t"
           Demo.dsl_module Demo.constants_module None None 4 world0);
    [reflexivity | reflexivity | | lia].
  intros d hs h Hgen Hin.
  assert (Hall : forallb (fun h => negb (passes Demo.call
                                           [(Demo.Grid [[1; 2]]%Z, Demo.Grid [[9]]%Z)]
                                           Demo.dsl_module Demo.constants_module h))
                         hs = true).
  { destruct d as [|[|[|[|d]]]]; vm_compute in Hgen;
      try discriminate Hgen; injection Hgen as <-; vm_compute; reflexivity. }
  rewrite forallb_forall in Hall. apply Hall in Hin.
  now apply negb_true_iff in Hin.
Defined.

Lemma search_with_no_depth_witness :
  fst (search Demo.call Demo.extract_mirrors Demo.steady_clock Demo.frames
              Demo.mirror_example "t" Demo.dsl_module Demo.constants_module
              (Some 0%Z) (Some 10%Q) 0 world0)
  = Returns None.
Proof.
  rewrite (search_with_no_depth_returns_none Demo.call Demo.extract_mirrors
             Demo.steady_clock Demo.frames Demo.mirror_example "t" Demo.dsl_module
             Demo.constants_module (Some 0%Z) (Some 10%Q) 0%Z 0 world0);
    [reflexivity | reflexivity | lia].
Defined.

(* ===================================================================== *)
(** ** Further properties: the search with progress reports *)
(* ===================================================================== *)

Lemma half_second_later (now last start_time : Q) :
  Qgtb (now - last) (1 # 2) = true ->
  (last - start_time + (1 # 2) < now - start_time)%Q.
Proof.
  unfold Qgtb. intros Hgt. apply negb_true_iff in Hgt.
  assert (Hn : ~ (now - last <= 1 # 2)%Q).
  { intros Hle. apply Qle_bool_iff in Hle. congruence. }
  lra.
Qed.

Lemma callbacks_ok_proper evs :
  forall n (a b : Q), (a == b)%Q -> callbacks_ok n a evs -> callbacks_ok n b evs.
Proof.
  induction evs as [|[site t | h p | d k e] evs IH]; intros n a b Hab; cbn [callbacks_ok].
  - auto.
  - apply IH, Hab.
  - apply IH, Hab.
  - intros (Hk & Hlt & Hrest). repeat split; [exact Hk | lra | exact Hrest].
Qed.

Section CallbackFacts.
Context {obj : Type} `{EqDecision obj}.
Variable call : obj -> list obj -> result obj.
Variable extract_primitives : (string -> option obj) -> Catalog.
Variable clock : nat -> Q.
Variable frames : nat.
Variables (task_examples : list (obj * obj)) (task_id : string).
Variables dsl_module constants_module : string -> option obj.
Variable callback : nat -> nat -> Q -> result unit.
Variable max_depth : option Z.

Local Abbreviation solves :=
  (passes call task_examples dsl_module constants_module).
Local Abbreviation loop timeout :=
  (search_depth call clock task_examples task_id dsl_module constants_module
                timeout).
Local Abbreviation while timeout :=
  (search_while call clock frames task_examples task_id dsl_module constants_module
                max_depth timeout).
Local Abbreviation cb_loop timeout :=
  (callback_depth call clock task_examples task_id dsl_module constants_module
                  callback timeout).
Local Abbreviation cb_while timeout :=
  (callback_while call clock frames task_examples task_id dsl_module
                  constants_module callback max_depth timeout).

(** One turn of the [while] loop of [search_with_callback]. *)
Lemma callback_while_S timeout fuel primitives d total start_time last w :
  cb_while timeout (S fuel) primitives d total start_time last w
  = if within_depth max_depth d then
      match generate_at_depth frames d primitives with
      | Err e => (Raises e, w)
      | Ok hs =>
          match cb_loop timeout hs d total start_time last w with
          | (Returns (Return_ r), w1) => (Returns r, w1)
          | (Returns (Exhausted (total', last')), w1) =>
              cb_while timeout fuel primitives (d + 1) total' start_time last' w1
          | (Raises e, w1) => (Raises e, w1)
          | (OutOfFuel, w1) => (OutOfFuel, w1)
          end
      end
    else (Returns None, w).
Proof.
  cbn [callback_while]. destruct (within_depth max_depth d); [|reflexivity].
  unfold bind, lift_result.
  destruct (generate_at_depth frames d primitives) as [hs|e]; [|reflexivity].
  destruct (cb_loop timeout hs d total start_time last w)
    as [[[r|[total' last']]|e|] w1]; reflexivity.
Qed.

Lemma callback_while_0 timeout primitives d total start_time last w :
  cb_while timeout 0 primitives d total start_time last w
  = if within_depth max_depth d then (OutOfFuel, w) else (Returns None, w).
Proof. cbn [callback_while]. now destruct (within_depth max_depth d). Qed.

(** Without a timeout, and under a callback that does not raise, the two
    loops over one depth end alike. *)
Lemma callback_depth_agrees timeout d hs :
  truthy timeout = false ->
  (forall depth tried elapsed, callback depth tried elapsed = Ok tt) ->
  forall total start1 w1 start2 last w2,
    (exists r r' w1' w2',
        loop timeout hs d total start1 w1 = (Returns (Return_ (Some r)), w1') /\
        cb_loop timeout hs d total start2 last w2 = (Returns (Return_ (Some r')), w2') /\
        untimed_result r = untimed_result r') \/
    (exists last' w1' w2',
        loop timeout hs d total start1 w1
        = (Returns (Exhausted (total + length hs)), w1') /\
        cb_loop timeout hs d total start2 last w2
        = (Returns (Exhausted (total + length hs, last')), w2')).
Proof.
  intros Ht Hcb. induction hs as [|h hs IH]; intros total start1 w1 start2 last w2.
  - right. exists last, w1, w2. cbn [length]. rewrite Nat.add_0_r. split; reflexivity.
  - rewrite search_depth_cons, callback_depth_cons. cbv zeta.
    assert (Hexp : expired clock timeout start1 w1 = false).
    { unfold expired. destruct timeout; [now rewrite Ht | reflexivity]. }
    rewrite Hexp, Ht. cbn [andb].
    assert (Hquiet : (if Qgtb (clock (ticks w2) - last) (1 # 2)
                      then callback d total (clock (ticks w2) - start2)
                      else Ok tt) = Ok tt).
    { destruct (Qgtb _ _); [apply Hcb | reflexivity]. }
    rewrite Hquiet. destruct (solves h).
    + left. eexists _, _, _, _. repeat split.
    + match goal with
      | |- context [cb_loop timeout hs d (total + 1) start2 ?l ?w] =>
          destruct (IH (total + 1) start1
                       (after_evaluate h false (after_check clock timeout w1))
                       start2 l w)
            as [(r & r' & w1' & w2' & -> & -> & Hr) | (last' & w1' & w2' & -> & ->)]
      end.
      * left. now exists r, r', w1', w2'.
      * right. exists last', w1', w2'. cbn [length].
        replace (total + S (length hs)) with (total + 1 + length hs) by lia.
        split; reflexivity.
Qed.

Lemma callback_while_agrees timeout primitives fuel :
  truthy timeout = false ->
  (forall depth tried elapsed, callback depth tried elapsed = Ok tt) ->
  forall d total start1 w1 start2 last w2,
    untimed (fst (while timeout fuel primitives d total start1 w1))
    = untimed (fst (cb_while timeout fuel primitives d total start2 last w2)).
Proof.
  intros Ht Hcb.
  induction fuel as [|fuel IH]; intros d total start1 w1 start2 last w2.
  - rewrite search_while_0, callback_while_0.
    now destruct (within_depth max_depth d).
  - rewrite search_while_S, callback_while_S.
    destruct (within_depth max_depth d); [|reflexivity].
    destruct (generate_at_depth frames d primitives) as [hs|]; [|reflexivity].
    destruct (callback_depth_agrees timeout d hs Ht Hcb total start1 w1 start2 last w2)
      as [(r & r' & w1' & w2' & -> & -> & Hr) | (last' & w1' & w2' & -> & ->)].
    + cbn [fst untimed option_map]. now rewrite Hr.
    + apply IH.
Qed.

(** X23. When the timeout is absent or zero and the callback does not
    raise, [search_with_callback] ends as [search] does: both return no
    result, or results with the same hypothesis, rendered code, depth and
    attempt count, or both raise the generator's [RecursionError]; only the
    reported elapsed time may differ. *)
Theorem search_with_callback_agrees_with_search timeout fuel w :
  truthy timeout = false ->
  (forall depth tried elapsed, callback depth tried elapsed = Ok tt) ->
  untimed (fst (search_with_callback call extract_primitives clock frames task_examples
                  task_id dsl_module constants_module callback max_depth timeout fuel w))
  = untimed (fst (search call extract_primitives clock frames task_examples task_id
                    dsl_module constants_module max_depth timeout fuel w)).
Proof.
  intros Ht Hcb. unfold search, search_with_callback, bind. cbn [time_time].
  symmetry. now apply callback_while_agrees.
Qed.

Lemma callback_depth_within_timeout t d start_time hs :
  truthy (Some t) = true ->
  forall total last w r w',
    cb_loop (Some t) hs d total start_time last w = (Returns (Return_ (Some r)), w') ->
    Qgtb (time_elapsed r) t = false.
Proof.
  intros Ht. induction hs as [|h hs IH]; intros total last w r w' Hrun.
  - discriminate Hrun.
  - rewrite callback_depth_cons in Hrun. cbv zeta in Hrun.
    rewrite Ht in Hrun. cbn [andb] in Hrun.
    destruct (Qgtb (clock (ticks w) - start_time) t) eqn:Hnow; [discriminate Hrun|].
    destruct (if Qgtb _ _ then callback _ _ _ else Ok tt); [|discriminate Hrun].
    destruct (solves h).
    + injection Hrun as <- _. exact Hnow.
    + eapply IH, Hrun.
Qed.

(** X24. With a nonzero timeout, a result returned by
    [search_with_callback] never reports an elapsed time above the timeout:
    the time it reports is the one read at the check made before the
    evaluation of the returned hypothesis. *)
Theorem search_with_callback_elapsed_within_timeout t fuel w r w' :
  ~ (t == 0)%Q ->
  search_with_callback call extract_primitives clock frames task_examples task_id
    dsl_module constants_module callback max_depth (Some t) fuel w
  = (Returns (Some r), w') ->
  Qgtb (time_elapsed r) t = false.
Proof.
  intros Hnz Hrun.
  assert (Ht : truthy (Some t) = true).
  { unfold truthy. destruct (Qeq_bool t 0) eqn:E; [|reflexivity].
    now apply Qeq_bool_eq in E. }
  unfold search_with_callback, bind in Hrun. cbn [time_time] in Hrun.
  remember (clock (ticks w)) as start_time eqn:Hs. clear Hs.
  remember 1 as d eqn:Hd. clear Hd. remember 0 as total eqn:Htot. clear Htot.
  remember ({| ticks := S (ticks w); log := _ |}) as w0 eqn:Hw0. clear Hw0.
  remember start_time as last eqn:Hl in Hrun at 2. clear Hl.
  revert d total last w0 Hrun.
  induction fuel as [|fuel IH]; intros d total last w0 Hrun.
  - rewrite callback_while_0 in Hrun.
    destruct (within_depth max_depth d); discriminate Hrun.
  - rewrite callback_while_S in Hrun.
    destruct (within_depth max_depth d); [|discriminate Hrun].
    destruct (generate_at_depth frames d (extract_primitives dsl_module)) as [hs|];
      [|discriminate Hrun].
    destruct (cb_loop (Some t) hs d total start_time last w0)
      as [[[r0|[total' last']]| |] w1] eqn:Hloop; try discriminate Hrun.
    + injection Hrun as -> ->.
      eapply callback_depth_within_timeout; eassumption.
    + eapply IH, Hrun.
Qed.
End CallbackFacts.

Section CallbackTrace.
Context {obj : Type} `{EqDecision obj}.
Variable call : obj -> list obj -> result obj.
Variable extract_primitives : (string -> option obj) -> Catalog.
Variable clock : nat -> Q.
Variable frames : nat.
Variables (task_examples : list (obj * obj)) (task_id : string).
Variables dsl_module constants_module : string -> option obj.
Variable callback : nat -> nat -> Q -> result unit.
Variable max_depth : option Z.

Local Abbreviation cb_loop timeout :=
  (callback_depth call clock task_examples task_id dsl_module constants_module
                  callback timeout).
Local Abbreviation cb_while timeout :=
  (callback_while call clock frames task_examples task_id dsl_module
                  constants_module callback max_depth timeout).

(** The trace one depth adds keeps the callbacks in step with the counter
    of attempts and with the time of the last callback. *)
Lemma callback_depth_trace timeout d start_time hs :
  forall total last w out w',
    cb_loop timeout hs d total start_time last w = (out, w') ->
    exists evs,
      log w' = log w ++ evs /\
      match out with
      | Returns (Exhausted (total', last')) =>
          forall evs2,
            callbacks_ok total' (last' - start_time) evs2 ->
            callbacks_ok total (last - start_time) (evs ++ evs2)
      | _ => callbacks_ok total (last - start_time) evs
      end.
Proof.
  induction hs as [|h hs IH]; intros total last w out w' Hrun.
  - injection Hrun as <- <-. exists []. rewrite app_nil_r. split; [reflexivity|].
    intros evs2 Hok. exact Hok.
  - rewrite callback_depth_cons in Hrun. cbv zeta in Hrun.
    destruct (truthy timeout && _).
    { injection Hrun as <- <-. eexists. split; [reflexivity | exact I]. }
    set (now := clock (ticks w)) in *.
    destruct (Qgtb (now - last) (1 # 2)) eqn:Hfire.
    + pose proof (half_second_later _ _ start_time Hfire) as Hlater.
      destruct (callback d total (now - start_time)) as [[]|err].
      2:{ injection Hrun as <- <-. cbn [log]. rewrite <- !app_assoc. cbn [app].
          eexists. split; [reflexivity|]. cbn [callbacks_ok]. auto. }
      destruct (passes call task_examples dsl_module constants_module h).
      * injection Hrun as <- <-. cbn [log after_evaluate].
        rewrite <- !app_assoc. cbn [app]. eexists. split; [reflexivity|].
        cbn [callbacks_ok]. auto.
      * destruct (IH _ _ _ _ _ Hrun) as (evs & Hlog & Hok).
        cbn [log after_evaluate] in Hlog. rewrite <- !app_assoc in Hlog.
        cbn [app] in Hlog. eexists. split; [exact Hlog|].
        replace (total + 1) with (S total) in Hok by lia.
        destruct out as [[r | [total' last']] | e |]; cbn [app callbacks_ok]; auto.
    + destruct (passes call task_examples dsl_module constants_module h).
      * injection Hrun as <- <-. cbn [log after_evaluate].
        rewrite <- !app_assoc. cbn [app]. eexists. split; [reflexivity | exact I].
      * destruct (IH _ _ _ _ _ Hrun) as (evs & Hlog & Hok).
        cbn [log after_evaluate] in Hlog. rewrite <- !app_assoc in Hlog.
        cbn [app] in Hlog. eexists. split; [exact Hlog|].
        replace (total + 1) with (S total) in Hok by lia.
        destruct out as [[r | [total' last']] | e |]; cbn [app callbacks_ok]; auto.
Qed.

Lemma callback_while_trace timeout primitives start_time fuel :
  forall d total last w out w',
    cb_while timeout fuel primitives d total start_time last w = (out, w') ->
    exists evs,
      log w' = log w ++ evs /\ callbacks_ok total (last - start_time) evs.
Proof.
  assert (Hstop : forall total last (w : world),
             exists evs, log w = log w ++ evs /\
                         callbacks_ok total (last - start_time) evs).
  { intros. exists []. now rewrite app_nil_r. }
  induction fuel as [|fuel IH]; intros d total last w out w' Hrun.
  - rewrite callback_while_0 in Hrun.
    destruct (within_depth max_depth d); injection Hrun as <- <-; apply Hstop.
  - rewrite callback_while_S in Hrun.
    destruct (within_depth max_depth d); [|injection Hrun as <- <-; apply Hstop].
    destruct (generate_at_depth frames d primitives) as [hs|];
      [|injection Hrun as <- <-; apply Hstop].
    destruct (cb_loop timeout hs d total start_time last w) as [out1 w1] eqn:Hloop.
    destruct (callback_depth_trace _ _ _ _ _ _ _ _ _ Hloop) as (evs1 & Hlog1 & Hok1).
    destruct out1 as [[r | [total' last']] | e |];
      try (injection Hrun as <- <-; now exists evs1).
    destruct (IH _ _ _ _ _ _ Hrun) as (evs2 & Hlog2 & Hok2).
    exists (evs1 ++ evs2). rewrite Hlog2, Hlog1, app_assoc. split; [reflexivity|].
    now apply Hok1.
Qed.

(** X25. Progress reports of [search_with_callback]: in every run, each
    call of the callback reports as attempt count the number of hypotheses
    evaluated before it, and an elapsed time more than half a second above
    the one reported by the previous call (above half a second for the first
    call). *)
Theorem search_with_callback_reports timeout fuel w out w' :
  search_with_callback call extract_primitives clock frames task_examples task_id
    dsl_module constants_module callback max_depth timeout fuel w = (out, w') ->
  exists evs,
    log w' = log w ++ EvTime AtStart (clock (ticks w)) :: evs /\
    callbacks_ok 0 0 evs.
Proof.
  intros Hrun. unfold search_with_callback, bind in Hrun. cbn [time_time] in Hrun.
  destruct (callback_while_trace _ _ _ _ _ _ _ _ _ _ Hrun) as (evs & Hlog & Hok).
  exists evs. cbn [log] in Hlog. rewrite <- app_assoc in Hlog. split; [exact Hlog|].
  eapply callbacks_ok_proper; [|exact Hok]. lra.
Qed.
End CallbackTrace.

(** A clock advancing one second per call: a report precedes every
    evaluation. *)
Lemma search_with_callback_reports_witness :
  exists evs,
    snd (search_with_callback Demo.call Demo.extract_mirrors Demo.steady_clock
           Demo.frames Demo.mirror_example "t" Demo.dsl_module
           Demo.constants_module Demo.silent (Some 1%Z) None 1 world0)
    = {| ticks := 3;
         log := EvTime AtStart 0 :: evs |} /\
    callbacks_ok 0 0 evs.
Proof.
  destruct (search_with_callback Demo.call Demo.extract_mirrors Demo.steady_clock
              Demo.frames Demo.mirror_example "t" Demo.dsl_module
              Demo.constants_module Demo.silent (Some 1%Z) None 1 world0)
    as [out w'] eqn:Hrun.
  destruct (search_with_callback_reports _ _ _ _ _ _ _ _ _ _ _ _ _ _ _ Hrun)
    as (evs & Hlog & Hok).
  exists evs. split; [|exact Hok].
  vm_compute in Hrun. injection Hrun as _ <-. cbn [log world0 ticks app] in Hlog.
  cbn [snd]. f_equal. exact Hlog.
Defined.

Lemma search_with_callback_agrees_witness :
  untimed (fst (search_with_callback Demo.call Demo.extract_mirrors
                  Demo.jumping_clock Demo.frames Demo.mirror_example "t"
                  Demo.dsl_module Demo.constants_module Demo.silent
                  (Some 1%Z) None 1 world0))
  = Returns (Some (Demo.vmirror_I,
                   hypothesis_to_code Demo.vmirror_I "t", 1, 2)).
Proof.
  rewrite (search_with_callback_agrees_with_search Demo.call Demo.extract_mirrors
             Demo.jumping_clock Demo.frames Demo.mirror_example "t" Demo.dsl_module
             Demo.constants_module Demo.silent (Some 1%Z) None 1 world0 eq_refl).
  - vm_compute. reflexivity.
  - reflexivity.
Defined.

(** The callback is not guarded: when it raises, the exception ends
    [search_with_callback], on an input where [search] returns a result. *)
Example failing_callback_ends_the_search :
  fst (search_with_callback Demo.call Demo.extract_mirrors Demo.steady_clock
         Demo.frames Demo.mirror_example "t" Demo.dsl_module
         Demo.constants_module Demo.failing (Some 1%Z) None 1 world0)
  = Raises (CallError "callback") /\
  exists r,
    fst (search Demo.call Demo.extract_mirrors Demo.steady_clock Demo.frames
           Demo.mirror_example "t" Demo.dsl_module Demo.constants_module
           (Some 1%Z) None 1 world0)
    = Returns (Some r).
Proof. split; [|eexists]; vm_compute; reflexivity. Qed.

Lemma search_with_callback_elapsed_witness :
  exists r w',
    search_with_callback Demo.call Demo.extract_mirrors Demo.steady_clock Demo.frames
      Demo.mirror_example "t" Demo.dsl_module Demo.constants_module Demo.silent
      (Some 1%Z) (Some 10%Q) 1 world0 = (Returns (Some r), w') /\
    Qgtb (time_elapsed r) 10 = false.
Proof.
  eexists _, _. split; [vm_compute; reflexivity|].
  eapply (search_with_callback_elapsed_within_timeout Demo.call Demo.extract_mirrors
            Demo.steady_clock Demo.frames Demo.mirror_example "t" Demo.dsl_module
            Demo.constants_module Demo.silent (Some 1%Z) 10%Q 1 world0).
  - discriminate.
  - vm_compute. reflexivity.
Defined.

(* ===================================================================== *)
(** ** Further properties: enumerating several solutions *)
(* ===================================================================== *)

Lemma quota_last max_solutions found :
  (max_solutions <=? Z.of_nat (found + 1))%Z = true -> quota max_solutions found = 1.
Proof. unfold quota. rewrite Z.leb_le. lia. Qed.

Lemma quota_more max_solutions found :
  (max_solutions <=? Z.of_nat (found + 1))%Z = false ->
  quota max_solutions found = S (quota max_solutions (found + 1)).
Proof. unfold quota. rewrite Z.leb_gt. lia. Qed.

Lemma quota_after max_solutions found n :
  n < quota max_solutions found ->
  quota max_solutions (found + n) = quota max_solutions found - n.
Proof. unfold quota. lia. Qed.

Section EnumerateFacts.
Context {obj : Type} `{EqDecision obj}.
Variable call : obj -> list obj -> result obj.
Variable extract_primitives : (string -> option obj) -> Catalog.
Variable clock : nat -> Q.
Variable frames : nat.
Variables (task_examples : list (obj * obj)) (task_id : string).
Variables dsl_module constants_module : string -> option obj.
Variables max_depth max_solutions : Z.

Local Abbreviation solves :=
  (passes call task_examples dsl_module constants_module).
Local Abbreviation enum_loop :=
  (enumerate_depth call clock task_examples task_id dsl_module constants_module
                   max_solutions).
Local Abbreviation enum_depths :=
  (enumerate_depths call clock frames task_examples task_id dsl_module constants_module
                    max_solutions).

(** One iteration of the inner loop of [enumerate_solutions]. *)
Lemma enumerate_depth_cons h hs d found total start_time w :
  enum_loop (h :: hs) d found total start_time w
  = let w1 := after_evaluate h (solves h) w in
    if solves h then
      let yielded :=
        {| hypothesis := h; code := hypothesis_to_code h task_id; depth := d;
           hypotheses_tried := total + 1;
           time_elapsed := clock (ticks w1) - start_time |} in
      if (max_solutions <=? Z.of_nat (found + 1))%Z
      then (Returns ([yielded], None), after_found clock w1)
      else
        match enum_loop hs d (found + 1) (total + 1) start_time (after_found clock w1) with
        | (Returns more, w2) => (Returns (yielded :: fst more, snd more), w2)
        | (Raises e, w2) => (Raises e, w2)
        | (OutOfFuel, w2) => (OutOfFuel, w2)
        end
    else enum_loop hs d found (total + 1) start_time w1.
Proof.
  cbn [enumerate_depth]. cbv zeta. unfold bind at 1. rewrite evaluate_call_run.
  destruct (solves h); [|reflexivity].
  unfold bind at 1. cbn [time_time].
  destruct (max_solutions <=? Z.of_nat (found + 1))%Z; [reflexivity|].
  unfold bind at 1. fold (after_found clock (after_evaluate h true w)).
  destruct (enum_loop hs d (found + 1) (total + 1) start_time
                      (after_found clock (after_evaluate h true w)))
    as [[more| |] w2]; reflexivity.
Qed.

Lemma enumerate_depth_yields d start_time hs :
  forall found total w,
    exists ys ex w',
      enum_loop hs d found total start_time w = (Returns (ys, ex), w') /\
      map hypothesis ys
      = firstn (quota max_solutions found) (List.filter solves hs) /\
      match ex with
      | None => quota max_solutions found <= length (List.filter solves hs)
      | Some (found', total') =>
          length (List.filter solves hs) < quota max_solutions found /\
          found' = found + length (List.filter solves hs)
      end.
Proof.
  induction hs as [|h hs IH]; intros found total w.
  - exists [], (Some (found, total)), w. cbn [List.filter length firstn].
    split; [reflexivity|]. split; [now destruct (quota max_solutions found)|].
    unfold quota. lia.
  - rewrite enumerate_depth_cons. cbv zeta. cbn [List.filter].
    destruct (solves h).
    + destruct (max_solutions <=? Z.of_nat (found + 1))%Z eqn:Hmax.
      * eexists _, None, _. split; [reflexivity|].
        rewrite (quota_last _ _ Hmax). cbn [firstn map hypothesis length].
        split; [reflexivity | lia].
      * rewrite (quota_more _ _ Hmax).
        destruct (IH (found + 1) (total + 1)
                     (after_found clock (after_evaluate h true w)))
          as (ys & ex & w' & -> & Hys & Hex).
        eexists _, ex, w'. split; [reflexivity|]. cbn [fst snd map hypothesis firstn].
        split; [now rewrite Hys|].
        destruct ex as [[found' total']|]; cbn [length]; [|lia].
        destruct Hex as [Hlt ->]. split; lia.
    + apply IH.
Qed.

Lemma enumerate_depths_yields primitives start_time depths :
  forall all found total w,
    generate_depths frames depths primitives = Ok all ->
    exists rs w',
      enum_depths depths primitives found total start_time w = (Returns rs, w') /\
      map hypothesis rs
      = firstn (quota max_solutions found) (List.filter solves all).
Proof.
  induction depths as [|d depths IH]; intros all found total w Hgen.
  - injection Hgen as <-. exists [], w. split; [reflexivity|].
    now destruct (quota max_solutions found).
  - cbn [generate_depths] in Hgen.
    destruct (generate_at_depth frames d primitives) as [hs|] eqn:Hhs; [|discriminate Hgen].
    cbn [rbind] in Hgen.
    destruct (generate_depths frames depths primitives) as [later|] eqn:Hlater;
      [|discriminate Hgen].
    cbn [rbind] in Hgen. injection Hgen as <-.
    cbn [enumerate_depths]. unfold bind at 1, lift_result. rewrite Hhs.
    unfold bind at 1.
    destruct (enumerate_depth_yields d start_time hs found total w)
      as (ys & ex & w1 & -> & Hys & Hex).
    cbn [fst snd]. rewrite List.filter_app, firstn_app.
    destruct ex as [[found' total']|].
    + destruct Hex as [Hlt ->].
      destruct (IH later (found + length (List.filter solves hs)) total' w1 eq_refl)
        as (rs & w' & Hrun & Hrs).
      unfold bind at 1. rewrite Hrun. exists (ys ++ rs), w'.
      split; [reflexivity|].
      rewrite map_app, Hys, Hrs, quota_after by assumption.
      rewrite firstn_all2 by lia. reflexivity.
    + exists ys, w1. split; [reflexivity|].
      replace (quota max_solutions found - length (List.filter solves hs)) with 0 by lia.
      cbn [firstn]. now rewrite app_nil_r.
Qed.

(** X26. Whenever the enumeration [generate_hypotheses(max_depth)] is
    generated, [enumerate_solutions] does not raise and yields, in
    enumeration order, its first [max(1, max_solutions)] passing hypotheses,
    or all of them if there are fewer: the limit is tested only after a
    result has been yielded, so one solution is yielded even when
    [max_solutions] is zero or negative. *)
Theorem enumerate_solutions_yields w all :
  generate_hypotheses frames (Z.to_nat max_depth) (extract_primitives dsl_module)
  = Ok all ->
  exists rs w',
    enumerate_solutions call extract_primitives clock frames task_examples task_id
      dsl_module constants_module max_depth max_solutions w = (Returns rs, w') /\
    map hypothesis rs
    = firstn (Z.to_nat (Z.max 1 max_solutions))
             (List.filter (passes call task_examples dsl_module constants_module) all) /\
    length rs <= Z.to_nat (Z.max 1 max_solutions).
Proof.
  intros Hall. unfold enumerate_solutions, bind. cbn [time_time].
  destruct (enumerate_depths_yields (extract_primitives dsl_module) (clock (ticks w))
              _ all 0 0
              {| ticks := S (ticks w);
                 log := log w ++ [EvTime AtStart (clock (ticks w))] |} Hall)
    as (rs & w' & Hrun & Hrs).
  exists rs, w'. split; [exact Hrun|].
  assert (Hq : quota max_solutions 0 = Z.to_nat (Z.max 1 max_solutions))
    by (unfold quota; lia).
  rewrite Hq in Hrs. split; [exact Hrs|].
  rewrite <- (length_map hypothesis), Hrs. apply firstn_le_length.
Qed.
End EnumerateFacts.

(** Both mirrors undo themselves when applied twice: with
    [max_solutions = 0] only the first of the solutions is yielded. *)
Lemma enumerate_solutions_witness :
  exists rs w',
    enumerate_solutions Demo.call Demo.extract_mirrors Demo.steady_clock Demo.frames
      [(Demo.Grid [[1; 1]]%Z, Demo.Grid [[1; 1]]%Z)] "t"
      Demo.dsl_module Demo.constants_module 2 0 world0 = (Returns rs, w') /\
    map hypothesis rs = [Demo.hmirror_I].
Proof.
  destruct (generate_hypotheses Demo.frames (Z.to_nat 2)
              (Demo.extract_mirrors Demo.dsl_module)) as [all|] eqn:Hall;
    [|vm_compute in Hall; discriminate Hall].
  destruct (enumerate_solutions_yields Demo.call Demo.extract_mirrors Demo.steady_clock
              Demo.frames [(Demo.Grid [[1; 1]]%Z, Demo.Grid [[1; 1]]%Z)] "t"
              Demo.dsl_module Demo.constants_module 2 0 world0 all Hall)
    as (rs & w' & Hrun & Hrs & _).
  exists rs, w'. split; [exact Hrun|]. rewrite Hrs.
  vm_compute in Hall. injection Hall as <-. vm_compute. reflexivity.
Defined.

(* ===================================================================== *)
(** ** Further properties: type validity of generated programs *)
(* ===================================================================== *)

Lemma candidates_typed primitives env param_type include_primitives a :
  In a (get_possible_arguments param_type env primitives include_primitives) ->
  arg_typed primitives env param_type a.
Proof.
  intros Hin. apply in_get_possible_arguments in Hin. unfold arg_typed.
  destruct (kind a); tauto.
Qed.

Lemma type_valid_snoc primitives l s :
  type_valid primitives l ->
  step_typed primitives (build_type_env {| steps := l |} primitives) s ->
  type_valid primitives (l ++ [s]).
Proof.
  intros Hl Hs pre s' post E.
  destruct (exists_last (l := s' :: post) ltac:(discriminate)) as (front & x & Efront).
  change (pre ++ s' :: post) with (pre ++ (s' :: post)) in E.
  rewrite Efront, app_assoc in E. apply app_inj_tail in E as [El Es].
  subst x. destruct front as [|y front]; cbn [app] in Efront.
  - injection Efront as Es' _. subst s'. rewrite app_nil_r in El. now subst l.
  - injection Efront as Ey _. subst y. now apply (Hl pre s' front).
Qed.

Lemma extension_typed primitives partial is_final h :
  In h (extend_hypothesis partial primitives is_final) ->
  exists s,
    steps h = steps partial ++ [s] /\
    step_typed primitives (build_type_env partial primitives) s.
Proof.
  intros Hin. apply extend_hypothesis_inv in Hin. cbv zeta in Hin.
  destruct Hin as [(p & info & b & Hp & _ & Hb & Hs)
                  | (c & ins & out & b & Hc & _ & Hb & Hs)];
    eexists; (split; [exact Hs|]).
  - exists info. split; [exact Hp|]. apply in_enumerate_bindings in Hb.
    eapply Forall2_impl; [exact Hb|]. intros a ty. apply candidates_typed.
  - exists ins, out. split; [exact Hc|]. apply in_bindings in Hb.
    eapply Forall2_impl; [exact Hb|]. intros a ty. apply candidates_typed.
Qed.

Lemma extension_type_valid primitives partial is_final h :
  type_valid primitives (steps partial) ->
  In h (extend_hypothesis partial primitives is_final) ->
  type_valid primitives (steps h).
Proof.
  intros Hv Hin. apply extension_typed in Hin as (s & -> & Hs).
  apply type_valid_snoc; [exact Hv|]. now destruct partial.
Qed.

Lemma first_step_type_valid primitives p info binding o :
  In (p, info) primitives ->
  In binding (enumerate_bindings info TypeEnv_new primitives) ->
  type_valid primitives [PrimitiveCall p binding o].
Proof.
  intros Hp Hb. apply (type_valid_snoc primitives []).
  - intros pre s post E. destruct pre; discriminate E.
  - exists info. split; [exact Hp|]. apply in_enumerate_bindings in Hb.
    eapply Forall2_impl; [exact Hb|]. intros a ty. apply candidates_typed.
Qed.

Lemma partials_type_valid primitives frames d hs h :
  generate_partials_at_depth frames d primitives = Ok hs -> In h hs ->
  type_valid primitives (steps h).
Proof.
  apply (generate_partials_induction primitives
           (fun _ h => type_valid primitives (steps h))).
  - intros p info binding Hp Hb. eapply first_step_type_valid; eassumption.
  - intros d' partial h' Hv Hin. eapply extension_type_valid; eassumption.
Qed.

(** X27. Generated hypotheses are type-valid: at every depth, each step
    of each hypothesis calls a primitive of the catalog, or a variable that
    holds a function type in the environment derived from the steps before
    it, with exactly one argument per parameter, each argument denoting
    something whose declared type is compatible with that parameter's type. *)
Theorem generated_hypotheses_type_valid frames d primitives hs h :
  generate_at_depth frames d primitives = Ok hs -> In h hs ->
  type_valid primitives (steps h).
Proof.
  intros Hgen Hin. destruct d as [|[|d]].
  - rewrite generate_at_depth_zero in Hgen. discriminate Hgen.
  - injection Hgen as <-. unfold generate_single_step in Hin.
    apply in_flat_map in Hin as ([p info] & Hp & Hin). cbn [fst snd] in Hin.
    destruct (negb _); [destruct Hin|].
    apply in_map_iff in Hin as (binding & <- & Hb).
    eapply first_step_type_valid; eassumption.
  - rewrite generate_at_depth_general in Hgen by lia.
    replace (S (S d) - 1) with (S d) in Hgen by lia.
    destruct (generate_partials_at_depth frames (S d) primitives) as [partials|] eqn:E;
      [|discriminate Hgen].
    injection Hgen as <-. apply in_flat_map in Hin as (partial & Hp & Hin).
    eapply extension_type_valid; [eapply partials_type_valid; eauto | exact Hin].
Qed.

Lemma generated_type_valid_witness :
  exists hs,
    generate_at_depth Demo.frames 2 Demo.library = Ok hs /\
    forall h, In h hs -> type_valid Demo.library (steps h).
Proof.
  eexists. split; [reflexivity|]. intros h.
  apply (generated_hypotheses_type_valid Demo.frames 2 Demo.library). reflexivity.
Defined.

(** The run of scenario E evaluated [hmirror] only. *)
Lemma search_evaluates_witness :
  exists evs d rest,
    log (snd (search Demo.call Demo.extract_mirrors Demo.jumping_clock Demo.frames
                Demo.mirror_example "t" Demo.dsl_module Demo.constants_module
                (Some 1%Z) (Some 2%Q) 1 world0))
    = log world0 ++ evs /\
    generate_hypotheses Demo.frames d (Demo.extract_mirrors Demo.dsl_module)
    = Ok (evaluated evs ++ rest).
Proof.
  destruct (search Demo.call Demo.extract_mirrors Demo.jumping_clock Demo.frames
              Demo.mirror_example "t" Demo.dsl_module Demo.constants_module
              (Some 1%Z) (Some 2%Q) 1 world0) as [out w'] eqn:Hrun.
  destruct (search_evaluates_enumeration_prefix _ _ _ _ _ _ _ _ _ _ _ _ _ _ Hrun)
    as (evs & d & rest & Hlog & Hgen & _).
  now exists evs, d, rest.
Defined.
